(** * c-header-parser: type schema extraction and schema-driven decoding

    A shallow embedding of [TypeParser] (the C header parser with its
    layout calculator) and of [DataReader] (the binary decoder), and the
    properties of the specification established on it.

    Conventions of the embedding:
    - [std::string] is [string]: a sequence of 8-bit characters;
    - [size_t] and [long] are 64-bit, [int] is 32-bit (the LP64 model of
      the non-WIN32 build); every value is carried as a [Z] and the
      wrap-around of the unsigned type is written out with [to_size_t];
    - [std::map] is [gmap], [std::list] and [std::vector] are [list];
    - a by-reference output argument becomes a component of the result;
    - the build keeps its assertions: a failed [assert] aborts the program
      ([AssertFail]) and the calls made inside an [assert] are made; an
      exception nobody catches is [Throw]; behaviour the C++ standard
      leaves undefined is [Undefined]; loops and recursion that the
      source does not bound are driven by a fuel argument ([OutOfFuel]),
      and the nesting of included files by a depth argument of its own
      ([OutOfDepth]);
    - the console log ([Error], [Debug], [Info], [cout]) is not modelled. *)

From Stdlib Require Import ZArith Ascii String List Bool Lia DecimalString.
From Stdlib Require DecimalPos.
From stdpp Require Import base gmap strings list.

Local Open Scope string_scope.
Local Open Scope list_scope.
Local Open Scope Z_scope.

(** ** Outcomes of a call *)

Inductive outcome (A : Type) : Type :=
| Return (a : A)
| AssertFail
| Throw
| Undefined
| OutOfFuel
| OutOfDepth.

Arguments Return {A} a.
Arguments AssertFail {A}.
Arguments Throw {A}.
Arguments Undefined {A}.
Arguments OutOfFuel {A}.
Arguments OutOfDepth {A}.

#[global] Instance outcome_ret : MRet outcome := fun A a => Return a.

#[global] Instance outcome_fmap : FMap outcome := fun A B f c =>
  match c with
  | Return a => Return (f a)
  | AssertFail => AssertFail
  | Throw => Throw
  | Undefined => Undefined
  | OutOfFuel => OutOfFuel
  | OutOfDepth => OutOfDepth
  end.

#[global] Instance outcome_bind : MBind outcome := fun A B k c =>
  match c with
  | Return a => k a
  | AssertFail => AssertFail
  | Throw => Throw
  | Undefined => Undefined
  | OutOfFuel => OutOfFuel
  | OutOfDepth => OutOfDepth
  end.

(** [assert(b)] *)
Definition assert (b : bool) : outcome unit :=
  if b then Return tt else AssertFail.

(** ** Machine integers *)

Definition SIZE_MAX : Z := 2 ^ 64 - 1.
Definition LONG_MAX : Z := 2 ^ 63 - 1.
Definition LONG_MIN : Z := - 2 ^ 63.
Definition INT_MAX : Z := 2 ^ 31 - 1.
Definition INT_MIN : Z := - 2 ^ 31.

(** conversion to [size_t] (modulo 2^64) *)
Definition to_size_t (z : Z) : Z := z mod 2 ^ 64.

(** conversion of a [long] to [int]: the low 32 bits, two's complement *)
Definition to_int (z : Z) : Z := (z + 2 ^ 31) mod 2 ^ 32 - 2 ^ 31.

(** [sizeof(int)] *)
Definition sizeof_int : Z := 4.

(** The value of the [double] nearest to the unsigned integer [n]
    (53-bit significand, round to nearest, ties to even). *)
Definition double_of_Z (n : Z) : Z :=
  if n <? 2 ^ 53 then n
  else
    let e := Z.log2 n - 52 in
    let q := n / 2 ^ e in
    let r := n mod 2 ^ e in
    let half := 2 ^ (e - 1) in
    let q' := if r <? half then q
              else if half <? r then q + 1
              else if Z.even q then q else q + 1 in
    q' * 2 ^ e.

(** ** Declarations (defines.h) *)

Record VariableDeclaration : Type := mkVar {
  data_type : string;
  var_name : string;
  array_size : Z;
  is_pointer : bool;
  var_size : Z
}.

Inductive TokenTypes : Type :=
| kUnresolvedToken
| kStructKeyword
| kUnionKeyword
| kEnumKeyword
| kTypedefKeyword
| kBasicDataType
| kAbstractType
| kComplexType
| kQualifier
| kStructName
| kUnionName
| kEnumName.

Definition kBlockStart : ascii := "{"%char.
Definition kBlockEnd : ascii := "}"%char.
Definition kPoundSign : ascii := "#"%char.
Definition kComma : ascii := ","%char.
Definition kSemicolon : ascii := ";"%char.
Definition kEqual : ascii := "="%char.
Definition kSlash : ascii := "/"%char.
Definition kAsterisk : ascii := "*"%char.
Definition kQuotation : ascii := ascii_of_nat 34.

(** ** TypeParser: constants and state *)

Definition EOL : ascii := "$"%char.
Definition kAlignment_ : Z := 4.
Definition kWordSize_ : Z := 4.
Definition kAnonymousTypePrefix : string := "_ANONYMOUS_".
Definition kPaddingFieldName : string := "_padding_field_".

(** The sets and the keyword table that [Initialize] fills and that no
    other method writes. *)
Definition basic_types_ : list string :=
  ["char"; "short"; "int"; "size_t"; "ssize_t"; "long"; "float"; "double";
   "void"; "bool"; "__int64"; "__WCHAR_T_TYPE__"; "__SIZE_T_TYPE__";
   "__PTRDIFF_T_TYPE__"].

Definition qualifiers_ : list string :=
  ["static"; "const"; "signed"; "unsigned"; "far"; "extern";
   "volatile"; "auto"; "register"; "inline"; "__attribute__"].

Definition keywords_ (token : string) : option TokenTypes :=
  if String.eqb token "struct" then Some kStructKeyword
  else if String.eqb token "union" then Some kUnionKeyword
  else if String.eqb token "enum" then Some kEnumKeyword
  else if String.eqb token "typedef" then Some kTypedefKeyword
  else None.

Definition in_strings (s : string) (l : list string) : bool :=
  existsb (String.eqb s) l.

(** The mutable members of the class. *)
Record TypeParser : Type := mkParser {
  header_files_ : gmap string bool;
  type_sizes_ : gmap string Z;
  struct_defs_ : gmap string (list VariableDeclaration);
  union_defs_ : gmap string (list VariableDeclaration);
  enum_defs_ : gmap string (list (string * Z));
  const_defs_ : gmap string Z
}.

Definition set_header_files (f : gmap string bool -> gmap string bool)
    (p : TypeParser) : TypeParser :=
  mkParser (f (header_files_ p)) (type_sizes_ p) (struct_defs_ p)
           (union_defs_ p) (enum_defs_ p) (const_defs_ p).

Definition set_type_sizes (f : gmap string Z -> gmap string Z)
    (p : TypeParser) : TypeParser :=
  mkParser (header_files_ p) (f (type_sizes_ p)) (struct_defs_ p)
           (union_defs_ p) (enum_defs_ p) (const_defs_ p).

Definition set_struct_defs
    (f : gmap string (list VariableDeclaration) -> gmap string (list VariableDeclaration))
    (p : TypeParser) : TypeParser :=
  mkParser (header_files_ p) (type_sizes_ p) (f (struct_defs_ p))
           (union_defs_ p) (enum_defs_ p) (const_defs_ p).

Definition set_union_defs
    (f : gmap string (list VariableDeclaration) -> gmap string (list VariableDeclaration))
    (p : TypeParser) : TypeParser :=
  mkParser (header_files_ p) (type_sizes_ p) (struct_defs_ p)
           (f (union_defs_ p)) (enum_defs_ p) (const_defs_ p).

Definition set_enum_defs
    (f : gmap string (list (string * Z)) -> gmap string (list (string * Z)))
    (p : TypeParser) : TypeParser :=
  mkParser (header_files_ p) (type_sizes_ p) (struct_defs_ p)
           (union_defs_ p) (f (enum_defs_ p)) (const_defs_ p).

Definition set_const_defs (f : gmap string Z -> gmap string Z)
    (p : TypeParser) : TypeParser :=
  mkParser (header_files_ p) (type_sizes_ p) (struct_defs_ p)
           (union_defs_ p) (enum_defs_ p) (f (const_defs_ p)).

(** [TypeParser::Initialize]: every basic type gets the word size, then
    five of them are overwritten. *)
Definition Initialize : TypeParser :=
  let sizes0 : gmap string Z :=
    fold_left (fun m t => <[t := kWordSize_]> m) basic_types_ ∅ in
  let sizes :=
    <["__WCHAR_T_TYPE__" := 1]>
      (<["bool" := 1]> (<["short" := 2]> (<["char" := 1]> (<["void" := 0]> sizes0)))) in
  mkParser ∅ sizes ∅ ∅ ∅ ∅.

(** ** Layout calculator *)

(** [static_cast<size_t>(ceil(n * 1.0 / kAlignment_) * kAlignment_)]:
    [n] is converted to [double], the division by 4, [ceil] and the
    multiplication by 4 are exact on the converted value, and the
    conversion back to [size_t] is undefined when the value does not fit. *)
Definition align_up_double (n : Z) : outcome Z :=
  let v := (double_of_Z n + (kAlignment_ - 1)) / kAlignment_ * kAlignment_ in
  if v <=? SIZE_MAX then Return v else Undefined.

(** [TypeParser::MakePadField] *)
Definition MakePadField (size : Z) : VariableDeclaration :=
  {| data_type := "char"; var_name := kPaddingFieldName; array_size := 0;
     is_pointer := false; var_size := size |}.

(** The loop of [PadStructMembers]. The iterator [it] splits the list
    into the members before it ([before], most recent first) and the
    members from it on ([rest]); [members.insert(it, x)] puts [x] at the
    head of [before]. The result is the member list as the call leaves
    it and the value returned. *)
Fixpoint PadStructMembers_loop (rest before : list VariableDeclaration)
    (total last_size : Z) : outcome (list VariableDeclaration * Z) :=
  match rest with
  | [] => Return (rev before, total)
  | m :: rest' =>
    let size := var_size m in
    if size mod kAlignment_ =? 0 then
      if 0 <? last_size then
        align_size ← align_up_double last_size;
        let pad_size := to_size_t (align_size - last_size) in
        PadStructMembers_loop rest' (m :: MakePadField pad_size :: before)
          (to_size_t (total + align_size)) 0
      else
        PadStructMembers_loop rest' (m :: before) (to_size_t (total + size)) 0
    else if kAlignment_ <=? size then
      Return (rev before ++ rest, 0)
    else if last_size =? 0 then
      PadStructMembers_loop rest' (m :: before) total size
    else if (size + last_size) mod kAlignment_ =? 0 then
      PadStructMembers_loop rest' (m :: before)
        (to_size_t (total + (size + last_size))) 0
    else if last_size =? 1 then
      if size =? 1 then
        PadStructMembers_loop rest' (m :: before) total (last_size + 1)
      else if size =? 2 then
        PadStructMembers_loop rest' (m :: MakePadField 1 :: before)
          (to_size_t (total + kAlignment_)) 0
      else Return (rev before ++ rest, 0)
    else if last_size =? 2 then
      _ ← assert (size =? 1);
      PadStructMembers_loop rest' (MakePadField 1 :: m :: before)
        (to_size_t (total + kAlignment_)) 0
    else Return (rev before ++ rest, 0)
  end.

(** [TypeParser::PadStructMembers] *)
Definition PadStructMembers (members : list VariableDeclaration)
    : outcome (list VariableDeclaration * Z) :=
  PadStructMembers_loop members [] 0 0.

(** [TypeParser::CalcUnionSize] *)
Definition CalcUnionSize (members : list VariableDeclaration) : outcome Z :=
  let size := fold_left (fun size m => Z.max size (var_size m)) members 0 in
  if negb (size mod kAlignment_ =? 0) then align_up_double size
  else Return size.

(** [TypeParser::StoreStructUnionDef]; the member list is an in-out
    argument, so the padded list is part of the result. *)
Definition StoreStructUnionDef (is_struct : bool) (type_name : string)
    (members : list VariableDeclaration) (p : TypeParser)
    : outcome (list VariableDeclaration * TypeParser) :=
  if is_struct then
    '(members', size) ← PadStructMembers members;
    let p1 := set_struct_defs (fun d => <[type_name := members']> d) p in
    Return (members', set_type_sizes (fun s => <[type_name := size]> s) p1)
  else
    size ← CalcUnionSize members;
    let p1 := set_union_defs (fun d => <[type_name := members]> d) p in
    Return (members, set_type_sizes (fun s => <[type_name := size]> s) p1).

Definition sum_var_size (members : list VariableDeclaration) : Z :=
  fold_right (fun m acc => var_size m + acc) 0 members.

(** ** Strings (the [std::string] operations the source uses) *)

Definition slen (s : string) : nat := String.length s.

(** [s.substr(pos)] and [s.substr(pos, n)], for [pos <= s.length()] *)
Definition substr_from (s : string) (pos : nat) : string :=
  String.substring pos (slen s - pos) s.

Definition substr (s : string) (pos n : nat) : string :=
  String.substring pos (Nat.min n (slen s - pos)) s.

(** [s.find(c, pos)] *)
Fixpoint find_char_aux (c : ascii) (s : string) (i : nat) : option nat :=
  match s with
  | EmptyString => None
  | String a s' => if Ascii.eqb a c then Some i else find_char_aux c s' (S i)
  end.

Definition find_char (c : ascii) (s : string) (pos : nat) : option nat :=
  find_char_aux c (substr_from s pos) pos.

(** [s.rfind(c, pos)]: the last occurrence at an index not above [pos] *)
Fixpoint rfind_char_aux (c : ascii) (s : string) (i : nat) (pos : nat)
    (found : option nat) : option nat :=
  match s with
  | EmptyString => found
  | String a s' =>
    if (pos <? i)%nat then found
    else rfind_char_aux c s' (S i) pos (if Ascii.eqb a c then Some i else found)
  end.

Definition rfind_char (c : ascii) (s : string) (pos : nat) : option nat :=
  rfind_char_aux c s 0 pos None.

Fixpoint mem_char (c : ascii) (set : string) : bool :=
  match set with
  | EmptyString => false
  | String a set' => Ascii.eqb a c || mem_char c set'
  end.

(** [s.find_first_of(set, pos)] *)
Fixpoint find_first_of_aux (set : string) (s : string) (i : nat) : option nat :=
  match s with
  | EmptyString => None
  | String a s' => if mem_char a set then Some i else find_first_of_aux set s' (S i)
  end.

Definition find_first_of (set : string) (s : string) (pos : nat) : option nat :=
  find_first_of_aux set (substr_from s pos) pos.

(** [s[i]]; reading [s[s.length()]] gives the null character *)
Definition char_at (s : string) (i : nat) : ascii :=
  match String.get i s with
  | Some c => c
  | None => Ascii.zero
  end.

(** [s.at(0)], which throws on the empty string *)
Definition at0 (s : string) : outcome ascii :=
  match s with
  | EmptyString => Throw
  | String c _ => Return c
  end.

(** the last character of a non-empty string, [s[s.length() - 1]] *)
Definition last_char (s : string) : ascii := char_at s (slen s - 1).

(** [isspace] in the C locale *)
Definition isspace (c : ascii) : bool :=
  let n := nat_of_ascii c in
  ((9 <=? n) && (n <=? 13) || (n =? 32))%nat.

Fixpoint ltrim (s : string) : string :=
  match s with
  | EmptyString => EmptyString
  | String c s' => if isspace c then ltrim s' else s
  end.

Fixpoint rtrim (s : string) : string :=
  match s with
  | EmptyString => EmptyString
  | String c s' =>
    match rtrim s' with
    | EmptyString => if isspace c then EmptyString else String c EmptyString
    | t => String c t
    end
  end.

Definition trim (s : string) : string := ltrim (rtrim s).

Definition is_empty (s : string) : bool :=
  match s with
  | EmptyString => true
  | _ => false
  end.

(** [v[i]] on a vector: undefined out of range *)
Definition vec_get {A : Type} (v : list A) (i : nat) : outcome A :=
  match nth_error v i with
  | Some a => Return a
  | None => Undefined
  end.

(** ** [strtol] *)

Definition digit_value (c : ascii) : option Z :=
  let n := Z.of_nat (nat_of_ascii c) in
  if (48 <=? n) && (n <=? 57) then Some (n - 48)
  else if (97 <=? n) && (n <=? 122) then Some (n - 97 + 10)
  else if (65 <=? n) && (n <=? 90) then Some (n - 65 + 10)
  else None.

(** the digits of the subject sequence, accumulated without bound *)
Fixpoint strtol_digits (base : Z) (s : string) (acc : Z) : Z :=
  match s with
  | EmptyString => acc
  | String c s' =>
    match digit_value c with
    | Some d => if d <? base then strtol_digits base s' (acc * base + d) else acc
    | None => acc
    end
  end.

Definition is_hex_prefix (s : string) : bool :=
  match s with
  | String "0" (String x _) => Ascii.eqb x "x" || Ascii.eqb x "X"
  | _ => false
  end.

(** after white space and sign: the base and the digits to read *)
Definition strtol_magnitude (base : Z) (s : string) : Z :=
  if (base =? 0) || (base =? 16) then
    if is_hex_prefix s then strtol_digits 16 (substr_from s 2) 0
    else if base =? 16 then strtol_digits 16 s 0
    else match s with
         | String "0" _ => strtol_digits 8 s 0
         | _ => strtol_digits 10 s 0
         end
  else strtol_digits base s 0.

(** [strtol(s, NULL, base)] for base 0, 8, 10 or 16; the result is
    clamped to the range of [long] *)
Definition strtol (s : string) (base : Z) : Z :=
  let s := ltrim s in
  match s with
  | String "-" s' => Z.max LONG_MIN (- strtol_magnitude base s')
  | String "+" s' => Z.min LONG_MAX (strtol_magnitude base s')
  | _ => Z.min LONG_MAX (strtol_magnitude base s)
  end.

(** ** Tokens *)

(** [kTokenDelimiters]: blank, tab and the punctuation of C; the
    underscore is not one of them. *)
Definition kTokenDelimiters : string :=
  String " " (String (ascii_of_nat 9)
    ("#{[(<&|*>)]}?':" +:+ String kQuotation ",%!=/;+*$")).

(** [TypeParser::IsIgnorable] *)
Definition IsIgnorable (token : string) : bool :=
  if is_empty token then true else in_strings token qualifiers_.

(** [TypeParser::GetTokenType] *)
Definition GetTokenType (p : TypeParser) (token : string) : TokenTypes :=
  match keywords_ token with
  | Some t => t
  | None =>
    if in_strings token qualifiers_ then kQualifier
    else if in_strings token basic_types_ then kBasicDataType
    else if bool_decide (is_Some (struct_defs_ p !! token)) then kStructName
    else if bool_decide (is_Some (union_defs_ p !! token)) then kUnionName
    else if bool_decide (is_Some (enum_defs_ p !! token)) then kEnumName
    else kUnresolvedToken
  end.

(** [TypeParser::IsNumericToken]: the flag returned and [number] *)
Definition IsNumericToken (p : TypeParser) (token : string) : bool * Z :=
  if is_empty token then (false, 0)
  else
    let number := strtol token 0 in
    if number =? 0 then
      match const_defs_ p !! token with
      | Some n => (true, n)
      | None => (false, number)
      end
    else (true, number).

(** [TypeParser::GetTypeSize]; the stored [size_t] is returned as [int] *)
Definition GetTypeSize (p : TypeParser) (data_type : string) : Z :=
  match type_sizes_ p !! data_type with
  | Some n => to_int n
  | None =>
    if bool_decide (is_Some (enum_defs_ p !! data_type)) then sizeof_int
    else -1
  end.

(** the blanks and end-of-line marks that [GetNextToken] skips *)
Fixpoint skip_blanks_aux (s : string) (pos : nat) : nat :=
  match s with
  | EmptyString => pos
  | String c s' =>
    if isspace c || Ascii.eqb EOL c then skip_blanks_aux s' (S pos) else pos
  end.

Definition skip_blanks (src : string) (pos : nat) : nat :=
  skip_blanks_aux (substr_from src pos) pos.

(** the token that starts at [start], after the blanks, and the position
    after it: up to the next delimiter, or the delimiter itself *)
Definition read_token (src : string) (start : nat) : nat * string :=
  match find_first_of kTokenDelimiters src start with
  | None => (slen src, substr_from src start)
  | Some ptk =>
    if (start =? ptk)%nat then (S ptk, String (char_at src ptk) "")
    else (ptk, substr src start (ptk - start))
  end.

(** The body of [GetNextToken(src, pos, token)] once [src] has been cut
    for [cross_line = false]: the flag returned, [pos] and [token].
    The loop [while (!token.empty() && IsIgnorable(token)) GetNextToken(...)]
    runs its body at most once, since the inner call only returns with a
    token that is empty or not ignorable; every inner call starts at
    least one character further, so [slen src] levels are enough
    ([GetNextToken_from_fuel]). *)
Fixpoint GetNextToken_from (fuel : nat) (src : string) (pos : nat)
    : bool * nat * string :=
  let start := skip_blanks src pos in
  if (slen src <=? start)%nat then (false, start, "")
  else
    let '(pos', token) := read_token src start in
    if negb (is_empty token) && IsIgnorable token then
      match fuel with
      | O => (false, pos', "")
      | S fuel' => GetNextToken_from fuel' src pos'
      end
    else (negb (is_empty token), pos', token).

(** [TypeParser::GetNextToken(src, pos, token, cross_line)] *)
Definition GetNextToken (src : string) (pos : nat) (cross_line : bool)
    : bool * nat * string :=
  let src :=
    if cross_line then src
    else match find_char EOL src pos with
         | Some p => substr src 0 p
         | None => src
         end in
  GetNextToken_from (slen src) src pos.

(** [TypeParser::SplitLineIntoTokens] *)
Fixpoint SplitLineIntoTokens_loop (fuel : nat) (line : string) (start : nat)
    (tokens : list string) : list string :=
  match fuel with
  | O => tokens
  | S fuel' =>
    let '(ok, start', token) := GetNextToken line start true in
    if ok then SplitLineIntoTokens_loop fuel' line start' (tokens ++ [token])
    else tokens
  end.

Definition SplitLineIntoTokens (line : string) : list string :=
  SplitLineIntoTokens_loop (S (slen line)) line 0 [].

(** [TypeParser::GetRestLine]: the flag, [pos] and [line] *)
Definition GetRestLine (src : string) (pos : nat) : bool * nat * string :=
  if Ascii.eqb EOL (char_at src pos) then (false, pos, "")
  else
    match find_char EOL src pos with
    | Some p => (true, p, substr src pos (p - pos))
    | None => (true, slen src, substr_from src pos)
    end.

(** [TypeParser::GetNextLine]; the second assertion trims [line] in place *)
Definition GetNextLine (src : string) (pos : nat) : outcome (bool * nat * string) :=
  match find_char EOL src pos with
  | None => Return (false, slen src, "")
  | Some start =>
    let start := S start in
    '(pos', line) ←
      match find_char EOL src start with
      | None => Return (slen src, substr_from src start)
      | Some e =>
        _ ← assert (negb (e =? start)%nat);
        Return (e, substr src start (e - start))
      end;
    let line := trim line in
    _ ← assert (negb (is_empty line));
    Return (true, pos', line)
  end.

(** [s.substr(pos, n)] where the count [n] was computed in [size_t]: a
    negative difference wraps to a count beyond the end of the string *)
Definition substr_count (s : string) (pos : nat) (n : Z) : string :=
  if n <? 0 then substr_from s pos else substr s pos (Z.to_nat n).

(** [TypeParser::SkipCurrentLine]: [pos] and [line]; [rfind] not finding
    the mark gives [npos], and [npos + 1] is 0 *)
Definition SkipCurrentLine (src : string) (pos : nat) : nat * string :=
  if (slen src <=? pos)%nat then (pos, "")
  else
    let after (start : option nat) : nat :=
      match start with Some i => S i | None => O end in
    let start := rfind_char EOL src pos in
    match find_char EOL src pos with
    | None => (slen src, substr_from src (after start))
    | Some e =>
      if (e =? pos)%nat then
        let start :=
          match pos with
          | O => rfind_char EOL src (slen src)
          | S pos' => rfind_char EOL src pos'
          end in
        (S pos, substr_count src (after start) (Z.of_nat e - Z.of_nat (after start)))
      else
        (S e, substr_count src (after start) (Z.of_nat e - Z.of_nat (after start)))
    end.

(** ** Declarations *)

Definition set_data_type (x : string) (d : VariableDeclaration) : VariableDeclaration :=
  mkVar x (var_name d) (array_size d) (is_pointer d) (var_size d).
Definition set_var_name (x : string) (d : VariableDeclaration) : VariableDeclaration :=
  mkVar (data_type d) x (array_size d) (is_pointer d) (var_size d).
Definition set_array_size (x : Z) (d : VariableDeclaration) : VariableDeclaration :=
  mkVar (data_type d) (var_name d) x (is_pointer d) (var_size d).
Definition set_is_pointer (x : bool) (d : VariableDeclaration) : VariableDeclaration :=
  mkVar (data_type d) (var_name d) (array_size d) x (var_size d).
Definition set_var_size (x : Z) (d : VariableDeclaration) : VariableDeclaration :=
  mkVar (data_type d) (var_name d) (array_size d) (is_pointer d) x.

(** [TypeParser::ParseDeclaration]: the flag returned and [decl] as the
    call leaves it. *)
Definition ParseDeclaration (p : TypeParser) (line : string)
    (decl : VariableDeclaration) : outcome (bool * VariableDeclaration) :=
  _ ← assert (negb (is_empty line));
  if negb (Ascii.eqb (last_char line) kSemicolon) then Return (false, decl)
  else
    let tokens := SplitLineIntoTokens line in
    _ ← assert (3 <=? length tokens)%nat;
    t0 ← vec_get tokens 0;
    let decl := set_is_pointer false (set_data_type t0 decl) in
    let length := to_size_t (GetTypeSize p (data_type decl)) in
    if length =? 0 then Return (false, decl)
    else
      t1 ← vec_get tokens 1;
      c1 ← at0 t1;
      '(decl, length, index) ←
        (if Ascii.eqb c1 kAsterisk then
           t2 ← vec_get tokens 2;
           Return (set_var_name t2 (set_is_pointer true decl), kWordSize_, 2%nat)
         else Return (set_var_name t1 decl, length, 1%nat));
      t ← vec_get tokens (S index);
      c ← at0 t;
      if Ascii.eqb c "[" then
        tn ← vec_get tokens (S (S index));
        let '(ok, number) := IsNumericToken p tn in
        if ok then
          Return (true, set_var_size (to_size_t (length * number))
                          (set_array_size (to_size_t number) decl))
        else Return (false, decl)
      else Return (true, set_var_size length (set_array_size 0 decl)).

(** [++last_value] on an [int]: overflow is undefined *)
Definition incr_int (n : Z) : outcome Z :=
  if n <? INT_MAX then Return (n + 1) else Undefined.

(** [TypeParser::ParseEnumDeclaration]: the flag returned, [last_value],
    [decl] and [is_last_member] as the call leaves them. *)
Definition ParseEnumDeclaration (p : TypeParser) (line : string)
    (last_value : Z) (decl : string * Z)
    : outcome (bool * Z * (string * Z) * bool) :=
  let tokens := SplitLineIntoTokens line in
  let finish (last_value : Z) (is_last_member : bool)
      : outcome (bool * Z * (string * Z) * bool) :=
    t0 ← vec_get tokens 0;
    Return (true, last_value, (t0, last_value), is_last_member) in
  let explicit (is_last_member : bool) : outcome (bool * Z * (string * Z) * bool) :=
    t2 ← vec_get tokens 2;
    let '(ok, number) := IsNumericToken p t2 in
    if ok then finish (to_int number) is_last_member
    else Return (false, last_value, decl, false) in
  match length tokens with
  | 1%nat =>
    v ← incr_int last_value;
    finish v true
  | 2%nat =>
    t1 ← vec_get tokens 1;
    c1 ← at0 t1;
    _ ← assert (Ascii.eqb kComma c1);
    v ← incr_int last_value;
    finish v false
  | 3%nat =>
    t1 ← vec_get tokens 1;
    c1 ← at0 t1;
    _ ← assert (Ascii.eqb kEqual c1);
    explicit true
  | 4%nat =>
    t1 ← vec_get tokens 1;
    c1 ← at0 t1;
    _ ← assert (Ascii.eqb kEqual c1);
    t3 ← vec_get tokens 3;
    c3 ← at0 t3;
    _ ← assert (Ascii.eqb kComma c3);
    explicit false
  | _ => Return (false, last_value, decl, false)
  end.

(** [m.insert(make_pair(k, v))]: an existing entry is kept *)
Definition map_insert_new {V : Type} (k : string) (v : V) (m : gmap string V)
    : gmap string V :=
  match m !! k with
  | Some _ => m
  | None => <[k := v]> m
  end.

(** [TypeParser::ParseAssignExpression] *)
Definition ParseAssignExpression (p : TypeParser) (line : string)
    : outcome (bool * TypeParser) :=
  let tokens := SplitLineIntoTokens line in
  if (length tokens =? 4)%nat then
    t0 ← vec_get tokens 0;
    t1 ← vec_get tokens 1;
    t2 ← vec_get tokens 2;
    t3 ← vec_get tokens 3;
    if Ascii.eqb kEqual (last_char t1) && Ascii.eqb kSemicolon (last_char t3) then
      let '(ok, number) := IsNumericToken p t2 in
      if ok then Return (true, set_const_defs (map_insert_new t0 number) p)
      else Return (false, p)
    else Return (false, p)
  else Return (false, p).

(** ** DataReader *)

(** The reader: its copy of the parser, the buffer ([data_size_] is its
    length), the read position [data_ptr_] as an offset from the start of
    the buffer, and the output stream. *)
Record DataReader : Type := mkReader {
  type_parser_ : TypeParser;
  data_buffer_ : string;
  data_ptr_ : Z;
  out_stream_ : string
}.

Definition data_size_ (r : DataReader) : Z := Z.of_nat (slen (data_buffer_ r)).

Definition set_type_parser (f : TypeParser -> TypeParser) (r : DataReader) : DataReader :=
  mkReader (f (type_parser_ r)) (data_buffer_ r) (data_ptr_ r) (out_stream_ r).
Definition set_data_ptr (x : Z) (r : DataReader) : DataReader :=
  mkReader (type_parser_ r) (data_buffer_ r) x (out_stream_ r).
(** [out_stream_ << s] *)
Definition put (s : string) (r : DataReader) : DataReader :=
  mkReader (type_parser_ r) (data_buffer_ r) (data_ptr_ r) (out_stream_ r +:+ s).

(** the reader that [DataReader(parser, data_file)] builds from the
    content of the file *)
Definition make_reader (parser : TypeParser) (data : string) : DataReader :=
  mkReader parser data 0 "".

Definition TAB_WIDTH : Z := 4.
Definition endl : string := String (ascii_of_nat 10) "".

(** [n] copies of the fill character *)
Definition spaces (n : Z) : string := string_of_list_ascii (repeat " "%char (Z.to_nat n)).

(** [<< setw(w) << s]: padded on the left with blanks to the width [w] *)
Definition setw (w : Z) (s : string) : string :=
  spaces (w - Z.of_nat (slen s)) +:+ s.

(** [FORMAT_OUTPUT(indent_depth)]: one blank in a field of
    [TAB_WIDTH * indent_depth] columns *)
Definition FORMAT_OUTPUT (indent_depth : Z) (r : DataReader) : DataReader :=
  put (setw (TAB_WIDTH * indent_depth) " ") r.

(** decimal rendering of an integer *)
Definition dec (z : Z) : string := NilZero.string_of_int (Z.to_int z).

Definition hex_digit (n : nat) : ascii :=
  if (n <? 10)%nat then ascii_of_nat (48 + n) else ascii_of_nat (87 + n).

(** the two lower-case hexadecimal digits of a byte *)
Definition hex_byte (c : ascii) : string :=
  let n := nat_of_ascii c in
  String (hex_digit (n / 16)) (String (hex_digit (n mod 16)) "").

(** the bytes from the last to the first, two digits each *)
Fixpoint tohex_digits (data : string) : string :=
  match data with
  | EmptyString => ""
  | String c data' => tohex_digits data' +:+ hex_byte c
  end.

(** [tohex(data)] with its default arguments (utility.h); on empty data
    the function builds a [std::string] from the null pointer *)
Definition tohex (data : string) : outcome string :=
  if is_empty data then Undefined else Return ("0x" +:+ tohex_digits data).

(** [string(data_ptr_, len)]: [len] bytes at the read position; the
    [int] length is converted to [size_t], and the bytes have to lie in
    the buffer *)
Definition read_data (r : DataReader) (len : Z) : outcome string :=
  if len <? 0 then Throw
  else if (0 <=? data_ptr_ r) && (data_ptr_ r + len <=? data_size_ r) then
    Return (substr (data_buffer_ r) (Z.to_nat (data_ptr_ r)) (Z.to_nat len))
  else Undefined.

(** conversion of an [int] to [char] *)
Definition char_of_int (z : Z) : ascii := ascii_of_nat (Z.to_nat (z mod 256)).

(** the label that [PrintVarValue] finds for [int_value] *)
Fixpoint enum_label (enums : list (string * Z)) (int_value : Z) : string :=
  match enums with
  | [] => "Unknown"
  | (name, value) :: enums' =>
    if int_value =? value then name else enum_label enums' int_value
  end.

(** [int - int] and [int + int]: overflow is undefined *)
Definition int_arith (z : Z) : outcome Z :=
  if (INT_MIN <=? z) && (z <=? INT_MAX) then Return z else Undefined.

(** [DataReader::PrintVarValue] *)
Definition PrintVarValue (var_decl : VariableDeclaration) (indent : Z)
    (is_union : bool) (r : DataReader) : outcome DataReader :=
  let len :=
    if String.eqb (data_type var_decl) "char" then 1
    else to_int (var_size var_decl) in
  data ← read_data r len;
  hex_value ← tohex data;
  let int_value := to_int (strtol hex_value 16) in
  let r := put (setw 3 (dec int_value) +:+ ", " +:+ hex_value) r in
  r ←
    (if negb is_union
        && bool_decide (is_Some (enum_defs_ (type_parser_ r) !! data_type var_decl))
     then
       let enums := default [] (enum_defs_ (type_parser_ r) !! data_type var_decl) in
       Return (put (", " +:+ enum_label enums int_value) r)
     else if String.eqb "char" (data_type var_decl) && negb (int_value =? 0) then
       d ← int_arith (int_value - 65);
       c ← int_arith (65 + d);
       Return (put (", '" +:+ String (char_of_int c) "'") r)
     else Return r);
  let r := put endl r in
  if negb is_union then Return (set_data_ptr (data_ptr_ r + len) r)
  else Return r.

(** [DataReader::PrintVarData]; [prepare] is [PrepareTypeData] *)
Definition PrintVarData
    (prepare : string -> Z -> bool -> DataReader -> outcome DataReader)
    (var_decl : VariableDeclaration) (indent : Z) (is_union : bool)
    (r : DataReader) : outcome DataReader :=
  match GetTokenType (type_parser_ r) (data_type var_decl) with
  | kBasicDataType => PrintVarValue var_decl indent is_union r
  | kStructName => prepare (data_type var_decl) indent false r
  | kUnionName => prepare (data_type var_decl) indent true r
  | kEnumName => PrintVarValue var_decl indent false r
  | _ => Return r
  end.

(** the [for] loop of [PrintMemberData] over the elements of an array:
    [count] iterations are left, [i] is the index printed *)
Fixpoint PrintArrayElements
    (prepare : string -> Z -> bool -> DataReader -> outcome DataReader)
    (var_decl : VariableDeclaration) (indent : Z) (count : nat) (i : Z)
    (r : DataReader) : outcome DataReader :=
  match count with
  | O => Return r
  | S count' =>
    let r := put ("[" +:+ dec i +:+ "] = ") (FORMAT_OUTPUT indent r) in
    r ← PrintVarData prepare var_decl indent false r;
    PrintArrayElements prepare var_decl indent count' (i + 1) r
  end.

(** the [while] loop of [DataReader::PrintMemberData]; [union_addr] is the
    read position on entry *)
Fixpoint PrintMemberData_loop
    (prepare : string -> Z -> bool -> DataReader -> outcome DataReader)
    (members : list VariableDeclaration) (indent : Z) (is_union : bool)
    (union_addr : Z) (r : DataReader) : outcome DataReader :=
  match members with
  | [] => Return r
  | var_decl :: members' =>
    r ←
      (if negb is_union && String.eqb (var_name var_decl) kPaddingFieldName then
         Return (set_data_ptr (data_ptr_ r + var_size var_decl) r)
       else
         let r := if is_union then set_data_ptr union_addr r else r in
         if negb (array_size var_decl =? 0) then
           let r := put (var_name var_decl +:+ " = [" +:+ endl) (FORMAT_OUTPUT indent r) in
           let indent := indent + 1 in
           r ← PrintArrayElements prepare var_decl indent
                 (Z.to_nat (array_size var_decl)) 0 r;
           Return (put ("]" +:+ endl) (FORMAT_OUTPUT indent r))
         else
           let r := put (var_name var_decl +:+ " = ") (FORMAT_OUTPUT indent r) in
           PrintVarData prepare var_decl indent is_union r);
    PrintMemberData_loop prepare members' indent is_union union_addr r
  end.

(** [DataReader::PrintMemberData] *)
Definition PrintMemberData
    (prepare : string -> Z -> bool -> DataReader -> outcome DataReader)
    (members : list VariableDeclaration) (indent : Z) (is_union : bool)
    (r : DataReader) : outcome DataReader :=
  PrintMemberData_loop prepare members indent is_union (data_ptr_ r) r.

(** [sizeof(type_parser_.kAnonymousTypePrefix)], the size of a
    [std::string] object *)
Definition sizeof_string : nat := 32.

(** [DataReader::PrepareTypeData]; [fuel] bounds the nesting of types *)
Fixpoint PrepareTypeData (fuel : nat) (type_name : string) (indent : Z)
    (is_union : bool) (r : DataReader) : outcome DataReader :=
  match fuel with
  | O => OutOfFuel
  | S fuel' =>
    let tp := type_parser_ r in
    let found :=
      if is_union && bool_decide (is_Some (union_defs_ tp !! type_name)) then
        union_defs_ tp !! type_name
      else struct_defs_ tp !! type_name in
    match found with
    | None => Return r
    | Some members =>
      (* [type_sizes_[type_name]] creates the entry when there is none *)
      let r :=
        if indent =? 0 then
          set_type_parser (set_type_sizes (map_insert_new type_name 0)) r
        else r in
      let kind := if is_union then "union " else "struct " in
      let r :=
        if String.eqb (substr type_name 0 sizeof_string) kAnonymousTypePrefix
        then put (kind +:+ "{" +:+ endl) r
        else put (kind +:+ type_name +:+ " {" +:+ endl) r in
      r ← PrintMemberData (PrepareTypeData fuel') members (indent + 1) is_union r;
      Return (put ("}" +:+ endl) (FORMAT_OUTPUT indent r))
    end
  end.

(** ** Preprocessing of a header *)

(** a position in a string, or [string::npos] *)
Definition npos : option nat := None.

(** [s.find(needle, pos)] for a string needle *)
Definition find_str (needle : string) (s : string) (pos : nat) : option nat :=
  String.index pos needle s.

(** [s.erase(pos)] and [s.erase(pos, n)] *)
Definition erase_from (s : string) (pos : nat) : string := substr s 0 pos.
Definition erase (s : string) (pos n : nat) : string :=
  substr s 0 pos +:+ substr_from s (Nat.min (slen s) (pos + n)).

(** the [do ... while] of [StripComments] that removes the comment blocks
    of one line from [pos] on: the line, [pos] and [is_block] *)
Fixpoint strip_blocks (fuel : nat) (line : string) (pos : nat)
    : string * option nat * bool :=
  match find_str "*/" line (pos + 2) with
  | Some found =>
    let line := erase line pos (found - pos + 2) in
    match find_str "/*" line pos with
    | Some pos' =>
      match fuel with
      | O => (line, Some pos', false)
      | S fuel' => strip_blocks fuel' line pos'
      end
    | None => (line, npos, false)
    end
  | None => (erase_from line pos, Some pos, true)
  end.

(** the search for comment starts in one line: the line, [is_changed]
    and [is_block] when the search ends *)
Fixpoint strip_line (fuel : nat) (line : string) (pos : option nat)
    (is_changed is_block : bool) : string * bool * bool :=
  match fuel with
  | O => (line, is_changed, is_block)
  | S fuel' =>
    match pos with
    | None => (line, is_changed, is_block)
    | Some pos =>
      match find_char kSlash line pos with
      | None => (line, is_changed, is_block)
      | Some pos =>
        if (slen line <=? pos + 1)%nat then (line, is_changed, is_block)
        else
          let c := char_at line (pos + 1) in
          if Ascii.eqb c kSlash then
            strip_line fuel' (erase_from line pos) (Some pos) true is_block
          else if Ascii.eqb c kAsterisk then
            let '(line, pos, is_block) := strip_blocks (slen line) line pos in
            strip_line fuel' line pos true is_block
          else strip_line fuel' line (Some (S pos)) is_changed is_block
      end
    end
  end.

(** the lines up to and including the first one that holds the end of a
    comment block: what is left of that line, and the lines after it *)
Fixpoint close_block (lines : list string) : option (string * list string) :=
  match lines with
  | [] => None
  | line :: lines' =>
    match find_str "*/" line 0 with
    | Some pos => Some (erase line 0 (pos + 2), lines')
    | None => close_block lines'
    end
  end.

(** the loop of [TypeParser::StripComments]; [done] holds the lines
    before the iterator, most recent first *)
Fixpoint StripComments_loop (fuel : nat) (done rest : list string) : list string :=
  match fuel, rest with
  | O, _ => rev done ++ rest
  | _, [] => rev done
  | S fuel', l :: rest' =>
    let '(line, is_changed, is_block) := strip_line (S (S (slen l))) l (Some O) false false in
    if negb is_changed then StripComments_loop fuel' (l :: done) rest'
    else
      let done := if negb (is_empty line) then line :: done else done in
      if is_block then
        match close_block rest' with
        | Some (line, after) =>
          StripComments_loop fuel' done
            (if negb (is_empty line) then line :: after else after)
        | None => rev done ++ rest'
        end
      else StripComments_loop fuel' done rest'
  end.

Definition StripComments (lines : list string) : list string :=
  StripComments_loop (length lines) [] lines.

(** the inner loop of [WrapLines]: the merged line and the lines after
    it, or [None] when the last line ends with a backslash *)
Fixpoint wrap_line (line : string) (rest : list string)
    : outcome (option (string * list string)) :=
  if is_empty line then Undefined
  else if Ascii.eqb "\" (last_char line) then
    match rest with
    | [] => Return None
    | next :: rest' =>
      wrap_line (rtrim (substr line 0 (slen line - 1)) +:+ next) rest'
    end
  else Return (Some (line, rest)).

(** the loop of [TypeParser::WrapLines] *)
Fixpoint WrapLines_loop (fuel : nat) (done rest : list string)
    : outcome (list string) :=
  match fuel, rest with
  | O, _ => Return (rev done ++ rest)
  | _, [] => Return (rev done)
  | S fuel', line :: rest' =>
    _ ← assert (negb (is_empty line));
    merged ← wrap_line line rest';
    match merged with
    | None => Return (rev done ++ rest)
    | Some (line, rest'') => WrapLines_loop fuel' (line :: done) rest''
    end
  end.

Definition WrapLines (lines : list string) : outcome (list string) :=
  WrapLines_loop (length lines) [] lines.

(** the splitting loop of [MergeAllLines] on one line: the text added to
    [src] *)
Fixpoint split_statements (fuel : nat) (line : string) : string :=
  match fuel with
  | O => line +:+ String EOL ""
  | S fuel' =>
    match find_first_of ",;" line 0 with
    | None => line +:+ String EOL ""
    | Some pos =>
      if (pos =? slen line - 1)%nat then line +:+ String EOL ""
      else
        trim (substr line 0 (S pos)) +:+ String EOL ""
          +:+ split_statements fuel' (substr_from line (S pos))
    end
  end.

(** [TypeParser::MergeAllLines] *)
Fixpoint MergeAllLines (lines : list string) : outcome string :=
  match lines with
  | [] => Return ""
  | line :: lines' =>
    _ ← assert (negb (is_empty line));
    c ← at0 line;
    let part :=
      if Ascii.eqb "#" c then line +:+ String EOL ""
      else split_statements (slen line) line in
    src ← MergeAllLines lines';
    Return (part +:+ src)
  end.

(** the lines that the [getline] loop of [Preprocess] keeps: each line of
    the file trimmed, the empty ones dropped *)
Fixpoint read_lines (content : string) (line : string) : list string :=
  match content with
  | EmptyString => if is_empty (trim line) then [] else [trim line]
  | String c content' =>
    if Ascii.eqb c (ascii_of_nat 10) then
      (if is_empty (trim line) then [] else [trim line]) ++ read_lines content' ""
    else read_lines content' (line +:+ String c "")
  end.

(** [TypeParser::Preprocess] on the content of the file *)
Definition Preprocess (content : string) : outcome string :=
  let lines := read_lines content "" in
  lines ← WrapLines (StripComments lines);
  MergeAllLines lines.

(** ** The parser *)

(** What the parser reads from outside: the files that can be opened,
    with their content, and the string that the [n]-th call of [rands()]
    returns. *)
Record World : Type := mkWorld {
  files : gmap string string;
  rands : nat -> string
}.

(** The parser together with the number of calls of [rands()] made. *)
Record State : Type := mkState {
  parser : TypeParser;
  rand_calls : nat
}.

Definition set_parser (f : TypeParser -> TypeParser) (st : State) : State :=
  mkState (f (parser st)) (rand_calls st).

(** what a parsing method leaves: the flag returned, [pos], the
    declaration, [is_decl] and the state *)
Definition parsed : Type := bool * nat * VariableDeclaration * bool * State.

(** [if (!GetRestLine(src, pos, line)) assert(GetNextLine(src, pos, line));] *)
Definition rest_or_next_line (src : string) (pos : nat) : outcome (nat * string) :=
  let '(ok, pos', line) := GetRestLine src pos in
  if ok then Return (pos', line)
  else
    '(ok, pos', line) ← GetNextLine src pos;
    _ ← assert ok;
    Return (pos', line).

(** the loop [do type_name = kAnonymousTypePrefix + rands(); while (found)] *)
Fixpoint anonymous_name {V : Type} (fuel : nat) (w : World) (defs : gmap string V)
    (calls : nat) : outcome (string * nat) :=
  match fuel with
  | O => OutOfFuel
  | S fuel' =>
    let type_name := kAnonymousTypePrefix +:+ rands w calls in
    if bool_decide (is_Some (defs !! type_name)) then
      anonymous_name fuel' w defs (S calls)
    else Return (type_name, S calls)
  end.

(** [enum_defs_[name] = members; type_sizes_[name] = sizeof(int);] *)
Definition store_enum (name : string) (members : list (string * Z))
    (p : TypeParser) : TypeParser :=
  set_type_sizes (fun s => <[name := sizeof_int]> s)
    (set_enum_defs (fun d => <[name := members]> d) p).

(** the part of [ParseEnum] after the closing brace *)
Definition ParseEnum_tail (fuel : nat) (w : World) (is_typedef : bool)
    (src : string) (pos : nat) (var_decl : VariableDeclaration)
    (type_name : string) (members : list (string * Z)) (st : State)
    : outcome parsed :=
  let '(ok, pos, token) := GetNextToken src pos true in
  _ ← assert ok;
  if is_typedef then
    let '(ok, pos, next_token) := GetNextToken src pos true in
    _ ← assert ok;
    c ← at0 next_token;
    _ ← assert (Ascii.eqb kSemicolon c);
    let st := set_parser (store_enum token members) st in
    let st :=
      if negb (is_empty type_name) && negb (String.eqb token type_name) then
        set_parser (store_enum type_name members) st
      else st in
    Return (true, pos, var_decl, false, st)
  else
    c ← at0 token;
    if Ascii.eqb kSemicolon c then
      _ ← assert (negb (is_empty type_name));
      Return (true, pos, var_decl, false, set_parser (store_enum type_name members) st)
    else
      '(type_name, calls) ←
        (if is_empty type_name then
           anonymous_name fuel w (enum_defs_ (parser st)) (rand_calls st)
         else Return (type_name, rand_calls st));
      let st := mkState (store_enum type_name members (parser st)) calls in
      '(pos, line) ← rest_or_next_line src pos;
      let line := type_name +:+ " " +:+ token +:+ " " +:+ line in
      '(ok, var_decl) ← ParseDeclaration (parser st) line var_decl;
      Return (ok, pos, var_decl, true, st).

(** the [while] loop of [ParseEnum] *)
Fixpoint ParseEnum_loop (fuel : nat) (w : World) (is_typedef : bool)
    (src : string) (pos : nat) (var_decl : VariableDeclaration) (is_decl : bool)
    (type_name : string) (members : list (string * Z)) (member : string * Z)
    (last_value : Z) (is_last_member : bool) (st : State) : outcome parsed :=
  match fuel with
  | O => OutOfFuel
  | S fuel' =>
    let '(ok, pos, token) := GetNextToken src pos true in
    if negb ok then Return (true, pos, var_decl, is_decl, st)
    else
      c ← at0 token;
      if Ascii.eqb kBlockEnd c then
        ParseEnum_tail fuel' w is_typedef src pos var_decl type_name members st
      else if is_last_member then Return (false, pos, var_decl, is_decl, st)
      else
        let '(_, pos, line) := GetRestLine src pos in
        let line := token +:+ " " +:+ line in
        '(ok, last_value, member, is_last_member) ←
          ParseEnumDeclaration (parser st) line last_value member;
        if negb ok then Return (false, pos, var_decl, is_decl, st)
        else
          ParseEnum_loop fuel' w is_typedef src pos var_decl is_decl type_name
            (members ++ [member]) member last_value is_last_member st
  end.

(** the opening of [ParseEnum] and of [ParseStructUnion] after the probe
    for a plain declaration has failed: the optional type name and the
    opening brace; gives [pos] and [type_name] *)
Definition block_header (src : string) (start : nat) : outcome (nat * string) :=
  let '(ok, pos, token) := GetNextToken src start true in
  _ ← assert ok;
  c ← at0 token;
  if negb (Ascii.eqb "{" c) then
    let type_name := token in
    let '(ok, pos, token) := GetNextToken src pos true in
    _ ← assert ok;
    c ← at0 token;
    _ ← assert (Ascii.eqb kBlockStart c);
    Return (pos, type_name)
  else Return (pos, "").

(** [TypeParser::ParseEnum] *)
Definition ParseEnum (fuel : nat) (w : World) (is_typedef : bool) (src : string)
    (pos : nat) (var_decl : VariableDeclaration) (is_decl : bool) (st : State)
    : outcome parsed :=
  _ ← assert (negb (is_empty src) && (pos <? slen src)%nat);
  let start := pos in
  '(pos, line) ← rest_or_next_line src pos;
  '(ok, var_decl) ← ParseDeclaration (parser st) line var_decl;
  if (ok : bool) then Return (true, pos, var_decl, true, st)
  else
    '(pos, type_name) ← block_header src start;
    ParseEnum_loop fuel w is_typedef src pos var_decl is_decl type_name
      [] ("", 0) (-1) false st.

(** [StoreStructUnionDef] on the parser of a state *)
Definition store_aggregate (is_struct : bool) (type_name : string)
    (members : list VariableDeclaration) (st : State)
    : outcome (list VariableDeclaration * State) :=
  '(members, p) ← StoreStructUnionDef is_struct type_name members (parser st);
  Return (members, mkState p (rand_calls st)).

(** the part of [ParseStructUnion] after the closing brace *)
Definition ParseStructUnion_tail (fuel : nat) (w : World) (is_struct is_typedef : bool)
    (src : string) (pos : nat) (var_decl : VariableDeclaration)
    (type_name : string) (members : list VariableDeclaration) (st : State)
    : outcome parsed :=
  let '(ok, pos, token) := GetNextToken src pos true in
  _ ← assert ok;
  if is_typedef then
    let '(ok, pos, next_token) := GetNextToken src pos true in
    _ ← assert ok;
    c ← at0 next_token;
    _ ← assert (Ascii.eqb kSemicolon c);
    let type_alias := token in
    '(members, st) ← store_aggregate is_struct type_alias members st;
    let st :=
      if negb (is_empty type_name) && negb (String.eqb type_alias type_name) then
        let p := parser st in
        let p :=
          if is_struct then set_struct_defs (fun d => <[type_name := members]> d) p
          else set_union_defs (fun d => <[type_name := members]> d) p in
        let size := default 0 (type_sizes_ p !! type_alias) in
        mkState (set_type_sizes (fun s => <[type_name := size]> s) p) (rand_calls st)
      else st in
    Return (true, pos, var_decl, false, st)
  else
    c ← at0 token;
    if Ascii.eqb kSemicolon c then
      _ ← assert (negb (is_empty type_name));
      '(members, st) ← store_aggregate is_struct type_name members st;
      Return (true, pos, var_decl, false, st)
    else
      '(type_name, calls) ←
        (if is_empty type_name then
           anonymous_name fuel w (struct_defs_ (parser st)) (rand_calls st)
         else Return (type_name, rand_calls st));
      '(members, st) ← store_aggregate is_struct type_name members
                          (mkState (parser st) calls);
      '(pos, line) ← rest_or_next_line src pos;
      let line := type_name +:+ " " +:+ token +:+ " " +:+ line in
      '(ok, var_decl) ← ParseDeclaration (parser st) line var_decl;
      Return (ok, pos, var_decl, true, st).

(** [TypeParser::ParseStructUnion]; [ParseStructUnion_loop] is its [while]
    loop, in which [member] and [is_decl] keep their values from one
    member to the next. *)
Fixpoint ParseStructUnion (fuel : nat) (w : World) (is_struct is_typedef : bool)
    (src : string) (pos : nat) (var_decl : VariableDeclaration) (is_decl : bool)
    (st : State) {struct fuel} : outcome parsed :=
  match fuel with
  | O => OutOfFuel
  | S fuel' =>
    _ ← assert (negb (is_empty src) && (pos <? slen src)%nat);
    let start := pos in
    '(pos, line) ← rest_or_next_line src pos;
    '(ok, var_decl) ← ParseDeclaration (parser st) line var_decl;
    if (ok : bool) then Return (true, pos, var_decl, true, st)
    else
      '(pos, type_name) ← block_header src start;
      ParseStructUnion_loop fuel' w is_struct is_typedef src pos var_decl is_decl
        type_name [] (mkVar "" "" 0 false 0) st
  end
with ParseStructUnion_loop (fuel : nat) (w : World) (is_struct is_typedef : bool)
    (src : string) (pos : nat) (var_decl : VariableDeclaration) (is_decl : bool)
    (type_name : string) (members : list VariableDeclaration)
    (member : VariableDeclaration) (st : State) {struct fuel} : outcome parsed :=
  match fuel with
  | O => OutOfFuel
  | S fuel' =>
    let '(ok, pos, token) := GetNextToken src pos true in
    if negb ok then Return (true, pos, var_decl, is_decl, st)
    else
      c ← at0 token;
      if Ascii.eqb "}" c then
        ParseStructUnion_tail fuel' w is_struct is_typedef src pos var_decl
          type_name members st
      else
        let type := GetTokenType (parser st) token in
        match type with
        | kStructKeyword | kUnionKeyword =>
          '(ok, pos, member, is_decl, st) ←
            ParseStructUnion fuel' w
              (match type with kStructKeyword => true | _ => false end)
              false src pos member is_decl st;
          if negb ok then Return (false, pos, var_decl, is_decl, st)
          else
            _ ← assert is_decl;
            ParseStructUnion_loop fuel' w is_struct is_typedef src pos var_decl
              is_decl type_name (members ++ [member]) member st
        | kEnumKeyword =>
          '(ok, pos, member, is_decl, st) ←
            ParseEnum fuel' w false src pos member is_decl st;
          if negb ok then Return (false, pos, var_decl, is_decl, st)
          else
            _ ← assert is_decl;
            ParseStructUnion_loop fuel' w is_struct is_typedef src pos var_decl
              is_decl type_name (members ++ [member]) member st
        | _ =>
          '(pos, line) ← rest_or_next_line src pos;
          let line := token +:+ " " +:+ line in
          '(ok, member) ← ParseDeclaration (parser st) line member;
          if negb ok then Return (false, pos, var_decl, is_decl, st)
          else
            ParseStructUnion_loop fuel' w is_struct is_typedef src pos var_decl
              is_decl type_name (members ++ [member]) member st
        end
  end.

(** [TypeParser::ParsePreProcDirective]; [parse_file] is [ParseFile].
    Gives [pos] and the state. *)
Definition ParsePreProcDirective (parse_file : string -> State -> outcome State)
    (src : string) (pos : nat) (st : State) : outcome (nat * State) :=
  let skip (pos : nat) : outcome (nat * State) :=
    Return (fst (SkipCurrentLine src pos), st) in
  let '(_, pos, token) := GetNextToken src pos true in
  if String.eqb token "include" then
    let '(ok, pos, token) := GetNextToken src pos false in
    _ ← assert ok;
    if Ascii.eqb kQuotation (last_char token) then
      let '(ok, pos, token) := GetNextToken src pos false in
      _ ← assert ok;
      st ← parse_file token st;
      Return (fst (SkipCurrentLine src pos), st)
    else skip pos
  else if String.eqb token "define" then
    let '(ok, pos, last_token) := GetNextToken src pos false in
    _ ← assert ok;
    let '(ok, pos, token) := GetNextToken src pos false in
    if ok then
      let '(numeric, number) := IsNumericToken (parser st) token in
      if numeric then
        Return (pos, set_parser (set_const_defs (map_insert_new last_token number)) st)
      else skip pos
    else skip pos
  else skip pos.

(** the [while] loop of [TypeParser::ParseSource] *)
Fixpoint ParseSource_loop (fuel : nat) (w : World)
    (parse_file : string -> State -> outcome State)
    (src : string) (pos : nat) (is_typedef : bool) (decl : VariableDeclaration)
    (is_decl : bool) (st : State) : outcome State :=
  match fuel with
  | O => OutOfFuel
  | S fuel' =>
    let '(ok, pos, token) := GetNextToken src pos true in
    if negb ok then Return st
    else if (slen token =? 1)%nat then
      let c := char_at token 0 in
      if Ascii.eqb c kPoundSign then
        '(pos, st) ← ParsePreProcDirective parse_file src pos st;
        ParseSource_loop fuel' w parse_file src pos is_typedef decl is_decl st
      else if Ascii.eqb c kBlockStart || Ascii.eqb c kBlockEnd
              || Ascii.eqb c kSemicolon then
        ParseSource_loop fuel' w parse_file src pos is_typedef decl is_decl st
      else
        ParseSource_loop fuel' w parse_file src (fst (SkipCurrentLine src pos))
          is_typedef decl is_decl st
    else
      let type := GetTokenType (parser st) token in
      match type with
      | kStructKeyword | kUnionKeyword =>
        '(ok, pos, decl, is_decl, st) ←
          ParseStructUnion fuel' w
            (match type with kStructKeyword => true | _ => false end)
            is_typedef src pos decl is_decl st;
        _ ← assert (ok && negb is_decl);
        ParseSource_loop fuel' w parse_file src pos false decl is_decl st
      | kEnumKeyword =>
        '(ok, pos, decl, is_decl, st) ←
          ParseEnum fuel' w is_typedef src pos decl is_decl st;
        if negb ok || is_decl then Return st
        else ParseSource_loop fuel' w parse_file src pos false decl is_decl st
      | kTypedefKeyword =>
        ParseSource_loop fuel' w parse_file src pos true decl is_decl st
      | kBasicDataType =>
        let '(ok, pos, line) := GetRestLine src pos in
        _ ← assert ok;
        '(_, p) ← ParseAssignExpression (parser st) line;
        ParseSource_loop fuel' w parse_file src pos is_typedef decl is_decl
          (mkState p (rand_calls st))
      | _ => ParseSource_loop fuel' w parse_file src pos is_typedef decl is_decl st
      end
  end.

(** [TypeParser::ParseSource] *)
Definition ParseSource (fuel : nat) (w : World)
    (parse_file : string -> State -> outcome State) (src : string) (st : State)
    : outcome State :=
  ParseSource_loop fuel w parse_file src 0 false (mkVar "" "" 0 false 0) false st.

(** [TypeParser::ParseFile]; the dump of the definitions that ends it only
    writes to the console. [depth] bounds the nesting of [ParseFile]
    through include directives, [fuel] the loops of the parse of each
    file. *)
Fixpoint ParseFile (depth fuel : nat) (w : World) (file : string) (st : State)
    : outcome State :=
  match depth with
  | O => OutOfDepth
  | S depth' =>
    if bool_decide (header_files_ (parser st) !! file = Some true) then Return st
    else
      match files w !! file with
      | None => Return st
      | Some content =>
        let st := set_parser (set_header_files (fun h => <[file := true]> h)) st in
        src ← Preprocess content;
        ParseSource fuel w (ParseFile depth' fuel w) src st
      end
  end.

(** ** Notions used in the statements *)

(** A member list in which every run of members narrower than the
    alignment unit closes by itself: the list is made of members whose
    size is a multiple of 4 and of the runs 1+3, 2+2, 3+1, 1+2, 2+1,
    1+1+2 and 1+1+1. No run is pending when a member of aligned size
    arrives, and none at the end of the list. *)
Inductive closed_runs : list VariableDeclaration -> Prop :=
| closed_nil : closed_runs []
| closed_aligned (m : VariableDeclaration) (l : list VariableDeclaration) :
    var_size m mod kAlignment_ = 0 -> closed_runs l -> closed_runs (m :: l)
| closed_pair (a b : VariableDeclaration) (l : list VariableDeclaration) :
    0 < var_size a -> 0 < var_size b -> var_size a + var_size b = kAlignment_ ->
    closed_runs l -> closed_runs (a :: b :: l)
| closed_1_2 (a b : VariableDeclaration) (l : list VariableDeclaration) :
    var_size a = 1 -> var_size b = 2 -> closed_runs l -> closed_runs (a :: b :: l)
| closed_2_1 (a b : VariableDeclaration) (l : list VariableDeclaration) :
    var_size a = 2 -> var_size b = 1 -> closed_runs l -> closed_runs (a :: b :: l)
| closed_1_1_2 (a b c : VariableDeclaration) (l : list VariableDeclaration) :
    var_size a = 1 -> var_size b = 1 -> var_size c = 2 ->
    closed_runs l -> closed_runs (a :: b :: c :: l)
| closed_1_1_1 (a b c : VariableDeclaration) (l : list VariableDeclaration) :
    var_size a = 1 -> var_size b = 1 -> var_size c = 1 ->
    closed_runs l -> closed_runs (a :: b :: c :: l).

(** the content of a buffer, given byte by byte *)
Definition bytes (l : list Z) : string :=
  string_of_list_ascii (map (fun z => ascii_of_nat (Z.to_nat z)) l).

(** the enum [Home] of the test header *)
Definition Home_labels : list (string * Z) :=
  [("Anhui", 1); ("Beijing", 9); ("Shanghai", 10); ("Zhejiang", 33)].

(** a reader over [data] whose parser knows the enum [Home] *)
Definition Home_reader (data : string) : DataReader :=
  make_reader (store_enum "Home" Home_labels Initialize) data.

(** a [PrepareTypeData] that is never called, for fields that are scalars *)
Definition no_prepare : string -> Z -> bool -> DataReader -> outcome DataReader :=
  fun _ _ _ r => Return r.

(** the content of a text file, given line by line *)
Definition text (lines : list string) : string :=
  fold_right (fun l acc => l +:+ endl +:+ acc) "" lines.

(** a world with the single file [header.h] *)
Definition one_header (content : string) : World :=
  mkWorld {[ "header.h" := content ]} (fun n => dec (Z.of_nat n)).

(** the parser after [ParseFile("header.h")] on a fresh [TypeParser], when
    the call returns *)
Definition parse_header (content : string) : outcome TypeParser :=
  parser <$> ParseFile 1 1000 (one_header content) "header.h" (mkState Initialize 0).

(** what [PrintTypeData(type_name, is_union)] leaves in the reader built
    from the parser of a header and the content of a dump: the read
    position and the report *)
Definition decode (content : string) (type_name : string) (is_union : bool)
    (data : string) : outcome (Z * string) :=
  p ← parse_header content;
  r ← PrepareTypeData 100 type_name 0 is_union (make_reader p data);
  Return (data_ptr_ r, out_stream_ r).

(** the first character of [s] is [c] *)
Definition starts_with (c : ascii) (s : string) : bool :=
  match s with
  | String a _ => Ascii.eqb a c
  | EmptyString => false
  end.

(** a letter or the underscore, as the first character of an identifier *)
Definition is_identifier_start (c : ascii) : bool :=
  let n := nat_of_ascii c in
  ((65 <=? n) && (n <=? 90) || (97 <=? n) && (n <=? 122) || (n =? 95))%nat.

(** the type name has a size in the type-size map or names an enum *)
Definition type_registered (p : TypeParser) (t : string) : Prop :=
  is_Some (type_sizes_ p !! t) \/ is_Some (enum_defs_ p !! t).

(** the files of the world that can be opened and are not marked as
    parsed in [header_files_] *)
Definition unmarked (w : World) (st : State) : gset string :=
  filter (fun f => header_files_ (parser st) !! f <> Some true) (dom (files w)).

(** every file marked as parsed in [st] is marked in [st'] *)
Definition marks_kept (st st' : State) : Prop :=
  forall f, header_files_ (parser st) !! f = Some true ->
            header_files_ (parser st') !! f = Some true.

(** the line [#include "file"] *)
Definition include_line (file : string) : string :=
  "#include " +:+ String kQuotation (file +:+ String kQuotation "").

(** two headers that include each other *)
Definition circular_headers : World :=
  mkWorld
    (<["a.h" := text [include_line "b.h"; "#define A 1"]]>
       (<["b.h" := text [include_line "a.h"; "#define B 2"]]> ∅))
    (fun n => dec (Z.of_nat n)).

(** two states with the same marks on the header files *)
Definition same_files (st st' : State) : Prop :=
  header_files_ (parser st) = header_files_ (parser st').

(** the state in which [ParseFile] parses the content of [file] *)
Definition mark_file (file : string) (st : State) : State :=
  set_parser (set_header_files (fun h => <[file := true]> h)) st.

(** * Notions for further properties of the code *)

(** ** The updates of the registry *)

(** The updates that the parser makes to its maps: the mark of a file
    ([ParseFile]), a constant ([ParsePreProcDirective],
    [ParseAssignExpression]), an enum ([ParseEnum]), a struct or union
    ([StoreStructUnionDef]) and the copy of a struct or union under its
    type name beside the alias ([ParseStructUnion], format 1). *)
Inductive registry_update : TypeParser -> TypeParser -> Prop :=
| update_mark (file : string) (p : TypeParser) :
    registry_update p (set_header_files (fun h => <[file := true]> h) p)
| update_const (name token : string) (number : Z) (p : TypeParser) :
    IsNumericToken p token = (true, number) ->
    registry_update p (set_const_defs (map_insert_new name number) p)
| update_enum (name : string) (members : list (string * Z)) (p : TypeParser) :
    registry_update p (store_enum name members p)
| update_aggregate (is_struct : bool) (name : string)
    (members members' : list VariableDeclaration) (p p' : TypeParser) :
    StoreStructUnionDef is_struct name members p = Return (members', p') ->
    registry_update p p'
| update_alias (is_struct : bool) (type_name type_alias : string)
    (members : list VariableDeclaration) (size : Z) (p : TypeParser) :
    is_Some ((if is_struct then struct_defs_ p else union_defs_ p) !! type_alias) ->
    type_sizes_ p !! type_alias = Some size ->
    registry_update p
      (set_type_sizes (fun s => <[type_name := size]> s)
         (if is_struct then set_struct_defs (fun d => <[type_name := members]> d) p
          else set_union_defs (fun d => <[type_name := members]> d) p)).

(** a sequence of updates *)
Definition registry_updates : TypeParser -> TypeParser -> Prop := rtc registry_update.

(** every struct, union and enum of the registry has an entry in the
    type-size map, and the size is a multiple of the alignment unit *)
Definition sized_types (p : TypeParser) : Prop :=
  forall name,
    is_Some (struct_defs_ p !! name) \/ is_Some (union_defs_ p !! name)
      \/ is_Some (enum_defs_ p !! name) ->
    exists size, type_sizes_ p !! name = Some size /\ size mod kAlignment_ = 0.

(** no constant of the registry has the value 0 *)
Definition constants_nonzero (p : TypeParser) : Prop :=
  forall name value, const_defs_ p !! name = Some value -> value <> 0.

(** the names that [p] defines are defined in [p'], and the constants
    keep their values *)
Definition definitions_kept (p p' : TypeParser) : Prop :=
  (forall name value, const_defs_ p !! name = Some value ->
                      const_defs_ p' !! name = Some value) /\
  (forall name, is_Some (struct_defs_ p !! name) -> is_Some (struct_defs_ p' !! name)) /\
  (forall name, is_Some (union_defs_ p !! name) -> is_Some (union_defs_ p' !! name)) /\
  (forall name, is_Some (enum_defs_ p !! name) -> is_Some (enum_defs_ p' !! name)) /\
  (forall name, is_Some (type_sizes_ p !! name) -> is_Some (type_sizes_ p' !! name)).


(** no line of the list is empty *)
Definition nonempty_lines (lines : list string) : Prop :=
  Forall (fun l => is_empty l = false) lines.

(** every character of [s] satisfies [f] *)
Definition all_chars (f : ascii -> bool) (s : string) : bool :=
  forallb f (list_ascii_of_string s).

(** a character of [kTokenDelimiters] *)
Definition is_delimiter (c : ascii) : bool := mem_char c kTokenDelimiters.

(** the unsigned value of a sequence of bytes, the first byte the least
    significant *)
Fixpoint le_value (data : string) : Z :=
  match data with
  | EmptyString => 0
  | String c data' => Z.of_nat (nat_of_ascii c) + 256 * le_value data'
  end.

(** the number of bytes that the decoder takes for a scalar member of a
    struct: the size of a padding field, one byte for the type [char],
    the size of the field as an [int] otherwise *)
Definition member_step (m : VariableDeclaration) : Z :=
  if String.eqb (var_name m) kPaddingFieldName then var_size m
  else if String.eqb (data_type m) "char" then 1
  else to_int (var_size m).

(** a padding field, or a member that is no array and whose type is a
    basic type or an enum *)
Definition scalar_member (p : TypeParser) (m : VariableDeclaration) : Prop :=
  var_name m = kPaddingFieldName \/
  (array_size m = 0 /\
   (GetTokenType p (data_type m) = kBasicDataType
    \/ GetTokenType p (data_type m) = kEnumName)).

(** the bytes that the decoder takes for a list of scalar members *)
Definition members_step (members : list VariableDeclaration) : Z :=
  fold_right (fun m acc => member_step m + acc) 0 members.

(** [DataReader::PrintTypeData]; the report goes to [cout] when the call
    ends *)
Definition PrintTypeData (fuel : nat) (type_name : string) (is_union : bool)
    (r : DataReader) : outcome DataReader :=
  PrepareTypeData fuel type_name 0 is_union r.

(** a struct with a [char], a padding byte, a [short] and an [int], and a
    reader over eight bytes whose parser knows it *)
Definition sample_members : list VariableDeclaration :=
  [mkVar "char" "a" 0 false 1; MakePadField 1; mkVar "short" "b" 0 false 2;
   mkVar "int" "c" 0 false 4].

Definition sample_reader : DataReader :=
  make_reader
    (set_struct_defs (fun d => <["S" := sample_members]> d) Initialize)
    (bytes [65; 0; 2; 1; 255; 255; 255; 255]).

(** [members'] is [members] with padding fields of 1 to 3 bytes put in *)
Inductive padded : list VariableDeclaration -> list VariableDeclaration -> Prop :=
| padded_nil : padded [] []
| padded_member (m : VariableDeclaration) (l l' : list VariableDeclaration) :
    padded l l' -> padded (m :: l) (m :: l')
| padded_pad (k : Z) (l l' : list VariableDeclaration) :
    1 <= k <= 3 -> padded l l' -> padded l (MakePadField k :: l').

(** * Properties *)

(** case analysis on a hypothesis that a sequence of calls returned *)
Ltac outcome_inv H :=
  repeat match type of H with
         | mbind _ ?c = _ =>
           let E := fresh "E" in
           destruct c eqn:E; cbn [mbind outcome_bind] in H; try discriminate H
         | (if ?b then _ else _) = _ => destruct b eqn:?
         | match ?x with _ => _ end = _ => destruct x eqn:?
         | Return _ = Return _ => injection H as ?; subst
         | _ => discriminate H
         end.


(** ** Arithmetic of the layout calculator *)

Lemma double_of_Z_exact (n : Z) : n < 2 ^ 53 -> double_of_Z n = n.
Proof.
  intros Hn. unfold double_of_Z.
  destruct (n <? 2 ^ 53) eqn:E; [reflexivity | apply Z.ltb_ge in E; lia].
Qed.

Lemma align_up_double_exact (n : Z) :
  0 <= n < 2 ^ 53 -> align_up_double n = Return ((n + 3) / 4 * 4).
Proof.
  intros Hn. unfold align_up_double, kAlignment_, SIZE_MAX.
  rewrite double_of_Z_exact by lia. change (4 - 1) with 3.
  destruct (Z.leb_spec ((n + 3) / 4 * 4) (2 ^ 64 - 1)) as [_ | E]; [reflexivity |].
  pose proof (Z.mul_div_le (n + 3) 4 ltac:(lia)). lia.
Qed.

Lemma align_up_double_multiple (n v : Z) :
  align_up_double n = Return v -> v mod kAlignment_ = 0.
Proof.
  unfold align_up_double. intros H.
  destruct (_ <=? SIZE_MAX); [| discriminate].
  injection H as <-. apply Z.mod_mul. unfold kAlignment_. lia.
Qed.

Lemma to_size_t_multiple (z : Z) :
  z mod kAlignment_ = 0 -> to_size_t z mod kAlignment_ = 0.
Proof.
  unfold to_size_t, kAlignment_. intros H.
  rewrite Z.mod_mod_divide; [exact H |].
  exists (2 ^ 62). reflexivity.
Qed.

(** the running maximum of [CalcUnionSize] *)
Lemma fold_max_var_size (members : list VariableDeclaration) (a : Z) :
  let s := fold_left (fun size m => Z.max size (var_size m)) members a in
  a <= s /\
  (forall m, m ∈ members -> var_size m <= s) /\
  (s = a \/ exists m, m ∈ members /\ s = var_size m).
Proof.
  revert a. induction members as [| x members IH]; intros a; simpl.
  - split; [lia |]. split; [| by left].
    intros m Hm. by apply elem_of_nil in Hm.
  - destruct (IH (Z.max a (var_size x))) as (Hle & Hall & Hex).
    split; [lia |]. split.
    + intros m Hm. apply elem_of_cons in Hm as [-> | Hm]; [lia | by apply Hall].
    + destruct Hex as [Heq | (m & Hm & Heq)].
      * destruct (Z.max_spec a (var_size x)) as [[_ Hmax] | [_ Hmax]].
        -- right. exists x. split; [apply elem_of_cons; by left | lia].
        -- left. lia.
      * right. exists m. split; [apply elem_of_cons; by right | done].
Qed.
(** ** The tokenizer: the fuel of the model is enough *)

Lemma substring_length (s : string) :
  forall n m, (n + m <= slen s)%nat -> slen (String.substring n m s) = m.
Proof.
  unfold slen. induction s as [| c s IH]; intros n m Hle; simpl in Hle.
  - assert (n = O /\ m = O) as [-> ->] by lia. reflexivity.
  - destruct n as [| n]; simpl.
    + destruct m as [| m]; [reflexivity |]. simpl. f_equal. apply (IH O m). lia.
    + apply IH. lia.
Qed.

Lemma slen_substr_from (s : string) (pos : nat) :
  slen (substr_from s pos) = (slen s - pos)%nat.
Proof.
  unfold substr_from.
  destruct (Nat.le_gt_cases pos (slen s)) as [Hle | Hgt].
  - apply substring_length. lia.
  - replace (slen s - pos)%nat with O by lia.
    clear Hgt. revert pos. induction s as [| c s IH]; intros [| pos]; simpl; auto.
Qed.

Lemma find_first_of_aux_bounds (set s : string) :
  forall i j, find_first_of_aux set s i = Some j -> (i <= j < i + slen s)%nat.
Proof.
  unfold slen. induction s as [| c s IH]; intros i j H; simpl in H; [discriminate H |].
  destruct (mem_char c set).
  - injection H as <-. simpl. lia.
  - apply IH in H. simpl. lia.
Qed.

Lemma find_first_of_bounds (set src : string) (pos j : nat) :
  find_first_of set src pos = Some j -> (pos <= j < slen src)%nat.
Proof.
  unfold find_first_of. intros H.
  apply find_first_of_aux_bounds in H. rewrite slen_substr_from in H. lia.
Qed.

Lemma skip_blanks_aux_ge (s : string) : forall pos, (pos <= skip_blanks_aux s pos)%nat.
Proof.
  induction s as [| c s IH]; intros pos; cbn [skip_blanks_aux]; [lia |].
  destruct (isspace c || Ascii.eqb EOL c); [| lia].
  specialize (IH (S pos)). lia.
Qed.

Lemma skip_blanks_ge (src : string) (pos : nat) : (pos <= skip_blanks src pos)%nat.
Proof. apply skip_blanks_aux_ge. Qed.

Lemma read_token_progress (src : string) (start : nat) :
  (start < slen src)%nat ->
  (start < fst (read_token src start) <= slen src)%nat.
Proof.
  intros Hstart. unfold read_token.
  destruct (find_first_of kTokenDelimiters src start) as [ptk |] eqn:Hfind;
    [| simpl; lia].
  apply find_first_of_bounds in Hfind.
  destruct (Nat.eqb_spec start ptk); simpl; lia.
Qed.

Lemma GetNextToken_from_unfold (fuel : nat) (src : string) (pos : nat) :
  GetNextToken_from fuel src pos =
  let start := skip_blanks src pos in
  if (slen src <=? start)%nat then (false, start, "")
  else
    let '(pos', token) := read_token src start in
    if negb (is_empty token) && IsIgnorable token then
      match fuel with
      | O => (false, pos', "")
      | S fuel' => GetNextToken_from fuel' src pos'
      end
    else (negb (is_empty token), pos', token).
Proof. destruct fuel; reflexivity. Qed.

(** with [slen src - pos] levels or more the result does not depend on
    the fuel: the branch that gives up is never taken *)
Lemma GetNextToken_from_fuel (fuel : nat) (src : string) :
  forall pos fuel',
    (slen src - pos <= fuel)%nat -> (fuel <= fuel')%nat ->
    GetNextToken_from fuel' src pos = GetNextToken_from fuel src pos.
Proof.
  induction fuel as [| fuel IH]; intros pos fuel' Hpos Hfuel;
    rewrite (GetNextToken_from_unfold fuel'), (GetNextToken_from_unfold _ src pos);
    cbv zeta;
    pose proof (skip_blanks_ge src pos) as Hskip;
    destruct (Nat.leb_spec (slen src) (skip_blanks src pos)) as [Hend | Hin];
    try reflexivity; try lia.
  pose proof (read_token_progress src _ Hin) as Hprogress.
  destruct (read_token src (skip_blanks src pos)) as [pos' token]. simpl in Hprogress.
  destruct (negb (is_empty token) && IsIgnorable token); [| reflexivity].
  destruct fuel' as [| fuel']; [lia |].
  apply IH; lia.
Qed.

(** a token found lies after [pos], within the text *)
Lemma GetNextToken_from_progress (fuel : nat) (src : string) :
  forall pos pos' token,
    GetNextToken_from fuel src pos = (true, pos', token) ->
    (pos < pos' <= slen src)%nat.
Proof.
  induction fuel as [| fuel IH]; intros pos pos' token;
    rewrite GetNextToken_from_unfold; cbv zeta;
    pose proof (skip_blanks_ge src pos) as Hskip;
    destruct (Nat.leb_spec (slen src) (skip_blanks src pos)) as [Hend | Hin];
    try discriminate;
    pose proof (read_token_progress src _ Hin) as Hprogress;
    destruct (read_token src (skip_blanks src pos)) as [pos1 token1];
    simpl in Hprogress;
    destruct (negb (is_empty token1) && IsIgnorable token1); try discriminate;
    try (intros [= _ <- _]; lia).
  intros H. apply IH in H. lia.
Qed.

Lemma GetNextToken_progress (src : string) (pos pos' : nat) (token : string) :
  GetNextToken src pos true = (true, pos', token) -> (pos < pos' <= slen src)%nat.
Proof. unfold GetNextToken. apply GetNextToken_from_progress. Qed.

(** [SplitLineIntoTokens] never stops for lack of fuel *)
Lemma SplitLineIntoTokens_loop_fuel (fuel : nat) (line : string) :
  forall start tokens fuel',
    (slen line - start < fuel)%nat -> (fuel <= fuel')%nat ->
    SplitLineIntoTokens_loop fuel' line start tokens
    = SplitLineIntoTokens_loop fuel line start tokens.
Proof.
  induction fuel as [| fuel IH]; intros start tokens fuel' Hstart Hfuel; [lia |].
  destruct fuel' as [| fuel']; [lia |]. cbn [SplitLineIntoTokens_loop].
  destruct (GetNextToken line start true) as [[ok start'] token] eqn:Hnext.
  destruct ok; [| reflexivity].
  apply GetNextToken_progress in Hnext. apply IH; lia.
Qed.
(** C2 (code at the failing input). A union of a [char] array of
    2^53 + 1 elements and an [int]. The largest member size, 2^53 + 1, is
    converted to [double] for the rounding; the nearest [double] is 2^53,
    so [CalcUnionSize] returns 2^53 and [StoreStructUnionDef] records it
    as the size of the union: less than the size of the first member,
    where the largest size rounded up to the next multiple of 4 is
    2^53 + 4. *)
Example union_size_below_largest_member :
  CalcUnionSize [mkVar "char" "buf" (2 ^ 53 + 1) false (2 ^ 53 + 1);
                 mkVar "int" "tag" 0 false 4]
  = Return (2 ^ 53) /\
  (fun p => (type_sizes_ p !! "U", map var_size <$> union_defs_ p !! "U")) <$>
    parse_header (text ["union U {"; "    char buf[9007199254740993];";
                        "    int tag;"; "};"])
  = Return (Some (2 ^ 53), Some [2 ^ 53 + 1; 4]).
Proof. split; vm_compute; reflexivity. Qed.

(** a member of an unregistered type gets the size 2^64 - 1 from
    [ParseDeclaration]; the rounding of that size does not fit a
    [size_t], and the conversion back is undefined *)
Example union_size_of_unregistered_member :
  CalcUnionSize [mkVar "foo" "x" 0 false (2 ^ 64 - 1); mkVar "int" "tag" 0 false 4]
  = Undefined /\
  parse_header (text ["union U {"; "    foo x;"; "    int tag;"; "};"]) = Undefined.
Proof. split; vm_compute; reflexivity. Qed.

(** X9. For every list of union members whose sizes a [double] holds
    exactly (below 2^53), [CalcUnionSize] returns the largest [var_size]
    rounded up to the next multiple of the alignment unit 4: a multiple of
    4 that no member exceeds and that is less than 4 above some member;
    it returns 0 for the empty list; and [StoreStructUnionDef] records
    this value as the size of the union, with the members as given. *)
Theorem CalcUnionSize_rounded_max (members : list VariableDeclaration) :
  (forall m, m ∈ members -> 0 <= var_size m < 2 ^ 53) ->
  exists size,
    CalcUnionSize members = Return size /\
    size mod kAlignment_ = 0 /\
    (forall m, m ∈ members -> var_size m <= size) /\
    (members = [] -> size = 0) /\
    (members <> [] -> exists m, m ∈ members /\ size < var_size m + kAlignment_) /\
    forall (type_name : string) (p : TypeParser),
    exists p',
      StoreStructUnionDef false type_name members p = Return (members, p') /\
      type_sizes_ p' !! type_name = Some size /\
      union_defs_ p' !! type_name = Some members.
Proof.
  intros Hrange.
  destruct (fold_max_var_size members 0) as (Hge & Hall & Hex).
  set (s := fold_left (fun size m => Z.max size (var_size m)) members 0) in *.
  assert (Hs : 0 <= s < 2 ^ 53).
  { destruct Hex as [-> | (m & Hm & ->)]; [lia | by apply Hrange]. }
  assert (Hcalc : CalcUnionSize members = Return ((s + 3) / 4 * 4)).
  { unfold CalcUnionSize. fold s. unfold kAlignment_.
    destruct (s mod 4 =? 0) eqn:E; simpl.
    - apply Z.eqb_eq in E. f_equal. Z.div_mod_to_equations. lia.
    - by apply align_up_double_exact. }
  pose proof (Z.mul_div_le (s + 3) 4 ltac:(lia)) as Hup.
  pose proof (Z.mod_pos_bound (s + 3) 4 ltac:(lia)) as Hmod.
  pose proof (Z.div_mod (s + 3) 4 ltac:(lia)) as Hdm.
  exists ((s + 3) / 4 * 4). split; [exact Hcalc |].
  split; [apply Z.mod_mul; unfold kAlignment_; lia |].
  split; [intros m Hm; specialize (Hall m Hm); lia |].
  split; [intros ->; reflexivity |].
  split.
  - intros Hne. destruct Hex as [H0 | (m & Hm & Heq)].
    + destruct members as [| m members']; [done |].
      exists m. split; [apply elem_of_cons; by left |].
      specialize (Hall m ltac:(apply elem_of_cons; by left)).
      specialize (Hrange m ltac:(apply elem_of_cons; by left)).
      unfold kAlignment_. rewrite H0. change ((0 + 3) / 4 * 4) with 0. lia.
    + exists m. split; [done |]. unfold kAlignment_. lia.
  - intros type_name p. unfold StoreStructUnionDef. rewrite Hcalc. simpl.
    eexists. split; [reflexivity |]. simpl.
    split; apply lookup_insert_eq.
Qed.

Lemma CalcUnionSize_rounded_max_witness :
  exists size,
    CalcUnionSize [mkVar "int" "a" 0 false 4; mkVar "char" "c" 5 false 5] = Return size /\
    size mod kAlignment_ = 0.
Proof.
  destruct (CalcUnionSize_rounded_max
              [mkVar "int" "a" 0 false 4; mkVar "char" "c" 5 false 5])
    as (size & Hcalc & Hmod & _).
  - intros m Hm.
    apply elem_of_cons in Hm as [-> | Hm]; [simpl; lia |].
    apply elem_of_cons in Hm as [-> | Hm]; [simpl; lia |].
    by apply elem_of_nil in Hm.
  - exists size. split; assumption.
Defined.
(** ** C1: the size of a struct *)

Lemma sum_var_size_app (l1 l2 : list VariableDeclaration) :
  sum_var_size (l1 ++ l2) = sum_var_size l1 + sum_var_size l2.
Proof.
  induction l1 as [| m l1 IH]; simpl; [reflexivity |].
  unfold sum_var_size in *. simpl. rewrite IH. lia.
Qed.

Lemma sum_var_size_rev (l : list VariableDeclaration) :
  sum_var_size (rev l) = sum_var_size l.
Proof.
  induction l as [| m l IH]; simpl; [reflexivity |].
  rewrite sum_var_size_app, IH. unfold sum_var_size. simpl. lia.
Qed.

(** the value returned by the loop is a multiple of 4 when [total] is *)
Lemma PadStructMembers_loop_multiple (rest : list VariableDeclaration) :
  forall before total last_size members' size,
    PadStructMembers_loop rest before total last_size = Return (members', size) ->
    total mod kAlignment_ = 0 ->
    size mod kAlignment_ = 0.
Proof.
  induction rest as [| m rest IH]; intros before total last_size members' size; simpl.
  - intros [= _ <-]. done.
  - intros Hloop Htotal.
    assert (Hadd : forall k, k mod kAlignment_ = 0 ->
                             to_size_t (total + k) mod kAlignment_ = 0).
    { intros k Hk. apply to_size_t_multiple.
      unfold kAlignment_ in *. rewrite Z.add_mod, Htotal, Hk by lia. reflexivity. }
    repeat match type of Hloop with
           | (if ?b then _ else _) = _ => destruct b eqn:?
           | mbind _ (align_up_double ?n) = _ =>
             destruct (align_up_double n) eqn:?; simpl in Hloop; try discriminate
           | mbind _ (assert ?b) = _ =>
             destruct b; simpl in Hloop; try discriminate
           | Return _ = Return _ => injection Hloop as <- <-; reflexivity
           end;
      try (eapply IH; [exact Hloop |]); try done;
      try (apply Hadd); eauto using align_up_double_multiple;
      try (by apply Z.eqb_eq).
Qed.
Lemma sum_var_size_cons (m : VariableDeclaration) (l : list VariableDeclaration) :
  sum_var_size (m :: l) = var_size m + sum_var_size l.
Proof. reflexivity. Qed.

Lemma to_size_t_add_l (a b : Z) : to_size_t (to_size_t a + b) = to_size_t (a + b).
Proof. unfold to_size_t. apply Zplus_mod_idemp_l. Qed.

(** on a list of closed runs the loop, entered with no run pending,
    returns the sum of the sizes of the list it leaves *)
Lemma PadStructMembers_loop_closed (rest : list VariableDeclaration) :
  closed_runs rest ->
  forall before total,
    total = to_size_t (sum_var_size before) ->
    exists members' size,
      PadStructMembers_loop rest before total 0 = Return (members', size) /\
      size = to_size_t (sum_var_size members').
Proof.
  induction 1 as [| m l Hm _ IH | a b l Ha Hb Hab _ IH | a b l Ha Hb _ IH
                  | a b l Ha Hb _ IH | a b c l Ha Hb Hc _ IH | a b c l Ha Hb Hc _ IH];
    intros before total Htotal.
  - exists (rev before), total. split; [reflexivity |].
    by rewrite sum_var_size_rev.
  - cbn [PadStructMembers_loop]. apply Z.eqb_eq in Hm. rewrite Hm.
    change (0 <? 0) with false. cbv iota.
    apply IH. rewrite Htotal, to_size_t_add_l.
    f_equal. rewrite !sum_var_size_cons. unfold kAlignment_. simpl. lia.
  - unfold kAlignment_ in Hab.
    assert (Hcases : (var_size a = 1 /\ var_size b = 3) \/
                     (var_size a = 2 /\ var_size b = 2) \/
                     (var_size a = 3 /\ var_size b = 1)) by lia.
    cbn [PadStructMembers_loop].
    destruct Hcases as [[Ha' Hb'] | [[Ha' Hb'] | [Ha' Hb']]];
      rewrite Ha', Hb'; cbn;
      apply IH; rewrite Htotal, to_size_t_add_l;
      f_equal; rewrite !sum_var_size_cons; lia.
  - cbn [PadStructMembers_loop]. rewrite Ha, Hb. cbn.
    apply IH. rewrite Htotal, to_size_t_add_l.
    f_equal. rewrite !sum_var_size_cons. unfold kAlignment_. simpl. lia.
  - cbn [PadStructMembers_loop]. rewrite Ha, Hb. cbn.
    apply IH. rewrite Htotal, to_size_t_add_l.
    f_equal. rewrite !sum_var_size_cons. unfold kAlignment_. simpl. lia.
  - cbn [PadStructMembers_loop]. rewrite Ha, Hb, Hc. cbn.
    apply IH. rewrite Htotal, to_size_t_add_l.
    f_equal. rewrite !sum_var_size_cons. unfold kAlignment_. simpl. lia.
  - cbn [PadStructMembers_loop]. rewrite Ha, Hb, Hc. cbn.
    apply IH. rewrite Htotal, to_size_t_add_l.
    f_equal. rewrite !sum_var_size_cons. unfold kAlignment_. simpl. lia.
Qed.

(** a member that is neither narrower than the alignment unit nor of
    aligned size makes the loop return 0 *)
Lemma PadStructMembers_loop_error (rest : list VariableDeclaration) (m : VariableDeclaration) :
  m ∈ rest ->
  var_size m mod kAlignment_ <> 0 -> kAlignment_ <= var_size m ->
  forall before total last_size members' size,
    PadStructMembers_loop rest before total last_size = Return (members', size) ->
    size = 0.
Proof.
  intros Hin Hmod Hsize.
  induction rest as [| x rest IH]; intros before total last_size members' size H;
    [by apply elem_of_nil in Hin |].
  cbn [PadStructMembers_loop] in H.
  apply elem_of_cons in Hin as [<- | Hin].
  - destruct (Z.eqb_spec (var_size m mod kAlignment_) 0); [done |].
    destruct (Z.leb_spec kAlignment_ (var_size m)); [| lia].
    by injection H as _ <-.
  - specialize (IH Hin).
    outcome_inv H; try reflexivity; by eapply IH.
Qed.

(** C1 (amended). For every struct registered by [StoreStructUnionDef],
    the size stored in the type-size map is the one [PadStructMembers]
    returns, the list stored is the padded list, and the size is a
    multiple of the alignment unit 4. When every run of narrow members
    of the list closes by itself (no run pending when a member of
    aligned size arrives nor at the end, no alignment error), the size
    is the sum of the [var_size] fields of the padded list, inserted
    padding included, as a [size_t]. When the list holds a member of 4
    bytes or more whose size is not a multiple of 4 (the alignment error
    of the source), the size is 0. *)
Theorem StoreStructUnionDef_struct_size
    (members : list VariableDeclaration) (type_name : string) (p : TypeParser)
    (members' : list VariableDeclaration) (p' : TypeParser) :
  StoreStructUnionDef true type_name members p = Return (members', p') ->
  exists size,
    PadStructMembers members = Return (members', size) /\
    type_sizes_ p' !! type_name = Some size /\
    struct_defs_ p' !! type_name = Some members' /\
    size mod kAlignment_ = 0 /\
    (closed_runs members -> size = to_size_t (sum_var_size members')) /\
    ((exists m, m ∈ members /\ var_size m mod kAlignment_ <> 0 /\
                kAlignment_ <= var_size m) ->
     size = 0).
Proof.
  unfold StoreStructUnionDef. intros Hstore.
  destruct (PadStructMembers members) as [[padded size] | | | | |] eqn:Hpad;
    simpl in Hstore; try discriminate.
  injection Hstore as <- <-.
  exists size. split; [reflexivity |].
  split; [apply lookup_insert_eq |].
  split; [apply lookup_insert_eq |].
  split; [| split].
  - eapply PadStructMembers_loop_multiple; [exact Hpad | reflexivity].
  - intros Hclosed.
    destruct (PadStructMembers_loop_closed members Hclosed [] 0 eq_refl)
      as (m' & s' & Hloop & Hsum).
    unfold PadStructMembers in Hpad. rewrite Hpad in Hloop.
    injection Hloop as <- <-. exact Hsum.
  - intros (m & Hin & Hmod & Hsize).
    by eapply (PadStructMembers_loop_error members m Hin Hmod Hsize).
Qed.

Lemma StoreStructUnionDef_struct_size_witness :
  exists size,
    PadStructMembers
      [mkVar "char" "a" 0 false 1; mkVar "char" "b" 0 false 1;
       mkVar "short" "c" 0 false 2; mkVar "int" "skills" 0 false 4]
    = Return ([mkVar "char" "a" 0 false 1; mkVar "char" "b" 0 false 1;
               mkVar "short" "c" 0 false 2; mkVar "int" "skills" 0 false 4], size) /\
    size mod kAlignment_ = 0.
Proof.
  destruct (StoreStructUnionDef_struct_size
              [mkVar "char" "a" 0 false 1; mkVar "char" "b" 0 false 1;
               mkVar "short" "c" 0 false 2; mkVar "int" "skills" 0 false 4]
              "_Engineer" Initialize _ _ eq_refl)
    as (size & Hpad & _ & _ & Hmod & _).
  exists size. split; assumption.
Defined.

(** C1 as stated fails: a struct whose only member is [char buf[5]] is
    registered with the size 0 that [PadStructMembers] returns on its
    alignment error, while its member list sums to 5. *)
Lemma StoreStructUnionDef_struct_size_not_sum :
  ~ (forall members type_name p members' p',
       StoreStructUnionDef true type_name members p = Return (members', p') ->
       type_sizes_ p' !! type_name = Some (to_size_t (sum_var_size members'))).
Proof.
  intros H.
  specialize (H [mkVar "char" "buf" 5 false 5] "S" Initialize _ _ eq_refl).
  vm_compute in H. discriminate H.
Qed.

(** The slip next to it: a run closed by a member of aligned size is
    charged, the member is not. [struct Manager { char a; int level; }]
    of the test header gets the size 4, and its padded list sums to 8. *)
Example PadStructMembers_Manager :
  PadStructMembers [mkVar "char" "a" 0 false 1; mkVar "int" "level" 0 false 4]
  = Return ([mkVar "char" "a" 0 false 1; MakePadField 3;
             mkVar "int" "level" 0 false 4], 4).
Proof. reflexivity. Qed.

(** A run left pending at the end of the list is not charged either. *)
Example PadStructMembers_trailing_run :
  PadStructMembers [mkVar "int" "a" 0 false 4; mkVar "char" "b" 0 false 1]
  = Return ([mkVar "int" "a" 0 false 4; mkVar "char" "b" 0 false 1], 4).
Proof. reflexivity. Qed.
(** ** The decoder: the value line of a field *)

Lemma append_assoc (a b c : string) : (a +:+ b) +:+ c = a +:+ (b +:+ c).
Proof.
  induction a as [| x a IH]; [reflexivity |].
  change (String x ((a +:+ b) +:+ c) = String x (a +:+ (b +:+ c))).
  by rewrite IH.
Qed.

Lemma append_nil_r (a : string) : a +:+ "" = a.
Proof.
  induction a as [| x a IH]; [reflexivity |].
  change (String x (a +:+ "") = String x a). by rewrite IH.
Qed.

(** a type name that [GetTokenType] resolves to an enum is not [char] *)
Lemma enum_name_not_char (p : TypeParser) (t : string) :
  GetTokenType p t = kEnumName -> String.eqb t "char" = false.
Proof.
  intros H. destruct (String.eqb_spec t "char") as [-> | _]; [| reflexivity].
  discriminate H.
Qed.

(** [enum_label] is the label of the first pair that holds the value *)
Lemma enum_label_first (enums : list (string * Z)) (v : Z) (i : nat) (name : string) :
  enums !! i = Some (name, v) ->
  (forall j name' value', (j < i)%nat -> enums !! j = Some (name', value') -> value' <> v) ->
  enum_label enums v = name.
Proof.
  revert i. induction enums as [| [n x] enums IH]; intros i Hi Hfirst.
  - discriminate Hi.
  - simpl. destruct i as [| i].
    + injection Hi as -> ->. by rewrite Z.eqb_refl.
    + destruct (Z.eqb_spec v x) as [-> | _].
      * exfalso. apply (Hfirst O n x); [lia | reflexivity | reflexivity].
      * apply (IH i); [exact Hi |].
        intros j name' value' Hj Hlook. apply (Hfirst (S j) name' value'); [lia | exact Hlook].
Qed.

Lemma enum_label_unknown (enums : list (string * Z)) (v : Z) :
  (forall name value, (name, value) ∈ enums -> value <> v) ->
  enum_label enums v = "Unknown".
Proof.
  induction enums as [| [n x] enums IH]; intros Hnone; simpl; [reflexivity |].
  destruct (Z.eqb_spec v x) as [-> | _].
  - exfalso. apply (Hnone n x); [apply elem_of_cons; by left | reflexivity].
  - apply IH. intros name value Hin. apply (Hnone name). apply elem_of_cons. by right.
Qed.

(** C7. When the decoder renders a field whose type [GetTokenType]
    resolves to a registered enum, the value line ends with the label of
    the first pair of the enum's definition list whose value equals the
    decoded integer, and with [Unknown] when no pair has that value; the
    read position advances by the size of the field. *)
Theorem PrintVarData_enum_label
    (prepare : string -> Z -> bool -> DataReader -> outcome DataReader)
    (var_decl : VariableDeclaration) (indent : Z) (is_union : bool)
    (r : DataReader) (enums : list (string * Z)) (data : string) :
  GetTokenType (type_parser_ r) (data_type var_decl) = kEnumName ->
  enum_defs_ (type_parser_ r) !! data_type var_decl = Some enums ->
  read_data r (to_int (var_size var_decl)) = Return data ->
  data <> "" ->
  let hex_value := "0x" +:+ tohex_digits data in
  let int_value := to_int (strtol hex_value 16) in
  exists r' label,
    PrintVarData prepare var_decl indent is_union r = Return r' /\
    out_stream_ r' =
      out_stream_ r +:+ setw 3 (dec int_value) +:+ ", " +:+ hex_value
        +:+ ", " +:+ label +:+ endl /\
    data_ptr_ r' = data_ptr_ r + to_int (var_size var_decl) /\
    (forall i name,
        enums !! i = Some (name, int_value) ->
        (forall j name' value',
            (j < i)%nat -> enums !! j = Some (name', value') -> value' <> int_value) ->
        label = name) /\
    ((forall name value, (name, value) ∈ enums -> value <> int_value) ->
     label = "Unknown").
Proof.
  intros Htype Henum Hread Hdata hex_value int_value.
  exists (set_data_ptr (data_ptr_ r + to_int (var_size var_decl))
            (put endl (put (", " +:+ enum_label enums int_value)
               (put (setw 3 (dec int_value) +:+ ", " +:+ hex_value) r)))),
         (enum_label enums int_value).
  split.
  - unfold PrintVarData. rewrite Htype. unfold PrintVarValue.
    rewrite (enum_name_not_char _ _ Htype), Hread. simpl.
    unfold tohex. destruct data as [| c data]; [done |]. simpl.
    rewrite Henum. simpl. reflexivity.
  - split; [simpl; by rewrite !append_assoc |].
    split; [reflexivity |].
    split; [apply enum_label_first | apply enum_label_unknown].
Qed.

Lemma PrintVarData_enum_label_witness :
  exists r',
    PrintVarData no_prepare (mkVar "Home" "home" 0 false 4) 1 false
      (Home_reader (bytes [9; 0; 0; 0])) = Return r' /\
    out_stream_ r' = "  9, 0x00000009, Beijing" +:+ endl /\
    data_ptr_ r' = 4.
Proof.
  destruct (PrintVarData_enum_label no_prepare (mkVar "Home" "home" 0 false 4) 1 false
              (Home_reader (bytes [9; 0; 0; 0])) Home_labels (bytes [9; 0; 0; 0])
              eq_refl eq_refl eq_refl ltac:(discriminate))
    as (r' & label & Hrun & Hout & Hptr & Hfirst & _).
  exists r'. split; [exact Hrun |]. split; [| exact Hptr].
  rewrite Hout. rewrite (Hfirst 1%nat "Beijing" eq_refl); [reflexivity |].
  intros [| j] name' value' Hj Hlook; [| lia].
  injection Hlook as _ <-. discriminate.
Defined.

(** the two decodings of the specification, on the enum of the test header *)
Example decode_Home_9 :
  out_stream_ <$> PrintVarData no_prepare (mkVar "Home" "home" 0 false 4) 1 false
                    (Home_reader (bytes [9; 0; 0; 0]))
  = Return ("  9, 0x00000009, Beijing" +:+ endl).
Proof. reflexivity. Qed.

Example decode_Home_5 :
  out_stream_ <$> PrintVarData no_prepare (mkVar "Home" "home" 0 false 4) 1 false
                    (Home_reader (bytes [5; 0; 0; 0]))
  = Return ("  5, 0x00000005, Unknown" +:+ endl).
Proof. reflexivity. Qed.
(** ** C10: the character of a [char] field *)

(** the integer decoded from one byte is the code of the byte *)
Lemma decode_byte (c : ascii) :
  to_int (strtol ("0x" +:+ hex_byte c) 16) = Z.of_nat (nat_of_ascii c).
Proof.
  destruct c as [[] [] [] [] [] [] [] []]; vm_compute; reflexivity.
Qed.

Lemma char_of_int_code (c : ascii) : char_of_int (Z.of_nat (nat_of_ascii c)) = c.
Proof.
  destruct c as [[] [] [] [] [] [] [] []]; vm_compute; reflexivity.
Qed.

Lemma code_range (c : ascii) : 0 <= Z.of_nat (nat_of_ascii c) < 256.
Proof.
  destruct c as [[] [] [] [] [] [] [] []]; vm_compute; split; congruence.
Qed.

(** C10. Take a scalar field that is not rendered as an enum (it is read
    as a member of a union, or its type is not the name of an enum).
    When its type is exactly [char] and the byte read is not zero, the
    value line is the decimal and the hexadecimal rendering followed by
    a comma and the byte as one quoted character; for a [char] whose
    byte is zero, and for every type other than [char], the line ends
    after the hexadecimal rendering. *)
Theorem PrintVarValue_char_suffix
    (var_decl : VariableDeclaration) (indent : Z) (is_union : bool) (r : DataReader) :
  is_union = true \/ enum_defs_ (type_parser_ r) !! data_type var_decl = None ->
  (forall c : ascii,
      data_type var_decl = "char" ->
      read_data r 1 = Return (String c "") ->
      let n := Z.of_nat (nat_of_ascii c) in
      exists r',
        PrintVarValue var_decl indent is_union r = Return r' /\
        (n <> 0 ->
         out_stream_ r' =
           out_stream_ r +:+ setw 3 (dec n) +:+ ", " +:+ ("0x" +:+ hex_byte c)
             +:+ ", '" +:+ String c "'" +:+ endl) /\
        (n = 0 ->
         out_stream_ r' =
           out_stream_ r +:+ setw 3 (dec n) +:+ ", " +:+ ("0x" +:+ hex_byte c)
             +:+ endl)) /\
  (forall data : string,
      data_type var_decl <> "char" ->
      read_data r (to_int (var_size var_decl)) = Return data ->
      data <> "" ->
      let hex_value := "0x" +:+ tohex_digits data in
      exists r',
        PrintVarValue var_decl indent is_union r = Return r' /\
        out_stream_ r' =
          out_stream_ r +:+ setw 3 (dec (to_int (strtol hex_value 16))) +:+ ", "
            +:+ hex_value +:+ endl).
Proof.
  intros Hscalar.
  assert (Hnot_enum :
            negb is_union
            && bool_decide (is_Some (enum_defs_ (type_parser_ r) !! data_type var_decl))
            = false).
  { destruct Hscalar as [-> | ->]; [reflexivity |].
    rewrite bool_decide_eq_false_2; [apply andb_false_r |].
    intros [x Hx]. discriminate Hx. }
  split.
  - intros c Htype Hread n.
    unfold PrintVarValue. rewrite Htype in Hnot_enum |- *.
    change (String.eqb "char" "char") with true.
    cbv iota. rewrite Hread. cbn [mbind outcome_bind].
    change (tohex (String c "")) with (Return ("0x" +:+ hex_byte c)).
    cbn [mbind outcome_bind]. rewrite decode_byte. fold n.
    cbn [type_parser_ put]. rewrite Hnot_enum.
    cbn [andb].
    destruct (Z.eqb_spec n 0) as [Hz | Hnz]; cbn [negb].
    + cbn [mbind outcome_bind].
      destruct is_union; (eexists; split; [reflexivity |]);
        (split; [done |]); intros _; cbn; by rewrite !append_assoc.
    + pose proof (code_range c) as Hrange. fold n in Hrange.
      unfold int_arith, INT_MIN, INT_MAX.
      destruct (Z.leb_spec (- 2 ^ 31) (n - 65)); [| lia].
      destruct (Z.leb_spec (n - 65) (2 ^ 31 - 1)); [| lia].
      cbn [andb mbind outcome_bind].
      destruct (Z.leb_spec (- 2 ^ 31) (65 + (n - 65))); [| lia].
      destruct (Z.leb_spec (65 + (n - 65)) (2 ^ 31 - 1)); [| lia].
      cbn [andb mbind outcome_bind].
      replace (65 + (n - 65)) with n by lia.
      assert (Hc : char_of_int n = c) by apply char_of_int_code. rewrite Hc.
      destruct is_union; (eexists; split; [reflexivity |]);
        (split; [| done]); intros _; cbn; by rewrite !append_assoc.
  - intros data Htype Hread Hdata hex_value.
    unfold PrintVarValue.
    destruct (String.eqb_spec (data_type var_decl) "char") as [E | _]; [done |].
    rewrite Hread. cbn [mbind outcome_bind].
    unfold tohex. destruct data as [| c data]; [done |].
    cbn [is_empty mbind outcome_bind type_parser_ put]. rewrite Hnot_enum.
    destruct (String.eqb_spec "char" (data_type var_decl)) as [E | _]; [done |].
    cbn [andb mbind outcome_bind].
    destruct is_union; (eexists; split; [reflexivity |]);
      subst hex_value; cbn; by rewrite !append_assoc.
Qed.

Lemma PrintVarValue_char_suffix_witness :
  exists r',
    PrintVarValue (mkVar "char" "a" 0 false 1) 1 false
      (make_reader Initialize (bytes [65])) = Return r' /\
    out_stream_ r' = " 65, 0x41, 'A'" +:+ endl.
Proof.
  destruct (PrintVarValue_char_suffix (mkVar "char" "a" 0 false 1) 1 false
              (make_reader Initialize (bytes [65])) (or_intror eq_refl))
    as [Hchar _].
  destruct (Hchar "A"%char eq_refl eq_refl) as (r' & Hrun & Hout & _).
  exists r'. split; [exact Hrun |].
  rewrite Hout; [reflexivity | discriminate].
Defined.
(** ** The decoder: where the read position goes *)

(** [PrintVarValue] leaves the parser and the buffer alone, and moves the
    read position by the length read, or not at all inside a union *)
Lemma PrintVarValue_cursor (var_decl : VariableDeclaration) (indent : Z)
    (is_union : bool) (r r' : DataReader) :
  PrintVarValue var_decl indent is_union r = Return r' ->
  type_parser_ r' = type_parser_ r /\
  data_buffer_ r' = data_buffer_ r /\
  data_ptr_ r' =
    if is_union then data_ptr_ r
    else data_ptr_ r + (if String.eqb (data_type var_decl) "char" then 1
                        else to_int (var_size var_decl)).
Proof.
  unfold PrintVarValue. intros H.
  destruct (read_data r _) as [data | | | | |]; cbn [mbind outcome_bind] in H;
    try discriminate H.
  destruct (tohex data) as [hex_value | | | | |]; cbn [mbind outcome_bind] in H;
    try discriminate H.
  match type of H with
  | mbind _ ?c = _ => destruct c as [r1 | | | | |] eqn:E
  end; cbn [mbind outcome_bind] in H; try discriminate H.
  assert (Hr1 : type_parser_ r1 = type_parser_ r /\ data_buffer_ r1 = data_buffer_ r
                /\ data_ptr_ r1 = data_ptr_ r).
  { outcome_inv E; repeat split; reflexivity. }
  destruct Hr1 as (Htp & Hbuf & Hptr).
  destruct is_union; cbn [negb] in H; injection H as <-; cbn;
    rewrite ?Htp, ?Hbuf, ?Hptr; repeat split; reflexivity.
Qed.

(** what the code does in place of C4: each element of an array of a
    scalar type other than [char] moves the read position by the size of
    the whole field *)
Lemma PrintArrayElements_cursor
    (prepare : string -> Z -> bool -> DataReader -> outcome DataReader)
    (var_decl : VariableDeclaration) (indent : Z) (count : nat) :
  forall (i : Z) (r r' : DataReader),
    GetTokenType (type_parser_ r) (data_type var_decl) = kBasicDataType ->
    PrintArrayElements prepare var_decl indent count i r = Return r' ->
    type_parser_ r' = type_parser_ r /\
    data_ptr_ r' =
      data_ptr_ r + Z.of_nat count *
                    (if String.eqb (data_type var_decl) "char" then 1
                     else to_int (var_size var_decl)).
Proof.
  induction count as [| count IH]; intros i r r' Htype H.
  - injection H as <-. split; [reflexivity | lia].
  - cbn [PrintArrayElements] in H.
    destruct (PrintVarData _ _ _ _ _) as [r1 | | | | |] eqn:E;
      cbn [mbind outcome_bind] in H; try discriminate H.
    unfold PrintVarData in E. cbn [type_parser_ put FORMAT_OUTPUT] in E.
    rewrite Htype in E.
    apply PrintVarValue_cursor in E as (Htp & _ & Hptr). cbn in Htp, Hptr.
    apply IH in H as [Htp' Hptr']; [| by rewrite Htp].
    split; [congruence |]. rewrite Hptr', Hptr. lia.
Qed.

(** what the code does in place of C3: when the members of a union are
    scalars, the read position after the members is the start of the
    union *)
Lemma PrintMemberData_union_cursor
    (prepare : string -> Z -> bool -> DataReader -> outcome DataReader)
    (members : list VariableDeclaration) (indent : Z) (union_addr : Z) :
  forall r r',
    Forall (fun m => array_size m = 0 /\
                     GetTokenType (type_parser_ r) (data_type m) = kBasicDataType)
           members ->
    PrintMemberData_loop prepare members indent true union_addr r = Return r' ->
    type_parser_ r' = type_parser_ r /\
    data_ptr_ r' = match members with [] => data_ptr_ r | _ => union_addr end.
Proof.
  induction members as [| m members IH]; intros r r' Hscalar H.
  - by injection H as <-.
  - cbn [PrintMemberData_loop negb andb] in H.
    apply Forall_cons_1 in Hscalar as [[Harray Htype] Hscalar].
    rewrite Harray in H. cbn [Z.eqb negb] in H.
    destruct (PrintVarData _ _ _ _ _) as [r1 | | | | |] eqn:E;
      cbn [mbind outcome_bind] in H; try discriminate H.
    unfold PrintVarData in E. cbn [type_parser_ put FORMAT_OUTPUT set_data_ptr] in E.
    rewrite Htype in E.
    apply PrintVarValue_cursor in E as (Htp & _ & Hptr). cbn in Htp, Hptr.
    apply IH in H as [Htp' Hptr'].
    + split; [congruence |]. rewrite Hptr'. by destruct members.
    + rewrite Htp. exact Hscalar.
Qed.

(** ** C3, C4, C8: what the code does at inputs where it leaves the specification *)

(** C3 (code at the failing input). A struct holds a union of an [int]
    and a [short] followed by an [int]; the dump holds 1 in the first four
    bytes and 2 in the next four. Both members of the union are read at
    offset 0, and the read position is still 0 when the union has been
    rendered: [x] is read at offset 0 and shows 1, where the union's
    registered size 4 would put it at offset 4 with the value 2, and the
    read position ends at 4, not at 8. *)
Example union_field_does_not_advance :
  decode (text ["union U {"; "    int a;"; "    short b;"; "};";
                "struct S {"; "    union U u;"; "    int x;"; "};"])
         "S" false (bytes [1; 0; 0; 0; 2; 0; 0; 0])
  = Return (4, text ["struct S {";
                     "    u = union U {";
                     "        a =   1, 0x00000001";
                     "        b =   1, 0x0001";
                     "    }";
                     "    x =   1, 0x00000001";
                     " }"]).
Proof. vm_compute. reflexivity. Qed.

(** C4 (code at the failing input). [int v[2]] has the element size 4 and
    the total size 8. Each of the two element reads takes 8 bytes and
    moves the read position by 8: the second element is read at offset 8
    and the field after the array at offset 16, so the read position ends
    at 20 where the sizes of the fields add up to 12. *)
Example array_element_advances_by_field_size :
  decode (text ["struct A {"; "    int v[2];"; "    int x;"; "};"])
         "A" false
         (bytes [1; 0; 0; 0; 2; 0; 0; 0; 3; 0; 0; 0; 4; 0; 0; 0; 5; 0; 0; 0])
  = Return (20, text ["struct A {";
                      "    v = [";
                      "        [0] =   1, 0x0000000200000001";
                      "        [1] =   3, 0x0000000400000003";
                      "        ]";
                      "    x =   5, 0x00000005";
                      " }"]).
Proof. vm_compute. reflexivity. Qed.

(** on a dump of exactly the 12 bytes of the struct the second element
    read leaves the buffer *)
Example array_element_reads_past_the_dump :
  decode (text ["struct A {"; "    int v[2];"; "    int x;"; "};"])
         "A" false (bytes [1; 0; 0; 0; 2; 0; 0; 0; 3; 0; 0; 0])
  = Undefined.
Proof. vm_compute. reflexivity. Qed.

(** a [char] array is read one byte per element *)
Example char_array_advances_by_one :
  decode (text ["struct B {"; "    char s[4];"; "    int x;"; "};"])
         "B" false (bytes [65; 66; 67; 68; 5; 0; 0; 0])
  = Return (8, text ["struct B {";
                     "    s = [";
                     "        [0] =  65, 0x41, 'A'";
                     "        [1] =  66, 0x42, 'B'";
                     "        [2] =  67, 0x43, 'C'";
                     "        [3] =  68, 0x44, 'D'";
                     "        ]";
                     "    x =   5, 0x00000005";
                     " }"]).
Proof. vm_compute. reflexivity. Qed.

(** C8 (code at the failing input). [#define ZERO 0] records nothing:
    [strtol] gives 0 for the literal 0, which [IsNumericToken] takes for a
    failed conversion. The defines of a non-zero literal and of a recorded
    constant are recorded; [M], defined as [ZERO], is not. *)
Example define_zero_not_registered :
  (fun p => (const_defs_ p !! "ZERO", const_defs_ p !! "ONE",
             const_defs_ p !! "N", const_defs_ p !! "M")) <$>
    parse_header (text ["#define ZERO 0"; "#define ONE 1"; "#define N ONE";
                        "#define M ZERO"])
  = Return (None, Some 1, Some 1, None).
Proof. vm_compute. reflexivity. Qed.

Example IsNumericToken_zero :
  IsNumericToken Initialize "0" = (false, 0) /\
  IsNumericToken Initialize "16" = (true, 16) /\
  IsNumericToken Initialize "0x10" = (true, 16).
Proof. vm_compute. repeat split; reflexivity. Qed.
(** ** C5: the outcomes of [ParseDeclaration] *)

Lemma at0_starts_with (c : ascii) (s : string) :
  s <> "" -> exists a, at0 s = Return a /\ Ascii.eqb a c = starts_with c s.
Proof. destruct s as [| a s]; [done |]. intros _. by exists a. Qed.

(** a token that begins like an identifier reads as 0 *)
Lemma strtol_identifier (tn : string) (c : ascii) (s : string) :
  tn = String c s -> is_identifier_start c = true -> strtol tn 0 = 0.
Proof.
  intros -> Hc. destruct c as [[] [] [] [] [] [] [] []]; try discriminate Hc;
    reflexivity.
Qed.

Lemma IsNumericToken_identifier (p : TypeParser) (tn : string) (c : ascii) (s : string) :
  tn = String c s -> is_identifier_start c = true ->
  const_defs_ p !! tn = None -> IsNumericToken p tn = (false, 0).
Proof.
  intros Htn Hc Hconst. unfold IsNumericToken.
  rewrite (strtol_identifier tn c s Htn Hc), Hconst. by subst tn.
Qed.

(** a token that [GetNextToken] returns with [true] is not empty *)
Lemma GetNextToken_from_nonempty (fuel : nat) (src : string) :
  forall pos pos' token,
    GetNextToken_from fuel src pos = (true, pos', token) -> token <> "".
Proof.
  induction fuel as [| fuel IH]; intros pos pos' token;
    rewrite GetNextToken_from_unfold; cbv zeta;
    destruct (slen src <=? skip_blanks src pos)%nat; try discriminate;
    destruct (read_token src (skip_blanks src pos)) as [pos1 token1];
    destruct (negb (is_empty token1) && IsIgnorable token1); try discriminate;
    try (apply IH);
    (destruct token1; simpl; intros H; inversion H; subst; discriminate).
Qed.

Lemma GetNextToken_nonempty (src : string) (pos : nat) (cross_line : bool)
    (pos' : nat) (token : string) :
  GetNextToken src pos cross_line = (true, pos', token) -> token <> "".
Proof. unfold GetNextToken. apply GetNextToken_from_nonempty. Qed.

Lemma SplitLineIntoTokens_loop_nonempty (fuel : nat) (line : string) :
  forall start tokens,
    Forall (fun t => t <> "") tokens ->
    Forall (fun t => t <> "") (SplitLineIntoTokens_loop fuel line start tokens).
Proof.
  induction fuel as [| fuel IH]; intros start tokens Htokens; simpl; [done |].
  destruct (GetNextToken line start true) as [[ok start'] token] eqn:Hnext.
  destruct ok; [| done].
  apply IH. apply Forall_app. split; [done |].
  constructor; [| constructor]. by eapply GetNextToken_nonempty.
Qed.

Lemma SplitLineIntoTokens_nonempty (line : string) :
  Forall (fun t => t <> "") (SplitLineIntoTokens line).
Proof. by apply SplitLineIntoTokens_loop_nonempty. Qed.

(** C5 (amended). [ParseDeclaration] on a non-empty statement:
    - returns failure, with the output untouched, when the statement does
      not end with the terminator;
    - stops on its assertion when the statement ends with the terminator
      and has fewer than 3 tokens;
    - when the statement ends with the terminator and its first token is a
      registered type whose size is not 0: with the name (or [*] and the
      name) followed by a token other than the bracket it succeeds, with
      array length 0 and the size of the type, 4 for a pointer; followed
      by the bracket and a token that [IsNumericToken] reads as [n] it
      succeeds with the array length [n] and [n] times that size;
      followed by the bracket and an identifier that is no recorded
      constant it returns failure, the type, the pointer flag and the
      name of the output already overwritten. *)
Theorem ParseDeclaration_cases (p : TypeParser) (line : string)
    (decl : VariableDeclaration) :
  line <> "" ->
  let tokens := SplitLineIntoTokens line in
  (last_char line <> kSemicolon ->
   ParseDeclaration p line decl = Return (false, decl)) /\
  (last_char line = kSemicolon -> (length tokens < 3)%nat ->
   ParseDeclaration p line decl = AssertFail) /\
  (last_char line = kSemicolon ->
   forall (ty name : string) (rest after : list string) (ptr : bool) (elem : Z),
     tokens = ty :: rest ->
     type_registered p ty ->
     to_size_t (GetTypeSize p ty) <> 0 ->
     (rest = name :: after /\ starts_with kAsterisk name = false /\
      ptr = false /\ elem = to_size_t (GetTypeSize p ty)) \/
     (exists star, rest = star :: name :: after /\ starts_with kAsterisk star = true /\
                   ptr = true /\ elem = kWordSize_) ->
     (forall t after',
         after = t :: after' -> starts_with "[" t = false ->
         ParseDeclaration p line decl = Return (true, mkVar ty name 0 ptr elem)) /\
     (forall br tn after' n,
         after = br :: tn :: after' -> starts_with "[" br = true ->
         IsNumericToken p tn = (true, n) ->
         ParseDeclaration p line decl
         = Return (true, mkVar ty name (to_size_t n) ptr (to_size_t (elem * n)))) /\
     (forall br tn after' c s,
         after = br :: tn :: after' -> starts_with "[" br = true ->
         tn = String c s -> is_identifier_start c = true ->
         const_defs_ p !! tn = None ->
         ParseDeclaration p line decl
         = Return (false, mkVar ty name (array_size decl) ptr (var_size decl)))).
Proof.
  intros Hline tokens.
  assert (Hempty : is_empty line = false) by (by destruct line).
  pose proof (SplitLineIntoTokens_nonempty line) as Hnonempty. fold tokens in Hnonempty.
  split; [| split].
  - intros Hlast. unfold ParseDeclaration. rewrite Hempty. simpl.
    destruct (Ascii.eqb_spec (last_char line) kSemicolon); [done | reflexivity].
  - intros Hlast Hlen. unfold ParseDeclaration. rewrite Hempty, Hlast.
    cbn -[Nat.leb SplitLineIntoTokens to_size_t GetTypeSize IsNumericToken].
    fold tokens. destruct (Nat.leb_spec 3 (length tokens)); [lia | reflexivity].
  - intros Hlast ty name rest after ptr elem Htokens _ Hsize Hshape.
    assert (Hstart :
              ParseDeclaration p line decl =
              (t1 ← vec_get tokens 1;
               c1 ← at0 t1;
               '(decl, length, index) ←
                 (if Ascii.eqb c1 kAsterisk then
                    t2 ← vec_get tokens 2;
                    Return (set_var_name t2 (set_is_pointer true
                              (set_is_pointer false (set_data_type ty decl))),
                            kWordSize_, 2%nat)
                  else Return (set_var_name t1
                                 (set_is_pointer false (set_data_type ty decl)),
                               to_size_t (GetTypeSize p ty), 1%nat));
               t ← vec_get tokens (S index);
               c ← at0 t;
               if Ascii.eqb c "[" then
                 tn ← vec_get tokens (S (S index));
                 let '(ok, number) := IsNumericToken p tn in
                 if ok then
                   Return (true, set_var_size (to_size_t (length * number))
                                   (set_array_size (to_size_t number) decl))
                 else Return (false, decl)
               else Return (true, set_var_size length (set_array_size 0 decl)))
              \/ (length tokens < 3)%nat).
    { unfold ParseDeclaration. rewrite Hempty, Hlast.
      cbn -[Nat.leb SplitLineIntoTokens to_size_t GetTypeSize IsNumericToken].
      fold tokens.
      destruct (Nat.leb_spec 3 (length tokens)); [| by right]. left.
      cbn -[SplitLineIntoTokens to_size_t GetTypeSize IsNumericToken].
      rewrite Htokens.
      cbn -[SplitLineIntoTokens to_size_t GetTypeSize IsNumericToken].
      destruct (Z.eqb_spec (to_size_t (GetTypeSize p ty)) 0); [done | reflexivity]. }
    destruct Hshape as [(-> & Hname & -> & ->) | (star & -> & Hstar & -> & ->)].
    + assert (Hname_ne : name <> "").
      { eapply (Forall_lookup_1 _ _ 1%nat name) in Hnonempty; [done |].
        by rewrite Htokens. }
      destruct (at0_starts_with kAsterisk name Hname_ne) as (c1 & Hc1 & Heq1).
      rewrite Hname in Heq1.
      split; [| split].
      * intros t after' -> Ht.
        destruct Hstart as [-> | Hlen]; [| rewrite Htokens in Hlen; simpl in Hlen; lia].
        rewrite Htokens. cbn -[to_size_t GetTypeSize IsNumericToken]. rewrite Hc1. cbn -[to_size_t GetTypeSize IsNumericToken]. rewrite Heq1. cbn -[to_size_t GetTypeSize IsNumericToken].
        assert (Ht_ne : t <> "").
        { eapply (Forall_lookup_1 _ _ 2%nat t) in Hnonempty; [done |].
          by rewrite Htokens. }
        destruct (at0_starts_with "[" t Ht_ne) as (c & Hc & Heq).
        rewrite Hc. cbn -[to_size_t GetTypeSize IsNumericToken]. rewrite Heq, Ht. reflexivity.
      * intros br tn after' n -> Hbr Hnum.
        destruct Hstart as [-> | Hlen]; [| rewrite Htokens in Hlen; simpl in Hlen; lia].
        rewrite Htokens. cbn -[to_size_t GetTypeSize IsNumericToken]. rewrite Hc1. cbn -[to_size_t GetTypeSize IsNumericToken]. rewrite Heq1. cbn -[to_size_t GetTypeSize IsNumericToken].
        destruct br as [| b br]; [discriminate Hbr |]. cbn -[to_size_t GetTypeSize IsNumericToken] in Hbr |- *.
        rewrite Hbr, Hnum. reflexivity.
      * intros br tn after' c s -> Hbr Htn Hc Hconst.
        destruct Hstart as [-> | Hlen]; [| rewrite Htokens in Hlen; simpl in Hlen; lia].
        rewrite Htokens. cbn -[to_size_t GetTypeSize IsNumericToken]. rewrite Hc1. cbn -[to_size_t GetTypeSize IsNumericToken]. rewrite Heq1. cbn -[to_size_t GetTypeSize IsNumericToken].
        destruct br as [| b br]; [discriminate Hbr |]. cbn -[to_size_t GetTypeSize IsNumericToken] in Hbr |- *.
        rewrite Hbr, (IsNumericToken_identifier p tn c s Htn Hc Hconst). reflexivity.
    + destruct star as [| c1 star']; [discriminate Hstar |]. simpl in Hstar.
      split; [| split].
      * intros t after' -> Ht.
        destruct Hstart as [-> | Hlen]; [| rewrite Htokens in Hlen; simpl in Hlen; lia].
        rewrite Htokens. cbn -[to_size_t GetTypeSize IsNumericToken]. rewrite Hstar. cbn -[to_size_t GetTypeSize IsNumericToken].
        assert (Ht_ne : t <> "").
        { eapply (Forall_lookup_1 _ _ 3%nat t) in Hnonempty; [done |].
          by rewrite Htokens. }
        destruct (at0_starts_with "[" t Ht_ne) as (c & Hc & Heq).
        rewrite Hc. cbn -[to_size_t GetTypeSize IsNumericToken]. rewrite Heq, Ht. reflexivity.
      * intros br tn after' n -> Hbr Hnum.
        destruct Hstart as [-> | Hlen]; [| rewrite Htokens in Hlen; simpl in Hlen; lia].
        rewrite Htokens. cbn -[to_size_t GetTypeSize IsNumericToken]. rewrite Hstar. cbn -[to_size_t GetTypeSize IsNumericToken].
        destruct br as [| b br]; [discriminate Hbr |]. cbn -[to_size_t GetTypeSize IsNumericToken] in Hbr |- *.
        rewrite Hbr, Hnum. reflexivity.
      * intros br tn after' c s -> Hbr Htn Hc Hconst.
        destruct Hstart as [-> | Hlen]; [| rewrite Htokens in Hlen; simpl in Hlen; lia].
        rewrite Htokens. cbn -[to_size_t GetTypeSize IsNumericToken]. rewrite Hstar. cbn -[to_size_t GetTypeSize IsNumericToken].
        destruct br as [| b br]; [discriminate Hbr |]. cbn -[to_size_t GetTypeSize IsNumericToken] in Hbr |- *.
        rewrite Hbr, (IsNumericToken_identifier p tn c s Htn Hc Hconst). reflexivity.
Qed.

Lemma ParseDeclaration_cases_witness :
  ParseDeclaration
    (set_const_defs (fun c => <["MAX_NAME_LENGTH" := 16]> c) Initialize)
    "char name[MAX_NAME_LENGTH];" (mkVar "" "" 0 false 0)
  = Return (true, mkVar "char" "name" 16 false 16).
Proof.
  pose (p := set_const_defs (fun c => <["MAX_NAME_LENGTH" := 16]> c) Initialize).
  destruct (ParseDeclaration_cases p "char name[MAX_NAME_LENGTH];"
              (mkVar "" "" 0 false 0) ltac:(discriminate)) as (_ & _ & Hcases).
  destruct (Hcases eq_refl "char" "name"
              ["name"; "["; "MAX_NAME_LENGTH"; "]"; ";"]
              ["["; "MAX_NAME_LENGTH"; "]"; ";"] false 1 eq_refl)
    as (_ & Harray & _).
  - left. exists 1. reflexivity.
  - vm_compute. discriminate.
  - left. repeat split; reflexivity.
  - exact (Harray "[" "MAX_NAME_LENGTH" ["]"; ";"] 16 eq_refl eq_refl eq_refl).
Defined.

(** C5 as stated fails: [int a,], the first half of [int a, b;], has a
    registered type, no array size and 3 tokens, and [ParseDeclaration]
    returns failure on it because it does not end with the terminator. *)
Lemma ParseDeclaration_failure_without_listed_cause :
  ~ (forall p line decl decl',
       line <> "" ->
       ParseDeclaration p line decl = Return (false, decl') ->
       let tokens := SplitLineIntoTokens line in
       (exists ty, tokens !! 0%nat = Some ty /\ ~ type_registered p ty) \/
       (exists i tn, tokens !! i = Some "[" /\ tokens !! S i = Some tn /\
                     fst (IsNumericToken p tn) = false) \/
       (length tokens < 3)%nat).
Proof.
  intros H.
  destruct (H Initialize "int a," (mkVar "" "" 0 false 0) _ ltac:(discriminate) eq_refl)
    as [(ty & Hty & Hreg) | [(i & tn & Hbr & _) | Hlen]].
  - vm_compute in Hty. injection Hty as <-. apply Hreg. left. by exists 4.
  - destruct i as [| [| [| i]]]; vm_compute in Hbr; discriminate Hbr.
  - vm_compute in Hlen. lia.
Qed.

(** The slips next to it. The size of an unknown type is -1, and the test
    is made against 0: the declaration of an unregistered type succeeds,
    with the size -1 as a [size_t], and the declaration of a [void]
    variable fails. *)
Example ParseDeclaration_unknown_type :
  ParseDeclaration Initialize "foo x;" (mkVar "" "" 0 false 0)
  = Return (true, mkVar "foo" "x" 0 false SIZE_MAX).
Proof. vm_compute. reflexivity. Qed.

Example ParseDeclaration_void :
  ParseDeclaration Initialize "void x;" (mkVar "" "" 0 false 0)
  = Return (false, mkVar "void" "" 0 false 0).
Proof. vm_compute. reflexivity. Qed.

(** an array of length 0 is refused, as [IsNumericToken] refuses 0 *)
Example ParseDeclaration_zero_length :
  ParseDeclaration Initialize "int a[0];" (mkVar "" "" 0 false 0)
  = Return (false, mkVar "int" "a" 0 false 0).
Proof. vm_compute. reflexivity. Qed.

Example ParseDeclaration_two_tokens :
  ParseDeclaration Initialize "x;" (mkVar "" "" 0 false 0) = AssertFail.
Proof. vm_compute. reflexivity. Qed.
(** ** C6: the values of enum members *)

(** *** Decimal literals *)

Lemma strtol_digits_decimal (d : Decimal.uint) (acc : positive) :
  strtol_digits 10 (NilEmpty.string_of_uint d) (Z.pos acc)
  = Z.pos (Pos.of_uint_acc d acc).
Proof.
  revert acc. induction d as [| d IH | d IH | d IH | d IH | d IH | d IH | d IH
                              | d IH | d IH | d IH]; intros acc;
    [reflexivity | ..];
    cbn [NilEmpty.string_of_uint strtol_digits Pos.of_uint_acc];
    match goal with
    | |- context [digit_value ?c] =>
      let v := eval vm_compute in (digit_value c) in
      change (digit_value c) with v
    end;
    cbv iota beta;
    match goal with
    | |- context [?k <? 10] => change (k <? 10) with true
    end;
    cbv iota; rewrite <- IH; f_equal; lia.
Qed.

Lemma unorm_D0 (l l' : Decimal.uint) : Decimal.unorm l = Decimal.D0 l' -> l' = Decimal.Nil.
Proof.
  induction l as [| l IH | l _ | l _ | l _ | l _ | l _ | l _ | l _ | l _ | l _];
    simpl; intros H; try discriminate H; [by injection H | by apply IH].
Qed.

Lemma to_uint_head (p : positive) :
  forall l, Pos.to_uint p <> Decimal.D0 l.
Proof.
  intros l Hp.
  pose proof (DecimalPos.Unsigned.to_of (Pos.to_uint p)) as Hnorm.
  rewrite DecimalPos.Unsigned.of_to in Hnorm. simpl in Hnorm.
  rewrite Hp in Hnorm. symmetry in Hnorm.
  apply unorm_D0 in Hnorm. subst l.
  by apply (DecimalPos.Unsigned.to_uint_nonzero p).
Qed.

Lemma strtol_magnitude_decimal (p : positive) :
  strtol_magnitude 0 (NilEmpty.string_of_uint (Pos.to_uint p)) = Z.pos p.
Proof.
  pose proof (DecimalPos.Unsigned.of_to p) as Hof.
  pose proof (to_uint_head p) as Hhead.
  pose proof (DecimalPos.Unsigned.to_uint_nonnil p) as Hnil.
  destruct (Pos.to_uint p) as [| d | d | d | d | d | d | d | d | d | d];
    [done | by destruct (Hhead d) | ..];
    simpl in Hof; injection Hof as <-;
    unfold strtol_magnitude;
    cbn [NilEmpty.string_of_uint Z.eqb orb is_hex_prefix strtol_digits];
    match goal with
    | |- context [digit_value ?c] =>
      let v := eval vm_compute in (digit_value c) in
      change (digit_value c) with v
    end;
    cbv iota beta;
    match goal with
    | |- context [?k <? 10] => change (k <? 10) with true
    end;
    cbv iota; apply strtol_digits_decimal.
Qed.

Lemma ltrim_decimal (d : Decimal.uint) :
  ltrim (NilEmpty.string_of_uint d) = NilEmpty.string_of_uint d.
Proof. destruct d; reflexivity. Qed.

Lemma strtol_minus (s : string) (base : Z) :
  strtol (String "-" s) base = Z.max LONG_MIN (- strtol_magnitude base s).
Proof. reflexivity. Qed.

(** [strtol] reads the decimal rendering of a non-zero [long] back *)
Lemma strtol_dec (n : Z) :
  n <> 0 -> LONG_MIN <= n <= LONG_MAX -> strtol (dec n) 0 = n.
Proof.
  intros Hn Hrange. unfold dec.
  destruct n as [| p | p]; [done | |]; unfold Z.to_int, NilZero.string_of_int.
  - pose proof (DecimalPos.Unsigned.to_uint_nonnil p) as Hnil.
    pose proof (to_uint_head p) as Hhead.
    pose proof (strtol_magnitude_decimal p) as Hmag.
    unfold NilZero.string_of_uint.
    destruct (Pos.to_uint p) as [| d | d | d | d | d | d | d | d | d | d] eqn:E;
      [done | by destruct (Hhead d) | ..];
      unfold strtol; rewrite ltrim_decimal;
      cbn [NilEmpty.string_of_uint] in Hmag |- *; rewrite Hmag; lia.
  - pose proof (strtol_magnitude_decimal p) as Hmag.
    pose proof (DecimalPos.Unsigned.to_uint_nonnil p) as Hnil.
    unfold NilZero.string_of_uint.
    replace (match Pos.to_uint p with
             | Decimal.Nil => "0"
             | _ => NilEmpty.string_of_uint (Pos.to_uint p)
             end) with (NilEmpty.string_of_uint (Pos.to_uint p))
      by (by destruct (Pos.to_uint p)).
    rewrite strtol_minus, Hmag. lia.
Qed.

Lemma IsNumericToken_dec (p : TypeParser) (n : Z) :
  n <> 0 -> LONG_MIN <= n <= LONG_MAX -> IsNumericToken p (dec n) = (true, n).
Proof.
  intros Hn Hrange. unfold IsNumericToken.
  rewrite (strtol_dec n Hn Hrange).
  destruct (Z.eqb_spec n 0); [done |].
  assert (His : is_empty (dec n) = false); [| by rewrite His].
  unfold dec, NilZero.string_of_int, NilZero.string_of_uint.
  destruct n as [| q | q]; [done | | reflexivity].
  simpl. pose proof (DecimalPos.Unsigned.to_uint_nonnil q).
  by destruct (Pos.to_uint q).
Qed.

Lemma to_int_id (n : Z) : INT_MIN <= n <= INT_MAX -> to_int n = n.
Proof.
  unfold to_int, INT_MIN, INT_MAX. intros H.
  rewrite Z.mod_small; lia.
Qed.

(** *** One member line *)

Lemma ParseEnumDeclaration_implicit (p : TypeParser) (line : string)
    (last_value : Z) (decl : string * Z) (name : string) :
  last_value < INT_MAX ->
  (SplitLineIntoTokens line = [name] ->
   ParseEnumDeclaration p line last_value decl
   = Return (true, last_value + 1, (name, last_value + 1), true)) /\
  (forall c, SplitLineIntoTokens line = [name; c] -> starts_with kComma c = true ->
   ParseEnumDeclaration p line last_value decl
   = Return (true, last_value + 1, (name, last_value + 1), false)).
Proof.
  intros Hlast. unfold ParseEnumDeclaration, incr_int.
  destruct (Z.ltb_spec last_value INT_MAX); [| lia].
  split.
  - intros ->. reflexivity.
  - intros c -> Hc. destruct c as [| a c]; [discriminate Hc |].
    simpl in Hc. rewrite Ascii.eqb_sym in Hc. cbn -[Ascii.eqb]. rewrite Hc. reflexivity.
Qed.

Lemma ParseEnumDeclaration_explicit (p : TypeParser) (line : string)
    (last_value : Z) (decl : string * Z) (name eq tn : string) (n : Z) :
  starts_with kEqual eq = true ->
  IsNumericToken p tn = (true, n) ->
  (SplitLineIntoTokens line = [name; eq; tn] ->
   ParseEnumDeclaration p line last_value decl
   = Return (true, to_int n, (name, to_int n), true)) /\
  (forall c, SplitLineIntoTokens line = [name; eq; tn; c] ->
   starts_with kComma c = true ->
   ParseEnumDeclaration p line last_value decl
   = Return (true, to_int n, (name, to_int n), false)).
Proof.
  intros Heq Hnum. unfold ParseEnumDeclaration.
  destruct eq as [| e eq]; [discriminate Heq |]. simpl in Heq.
  rewrite Ascii.eqb_sym in Heq.
  split.
  - intros ->. cbn -[Ascii.eqb IsNumericToken to_int]. rewrite Heq.
    cbn -[Ascii.eqb IsNumericToken to_int]. rewrite Hnum. reflexivity.
  - intros c -> Hc. destruct c as [| a c]; [discriminate Hc |]. simpl in Hc.
    rewrite Ascii.eqb_sym in Hc.
    cbn -[Ascii.eqb IsNumericToken to_int]. rewrite Heq.
    cbn -[Ascii.eqb IsNumericToken to_int]. rewrite Hc.
    cbn -[Ascii.eqb IsNumericToken to_int]. rewrite Hnum. reflexivity.
Qed.

(** *** The loop of [ParseEnum] *)

(** C6 (code at the failing input). An enum whose first member is
    given the value 0. [IsNumericToken] takes the result 0 of [strtol]
    for a failed conversion (the defect of C8), [ParseEnumDeclaration]
    returns failure, [ParseEnum] gives the enum up and [ParseSource]
    returns: no enum [Color] is recorded, it has no size, and the line
    after the enum is not parsed, where the member [RED] has the value 0
    and [GREEN] the value 1. With the value 1 in place of 0 the enum is
    recorded, [GREEN] continues with 2, and the parse goes on. *)
Example enum_member_zero_drops_the_enum :
  (fun p => (enum_defs_ p !! "Color", type_sizes_ p !! "Color",
             const_defs_ p !! "AFTER")) <$>
    parse_header (text ["enum Color {"; "    RED = 0,"; "    GREEN"; "};";
                        "#define AFTER 1"])
  = Return (None, None, None) /\
  (fun p => (enum_defs_ p !! "Color", type_sizes_ p !! "Color",
             const_defs_ p !! "AFTER")) <$>
    parse_header (text ["enum Color {"; "    RED = 1,"; "    GREEN"; "};";
                        "#define AFTER 1"])
  = Return (Some [("RED", 1); ("GREEN", 2)], Some 4, Some 1).
Proof. split; vm_compute; reflexivity. Qed.

(** One turn of the loop of [ParseEnum]: a member line is handed to
    [ParseEnumDeclaration] with the value of the previous member, and the
    loop goes on with the member appended and its value as the new
    previous value: a member without a value ([name] or [name ,]) gets
    the previous value plus 1; a member [name = N] gets the number that
    [IsNumericToken] reads from [N], which for a non-zero decimal literal
    in the range of [int] is [N] itself; and [ParseEnum] enters the loop
    with the previous value -1, so that a first member without a value
    gets 0. *)
Theorem ParseEnum_member_values
    (fuel : nat) (w : World) (is_typedef : bool) (src : string) (pos : nat)
    (var_decl : VariableDeclaration) (is_decl : bool) (type_name : string)
    (members : list (string * Z)) (member : string * Z) (last_value : Z)
    (st : State) (pos1 : nat) (token : string) (ok : bool) (pos2 : nat)
    (line : string) :
  GetNextToken src pos true = (true, pos1, token) ->
  starts_with kBlockEnd token = false ->
  GetRestLine src pos1 = (ok, pos2, line) ->
  let tokens := SplitLineIntoTokens (token +:+ " " +:+ line) in
  let this_turn :=
    ParseEnum_loop (S fuel) w is_typedef src pos var_decl is_decl type_name
      members member last_value false st in
  let next_turn (value : Z) (name : string) (is_last_member : bool) :=
    ParseEnum_loop fuel w is_typedef src pos2 var_decl is_decl type_name
      (members ++ [(name, value)]) (name, value) value is_last_member st in
  (forall name,
      last_value < INT_MAX ->
      (tokens = [name] -> this_turn = next_turn (last_value + 1) name true) /\
      (forall c, tokens = [name; c] -> starts_with kComma c = true ->
                 this_turn = next_turn (last_value + 1) name false)) /\
  (forall name eq tn n,
      starts_with kEqual eq = true ->
      IsNumericToken (parser st) tn = (true, n) ->
      (tokens = [name; eq; tn] -> this_turn = next_turn (to_int n) name true) /\
      (forall c, tokens = [name; eq; tn; c] -> starts_with kComma c = true ->
                 this_turn = next_turn (to_int n) name false)) /\
  (forall N,
      N <> 0 -> INT_MIN <= N <= INT_MAX ->
      IsNumericToken (parser st) (dec N) = (true, N) /\ to_int N = N) /\
  (forall pos0 decl0 is_decl0 st0 posl linel decl' posh type_name0,
      negb (is_empty src) && (pos0 <? slen src)%nat = true ->
      rest_or_next_line src pos0 = Return (posl, linel) ->
      ParseDeclaration (parser st0) linel decl0 = Return (false, decl') ->
      block_header src pos0 = Return (posh, type_name0) ->
      ParseEnum fuel w is_typedef src pos0 decl0 is_decl0 st0
      = ParseEnum_loop fuel w is_typedef src posh decl' is_decl0 type_name0
          [] ("", 0) (-1) false st0).
Proof.
  intros Hnext Htoken Hrest tokens this_turn next_turn.
  assert (Hturn :
            this_turn =
            '(ok, last_value, member, is_last_member) ←
              ParseEnumDeclaration (parser st) (token +:+ " " +:+ line)
                last_value member;
            if negb ok then Return (false, pos2, var_decl, is_decl, st)
            else
              ParseEnum_loop fuel w is_typedef src pos2 var_decl is_decl type_name
                (members ++ [member]) member last_value is_last_member st).
  { unfold this_turn. cbn [ParseEnum_loop]. rewrite Hnext. cbn [negb].
    pose proof (GetNextToken_nonempty _ _ _ _ _ Hnext) as Hne.
    destruct token as [| c token']; [done |]. simpl in Htoken.
    cbn [at0 mbind outcome_bind]. rewrite Ascii.eqb_sym, Htoken.
    rewrite Hrest. reflexivity. }
  split; [| split; [| split]].
  - intros name Hlast.
    destruct (ParseEnumDeclaration_implicit (parser st) (token +:+ " " +:+ line)
                last_value member name Hlast) as [H1 H2].
    split.
    + intros Htokens. rewrite Hturn, (H1 Htokens). reflexivity.
    + intros c Htokens Hc. rewrite Hturn, (H2 c Htokens Hc). reflexivity.
  - intros name eq tn n Heq Hnum.
    destruct (ParseEnumDeclaration_explicit (parser st) (token +:+ " " +:+ line)
                last_value member name eq tn n Heq Hnum) as [H1 H2].
    split.
    + intros Htokens. rewrite Hturn, (H1 Htokens). reflexivity.
    + intros c Htokens Hc. rewrite Hturn, (H2 c Htokens Hc). reflexivity.
  - intros N HN Hrange. split.
    + apply IsNumericToken_dec; [done |].
      unfold INT_MIN, INT_MAX, LONG_MIN, LONG_MAX in *. lia.
    + by apply to_int_id.
  - intros pos0 decl0 is_decl0 st0 posl linel decl' posh type_name0
           Hassert Hline Hdecl Hheader.
    unfold ParseEnum. rewrite Hassert, Hline. cbn [assert mbind outcome_bind].
    rewrite Hdecl. cbn [mbind outcome_bind]. rewrite Hheader. reflexivity.
Qed.

Lemma ParseEnum_member_values_witness :
  ParseEnum_loop 10 (one_header "") false "enum E {$A,$B = 5$};$" 8
    (mkVar "" "" 0 false 0) false "E" [] ("", 0) (-1) false (mkState Initialize 0)
  = ParseEnum_loop 9 (one_header "") false "enum E {$A,$B = 5$};$" 11
      (mkVar "" "" 0 false 0) false "E" [("A", 0)] ("A", 0) 0 false
      (mkState Initialize 0).
Proof.
  destruct (ParseEnum_member_values 9 (one_header "") false "enum E {$A,$B = 5$};$" 8
              (mkVar "" "" 0 false 0) false "E" [] ("", 0) (-1)
              (mkState Initialize 0) 10 "A" true 11 "," eq_refl eq_refl eq_refl)
    as (Himplicit & _).
  destruct (Himplicit "A" ltac:(reflexivity)) as [_ Hcomma].
  exact (Hcomma "," eq_refl eq_refl).
Defined.

(** the enum of the test header, and an enum that gives no value *)
Example ParseEnum_Home :
  (fun p => enum_defs_ p !! "Home") <$>
    parse_header (text ["typedef enum Home"; "{"; "    Anhui = 1,"; "    Beijing=9, ";
                        "    Shanghai,"; "    Zhejiang = 33"; "}Home;"])
  = Return (Some [("Anhui", 1); ("Beijing", 9); ("Shanghai", 10); ("Zhejiang", 33)]).
Proof. vm_compute. reflexivity. Qed.

Example ParseEnum_implicit :
  (fun p => enum_defs_ p !! "Color") <$>
    parse_header (text ["enum Color {"; "    RED,"; "    GREEN,"; "    BLUE"; "};"])
  = Return (Some [("RED", 0); ("GREEN", 1); ("BLUE", 2)]).
Proof. vm_compute. reflexivity. Qed.

(** a member [= 0] stops the parse of the enum: [IsNumericToken] refuses
    the literal 0, and nothing is registered *)
Example ParseEnum_zero :
  (fun p => enum_defs_ p !! "Color") <$>
    parse_header (text ["enum Color {"; "    RED = 0,"; "    GREEN"; "};"])
  = Return None.
Proof. vm_compute. reflexivity. Qed.
(** ** C9: visited files *)

(** *** The aggregate parsers leave [header_files_] alone *)

Lemma StoreStructUnionDef_files (is_struct : bool) (type_name : string)
    (members members' : list VariableDeclaration) (p p' : TypeParser) :
  StoreStructUnionDef is_struct type_name members p = Return (members', p') ->
  header_files_ p' = header_files_ p.
Proof.
  unfold StoreStructUnionDef. intros H.
  destruct is_struct.
  - destruct (PadStructMembers members) as [[m s] | | | | |];
      cbn [mbind outcome_bind] in H; try discriminate H.
    by injection H as _ <-.
  - destruct (CalcUnionSize members) as [s | | | | |];
      cbn [mbind outcome_bind] in H; try discriminate H.
    by injection H as _ <-.
Qed.

Lemma store_aggregate_files (is_struct : bool) (type_name : string)
    (members members' : list VariableDeclaration) (st st' : State) :
  store_aggregate is_struct type_name members st = Return (members', st') ->
  same_files st st'.
Proof.
  unfold store_aggregate, same_files. intros H.
  destruct (StoreStructUnionDef _ _ _ _) as [[m p] | | | | |] eqn:E;
    cbn [mbind outcome_bind] in H; try discriminate H.
  injection H as _ <-. symmetry. by eapply StoreStructUnionDef_files.
Qed.

Lemma ParseEnum_tail_files (fuel : nat) (w : World) (is_typedef : bool)
    (src : string) (pos : nat) (var_decl : VariableDeclaration)
    (type_name : string) (members : list (string * Z)) (st : State)
    (r : parsed) :
  ParseEnum_tail fuel w is_typedef src pos var_decl type_name members st = Return r ->
  same_files st r.2.
Proof.
  unfold ParseEnum_tail, same_files. intros H.
  outcome_inv H; cbn [snd]; repeat case_match; reflexivity.
Qed.

Lemma ParseEnum_loop_files (fuel : nat) (w : World) (is_typedef : bool) (src : string) :
  forall pos var_decl is_decl type_name members member last_value is_last_member st r,
    ParseEnum_loop fuel w is_typedef src pos var_decl is_decl type_name members
      member last_value is_last_member st = Return r ->
    same_files st r.2.
Proof.
  induction fuel as [| fuel IH]; intros pos var_decl is_decl type_name members
    member last_value is_last_member st r H; [discriminate H |].
  cbn [ParseEnum_loop] in H.
  destruct (GetNextToken src pos true) as [[ok pos1] token].
  destruct ok; cbn [negb] in H; [| by injection H as <-].
  destruct (at0 token) as [c | | | | |]; cbn [mbind outcome_bind] in H;
    try discriminate H.
  destruct (Ascii.eqb kBlockEnd c); [by eapply ParseEnum_tail_files |].
  destruct is_last_member; [by injection H as <- |].
  destruct (GetRestLine src pos1) as [[ok2 pos2] line].
  destruct (ParseEnumDeclaration _ _ _ _) as [[[[ok3 lv] mem] last] | | | | |];
    cbn [mbind outcome_bind] in H; try discriminate H.
  destruct ok3; cbn [negb] in H; [by eapply IH | by injection H as <-].
Qed.

Lemma ParseEnum_files (fuel : nat) (w : World) (is_typedef : bool) (src : string)
    (pos : nat) (var_decl : VariableDeclaration) (is_decl : bool) (st : State)
    (r : parsed) :
  ParseEnum fuel w is_typedef src pos var_decl is_decl st = Return r ->
  same_files st r.2.
Proof.
  unfold ParseEnum. intros H.
  destruct (assert _); cbn [mbind outcome_bind] in H; try discriminate H.
  destruct (rest_or_next_line src pos) as [[pos1 line] | | | | |];
    cbn [mbind outcome_bind] in H; try discriminate H.
  destruct (ParseDeclaration _ _ _) as [[ok vd] | | | | |];
    cbn [mbind outcome_bind] in H; try discriminate H.
  destruct ok; [by injection H as <- |].
  destruct (block_header src pos) as [[pos2 tn] | | | | |];
    cbn [mbind outcome_bind] in H; try discriminate H.
  by eapply ParseEnum_loop_files.
Qed.

Lemma ParseStructUnion_tail_files (fuel : nat) (w : World) (is_struct is_typedef : bool)
    (src : string) (pos : nat) (var_decl : VariableDeclaration)
    (type_name : string) (members : list VariableDeclaration) (st : State)
    (r : parsed) :
  ParseStructUnion_tail fuel w is_struct is_typedef src pos var_decl type_name
    members st = Return r ->
  same_files st r.2.
Proof.
  unfold ParseStructUnion_tail, same_files. intros H.
  outcome_inv H; cbn [snd];
    repeat match goal with
           | E : store_aggregate _ _ _ _ = Return _ |- _ =>
             apply store_aggregate_files in E; unfold same_files in E;
             cbn [parser] in E
           end;
    repeat case_match; cbn; congruence.
Qed.

Lemma ParseStructUnion_files (fuel : nat) (w : World) (src : string) :
  (forall is_struct is_typedef pos var_decl is_decl st r,
      ParseStructUnion fuel w is_struct is_typedef src pos var_decl is_decl st
      = Return r ->
      same_files st r.2) /\
  (forall is_struct is_typedef pos var_decl is_decl type_name members member st r,
      ParseStructUnion_loop fuel w is_struct is_typedef src pos var_decl is_decl
        type_name members member st = Return r ->
      same_files st r.2).
Proof.
  induction fuel as [| fuel [IHp IHl]]; [split; intros; discriminate |].
  split.
  - intros is_struct is_typedef pos var_decl is_decl st r H.
    cbn [ParseStructUnion] in H.
    destruct (assert _); cbn [mbind outcome_bind] in H; try discriminate H.
    destruct (rest_or_next_line src pos) as [[pos1 line] | | | | |];
      cbn [mbind outcome_bind] in H; try discriminate H.
    destruct (ParseDeclaration _ _ _) as [[ok vd] | | | | |];
      cbn [mbind outcome_bind] in H; try discriminate H.
    destruct ok; [by injection H as <- |].
    destruct (block_header src pos) as [[pos2 tn] | | | | |];
      cbn [mbind outcome_bind] in H; try discriminate H.
    by eapply IHl.
  - intros is_struct is_typedef pos var_decl is_decl type_name members member st r H.
    cbn [ParseStructUnion_loop] in H.
    destruct (GetNextToken src pos true) as [[ok pos1] token].
    destruct ok; cbn [negb] in H; [| by injection H as <-].
    destruct (at0 token) as [c | | | | |]; cbn [mbind outcome_bind] in H;
      try discriminate H.
    destruct (Ascii.eqb "}" c); [by eapply ParseStructUnion_tail_files |].
    destruct (GetTokenType (parser st) token);
      try (destruct (rest_or_next_line src pos1) as [[pos2 line] | | | | |];
           cbn [mbind outcome_bind] in H; try discriminate H;
           destruct (ParseDeclaration _ _ _) as [[ok vd] | | | | |];
           cbn [mbind outcome_bind] in H; try discriminate H;
           destruct ok; cbn [negb] in H; [by eapply IHl | by injection H as <-]).
    + destruct (ParseStructUnion fuel _ _ _ _ _ _ _ _)
        as [[[[[ok pos2] mem] isd] st1] | | | | |] eqn:E;
        cbn [mbind outcome_bind] in H; try discriminate H.
      apply IHp in E. cbn [snd] in E.
      destruct ok; cbn [negb] in H; [| by injection H as <-].
      destruct isd; cbn [assert mbind outcome_bind] in H; try discriminate H.
      apply IHl in H. unfold same_files in *. congruence.
    + destruct (ParseStructUnion fuel _ _ _ _ _ _ _ _)
        as [[[[[ok pos2] mem] isd] st1] | | | | |] eqn:E;
        cbn [mbind outcome_bind] in H; try discriminate H.
      apply IHp in E. cbn [snd] in E.
      destruct ok; cbn [negb] in H; [| by injection H as <-].
      destruct isd; cbn [assert mbind outcome_bind] in H; try discriminate H.
      apply IHl in H. unfold same_files in *. congruence.
    + destruct (ParseEnum fuel _ _ _ _ _ _ _)
        as [[[[[ok pos2] mem] isd] st1] | | | | |] eqn:E;
        cbn [mbind outcome_bind] in H; try discriminate H.
      apply ParseEnum_files in E. cbn [snd] in E.
      destruct ok; cbn [negb] in H; [| by injection H as <-].
      destruct isd; cbn [assert mbind outcome_bind] in H; try discriminate H.
      apply IHl in H. unfold same_files in *. congruence.
Qed.

(** *** Only [ParseFile] runs out of depth *)

Create HintDb no_depth.

Ltac depth_step H :=
  match type of H with
  | mbind _ ?c = OutOfDepth =>
    let E := fresh "E" in
    destruct c eqn:E; cbn [mbind outcome_bind] in H
  | (if ?b then _ else _) = OutOfDepth => destruct b eqn:?
  | match ?x with _ => _ end = OutOfDepth => destruct x eqn:?
  end.

Ltac no_depth :=
  repeat match goal with
         | H : Return _ = OutOfDepth |- _ => discriminate H
         | H : AssertFail = OutOfDepth |- _ => discriminate H
         | H : Throw = OutOfDepth |- _ => discriminate H
         | H : Undefined = OutOfDepth |- _ => discriminate H
         | H : OutOfFuel = OutOfDepth |- _ => discriminate H
         | H : OutOfDepth = OutOfDepth |- _ => clear H
         | H : _ = OutOfDepth |- _ => progress (depth_step H)
         | H : _ = OutOfDepth |- _ => solve [exfalso; eauto with no_depth]
         end.

Lemma assert_depth (b : bool) : assert b = OutOfDepth -> False.
Proof. by destruct b. Qed.
Lemma at0_depth (s : string) : at0 s = OutOfDepth -> False.
Proof. by destruct s. Qed.
Lemma vec_get_depth {A : Type} (v : list A) (i : nat) : vec_get v i = OutOfDepth -> False.
Proof. unfold vec_get. by destruct (nth_error v i). Qed.
Lemma align_up_double_depth (n : Z) : align_up_double n = OutOfDepth -> False.
Proof. unfold align_up_double. intros H. no_depth. Qed.
Lemma incr_int_depth (n : Z) : incr_int n = OutOfDepth -> False.
Proof. unfold incr_int. intros H. no_depth. Qed.
#[export] Hint Resolve assert_depth at0_depth vec_get_depth align_up_double_depth
  incr_int_depth : no_depth.

Lemma PadStructMembers_loop_depth (rest : list VariableDeclaration) :
  forall before total last_size,
    PadStructMembers_loop rest before total last_size = OutOfDepth -> False.
Proof.
  induction rest as [| m rest IH]; intros before total last_size H;
    cbn [PadStructMembers_loop] in H; [discriminate H |].
  no_depth; eauto.
Qed.
#[export] Hint Resolve PadStructMembers_loop_depth : no_depth.

Lemma PadStructMembers_depth (members : list VariableDeclaration) :
  PadStructMembers members = OutOfDepth -> False.
Proof. apply PadStructMembers_loop_depth. Qed.
Lemma CalcUnionSize_depth (members : list VariableDeclaration) :
  CalcUnionSize members = OutOfDepth -> False.
Proof. unfold CalcUnionSize. intros H. no_depth. Qed.
#[export] Hint Resolve PadStructMembers_depth CalcUnionSize_depth : no_depth.

Lemma StoreStructUnionDef_depth (is_struct : bool) (type_name : string)
    (members : list VariableDeclaration) (p : TypeParser) :
  StoreStructUnionDef is_struct type_name members p = OutOfDepth -> False.
Proof. unfold StoreStructUnionDef. intros H. no_depth. Qed.
#[export] Hint Resolve StoreStructUnionDef_depth : no_depth.

Lemma store_aggregate_depth (is_struct : bool) (type_name : string)
    (members : list VariableDeclaration) (st : State) :
  store_aggregate is_struct type_name members st = OutOfDepth -> False.
Proof. unfold store_aggregate. intros H. no_depth. Qed.

Lemma GetNextLine_depth (src : string) (pos : nat) :
  GetNextLine src pos = OutOfDepth -> False.
Proof. unfold GetNextLine. intros H. no_depth. Qed.
#[export] Hint Resolve store_aggregate_depth GetNextLine_depth : no_depth.

Lemma rest_or_next_line_depth (src : string) (pos : nat) :
  rest_or_next_line src pos = OutOfDepth -> False.
Proof. unfold rest_or_next_line. intros H. no_depth. Qed.

Lemma ParseDeclaration_depth (p : TypeParser) (line : string)
    (decl : VariableDeclaration) :
  ParseDeclaration p line decl = OutOfDepth -> False.
Proof. unfold ParseDeclaration. intros H. no_depth. Qed.

Lemma ParseEnumDeclaration_depth (p : TypeParser) (line : string)
    (last_value : Z) (decl : string * Z) :
  ParseEnumDeclaration p line last_value decl = OutOfDepth -> False.
Proof. unfold ParseEnumDeclaration. intros H. no_depth. Qed.

Lemma ParseAssignExpression_depth (p : TypeParser) (line : string) :
  ParseAssignExpression p line = OutOfDepth -> False.
Proof. unfold ParseAssignExpression. intros H. no_depth. Qed.

Lemma block_header_depth (src : string) (start : nat) :
  block_header src start = OutOfDepth -> False.
Proof. unfold block_header. intros H. no_depth. Qed.

Lemma anonymous_name_depth {V : Type} (fuel : nat) (w : World) (defs : gmap string V) :
  forall calls, anonymous_name fuel w defs calls = OutOfDepth -> False.
Proof.
  induction fuel as [| fuel IH]; intros calls H; cbn [anonymous_name] in H;
    [discriminate H |].
  no_depth; eauto.
Qed.
#[export] Hint Resolve rest_or_next_line_depth ParseDeclaration_depth
  ParseEnumDeclaration_depth ParseAssignExpression_depth block_header_depth
  anonymous_name_depth : no_depth.

Lemma wrap_line_depth (rest : list string) :
  forall line, wrap_line line rest = OutOfDepth -> False.
Proof.
  induction rest as [| next rest IH]; intros line H; cbn [wrap_line] in H;
    no_depth; eauto.
Qed.
#[export] Hint Resolve wrap_line_depth : no_depth.

Lemma WrapLines_loop_depth (fuel : nat) :
  forall done rest, WrapLines_loop fuel done rest = OutOfDepth -> False.
Proof.
  induction fuel as [| fuel IH]; intros done rest H; cbn [WrapLines_loop] in H;
    no_depth; eauto.
Qed.
#[export] Hint Resolve WrapLines_loop_depth : no_depth.

Lemma MergeAllLines_depth (lines : list string) :
  MergeAllLines lines = OutOfDepth -> False.
Proof.
  induction lines as [| line lines IH]; intros H; cbn [MergeAllLines] in H;
    no_depth; eauto.
Qed.
#[export] Hint Resolve MergeAllLines_depth : no_depth.

Lemma Preprocess_depth (content : string) : Preprocess content = OutOfDepth -> False.
Proof. unfold Preprocess, WrapLines. intros H. no_depth. Qed.
#[export] Hint Resolve Preprocess_depth : no_depth.

Lemma ParseEnum_tail_depth (fuel : nat) (w : World) (is_typedef : bool)
    (src : string) (pos : nat) (var_decl : VariableDeclaration)
    (type_name : string) (members : list (string * Z)) (st : State) :
  ParseEnum_tail fuel w is_typedef src pos var_decl type_name members st = OutOfDepth ->
  False.
Proof. unfold ParseEnum_tail. intros H. no_depth. Qed.
#[export] Hint Resolve ParseEnum_tail_depth : no_depth.

Lemma ParseEnum_loop_depth (fuel : nat) (w : World) (is_typedef : bool) (src : string) :
  forall pos var_decl is_decl type_name members member last_value is_last_member st,
    ParseEnum_loop fuel w is_typedef src pos var_decl is_decl type_name members
      member last_value is_last_member st = OutOfDepth -> False.
Proof.
  induction fuel as [| fuel IH]; intros pos var_decl is_decl type_name members
    member last_value is_last_member st H; cbn [ParseEnum_loop] in H;
    [discriminate H |].
  no_depth; eauto.
Qed.
#[export] Hint Resolve ParseEnum_loop_depth : no_depth.

Lemma ParseEnum_depth (fuel : nat) (w : World) (is_typedef : bool) (src : string)
    (pos : nat) (var_decl : VariableDeclaration) (is_decl : bool) (st : State) :
  ParseEnum fuel w is_typedef src pos var_decl is_decl st = OutOfDepth -> False.
Proof. unfold ParseEnum. intros H. no_depth. Qed.

Lemma ParseStructUnion_tail_depth (fuel : nat) (w : World) (is_struct is_typedef : bool)
    (src : string) (pos : nat) (var_decl : VariableDeclaration)
    (type_name : string) (members : list VariableDeclaration) (st : State) :
  ParseStructUnion_tail fuel w is_struct is_typedef src pos var_decl type_name
    members st = OutOfDepth -> False.
Proof. unfold ParseStructUnion_tail. intros H. no_depth. Qed.
#[export] Hint Resolve ParseEnum_depth ParseStructUnion_tail_depth : no_depth.

Lemma ParseStructUnion_depth (fuel : nat) (w : World) (src : string) :
  (forall is_struct is_typedef pos var_decl is_decl st,
      ParseStructUnion fuel w is_struct is_typedef src pos var_decl is_decl st
      = OutOfDepth -> False) /\
  (forall is_struct is_typedef pos var_decl is_decl type_name members member st,
      ParseStructUnion_loop fuel w is_struct is_typedef src pos var_decl is_decl
        type_name members member st = OutOfDepth -> False).
Proof.
  induction fuel as [| fuel [IHp IHl]]; [split; intros; discriminate |].
  split.
  - intros is_struct is_typedef pos var_decl is_decl st H.
    cbn [ParseStructUnion] in H. no_depth; eauto.
  - intros is_struct is_typedef pos var_decl is_decl type_name members member st H.
    cbn [ParseStructUnion_loop] in H. no_depth; eauto.
Qed.

(** *** The loop of [ParseSource] under an invariant of the states *)

Lemma ParseAssignExpression_files (p p' : TypeParser) (line : string) (ok : bool) :
  ParseAssignExpression p line = Return (ok, p') ->
  header_files_ p' = header_files_ p.
Proof.
  unfold ParseAssignExpression. intros H.
  outcome_inv H; reflexivity.
Qed.

Section ParseSource_invariant.
Variable w : World.
Variable parse_file : string -> State -> outcome State.
Variable P : State -> Prop.
Hypothesis P_files : forall st st', same_files st st' -> P st -> P st'.
Hypothesis parse_file_P :
  forall f st st', P st -> parse_file f st = Return st' -> P st'.

Lemma ParsePreProcDirective_invariant (src : string) (pos pos' : nat) (st st' : State) :
  P st ->
  ParsePreProcDirective parse_file src pos st = Return (pos', st') ->
  P st'.
Proof.
  unfold ParsePreProcDirective. intros HP H.
  destruct (GetNextToken src pos true) as [[ok0 pos0] token0].
  destruct (String.eqb token0 "include").
  - destruct (GetNextToken src pos0 false) as [[ok1 pos1] token1].
    destruct ok1; cbn [assert mbind outcome_bind] in H; [| discriminate H].
    destruct (Ascii.eqb kQuotation (last_char token1)).
    + destruct (GetNextToken src pos1 false) as [[ok2 pos2] token2].
      destruct ok2; cbn [assert mbind outcome_bind] in H; [| discriminate H].
      destruct (parse_file token2 st) as [st1 | | | | |] eqn:E;
        cbn [mbind outcome_bind] in H; try discriminate H.
      injection H as _ <-. by eapply parse_file_P.
    + by injection H as _ <-.
  - destruct (String.eqb token0 "define"); [| by injection H as _ <-].
    destruct (GetNextToken src pos0 false) as [[ok1 pos1] token1].
    destruct ok1; cbn [assert mbind outcome_bind] in H; [| discriminate H].
    destruct (GetNextToken src pos1 false) as [[ok2 pos2] token2].
    destruct ok2; [| by injection H as _ <-].
    destruct (IsNumericToken (parser st) token2) as [numeric number].
    destruct numeric; [| by injection H as _ <-].
    injection H as _ <-. eapply P_files; [| exact HP]. reflexivity.
Qed.

Lemma ParseSource_loop_invariant (fuel : nat) (src : string) :
  forall pos is_typedef decl is_decl st st',
    P st ->
    ParseSource_loop fuel w parse_file src pos is_typedef decl is_decl st = Return st' ->
    P st'.
Proof.
  induction fuel as [| fuel IH]; intros pos is_typedef decl is_decl st st' HP H;
    [discriminate H |].
  cbn [ParseSource_loop] in H.
  destruct (GetNextToken src pos true) as [[ok pos1] token].
  destruct ok; cbn [negb] in H; [| by injection H as <-].
  destruct (slen token =? 1)%nat.
  - destruct (Ascii.eqb (char_at token 0) kPoundSign).
    + destruct (ParsePreProcDirective parse_file src pos1 st) as [[pos2 st1] | | | | |] eqn:E;
        cbn [mbind outcome_bind] in H; try discriminate H.
      eapply IH; [| exact H]. by eapply ParsePreProcDirective_invariant.
    + destruct (_ || _); by eapply IH.
  - destruct (GetTokenType (parser st) token); try (by eapply IH).
    + destruct (ParseStructUnion fuel _ _ _ _ _ _ _ _)
        as [[[[[ok pos2] d] isd] st1] | | | | |] eqn:E;
        cbn [mbind outcome_bind] in H; try discriminate H.
      destruct (ok && negb isd); cbn [assert mbind outcome_bind] in H;
        [| discriminate H].
      eapply IH; [| exact H].
      apply (proj1 (ParseStructUnion_files fuel w src)) in E. by eapply P_files.
    + destruct (ParseStructUnion fuel _ _ _ _ _ _ _ _)
        as [[[[[ok pos2] d] isd] st1] | | | | |] eqn:E;
        cbn [mbind outcome_bind] in H; try discriminate H.
      destruct (ok && negb isd); cbn [assert mbind outcome_bind] in H;
        [| discriminate H].
      eapply IH; [| exact H].
      apply (proj1 (ParseStructUnion_files fuel w src)) in E. by eapply P_files.
    + destruct (ParseEnum fuel _ _ _ _ _ _ _)
        as [[[[[ok pos2] d] isd] st1] | | | | |] eqn:E;
        cbn [mbind outcome_bind] in H; try discriminate H.
      apply ParseEnum_files in E. cbn [snd] in E.
      destruct (negb ok || isd).
      * injection H as <-. by eapply P_files.
      * eapply IH; [| exact H]. by eapply P_files.
    + destruct (GetRestLine src pos1) as [[ok2 pos2] line].
      destruct ok2; cbn [assert mbind outcome_bind] in H; [| discriminate H].
      destruct (ParseAssignExpression (parser st) line) as [[ok3 p'] | | | | |] eqn:E;
        cbn [mbind outcome_bind] in H; try discriminate H.
      eapply IH; [| exact H].
      apply ParseAssignExpression_files in E.
      eapply P_files; [| exact HP]. unfold same_files. cbn [parser]. by rewrite E.
Qed.

Hypothesis parse_file_depth :
  forall f st, P st -> parse_file f st = OutOfDepth -> False.

Lemma ParsePreProcDirective_depth (src : string) (pos : nat) (st : State) :
  P st -> ParsePreProcDirective parse_file src pos st = OutOfDepth -> False.
Proof.
  unfold ParsePreProcDirective. intros HP H. no_depth; eauto.
Qed.

Lemma ParseSource_loop_depth (fuel : nat) (src : string) :
  forall pos is_typedef decl is_decl st,
    P st ->
    ParseSource_loop fuel w parse_file src pos is_typedef decl is_decl st = OutOfDepth ->
    False.
Proof.
  induction fuel as [| fuel IH]; intros pos is_typedef decl is_decl st HP H;
    [discriminate H |].
  cbn [ParseSource_loop] in H.
  destruct (GetNextToken src pos true) as [[ok pos1] token].
  destruct ok; cbn [negb] in H; [| discriminate H].
  destruct (slen token =? 1)%nat.
  - destruct (Ascii.eqb (char_at token 0) kPoundSign).
    + destruct (ParsePreProcDirective parse_file src pos1 st) as [[pos2 st1] | | | | |] eqn:E;
        cbn [mbind outcome_bind] in H; try discriminate H.
      * eapply IH; [| exact H]. by eapply ParsePreProcDirective_invariant.
      * by eapply ParsePreProcDirective_depth.
    + destruct (_ || _); by eapply IH.
  - destruct (GetTokenType (parser st) token); try (by eapply IH).
    + destruct (ParseStructUnion fuel _ _ _ _ _ _ _ _)
        as [[[[[ok pos2] d] isd] st1] | | | | |] eqn:E;
        cbn [mbind outcome_bind] in H; try discriminate H.
      * destruct (ok && negb isd); cbn [assert mbind outcome_bind] in H;
          [| discriminate H].
        eapply IH; [| exact H].
        apply (proj1 (ParseStructUnion_files fuel w src)) in E. by eapply P_files.
      * by eapply (proj1 (ParseStructUnion_depth fuel w src)).
    + destruct (ParseStructUnion fuel _ _ _ _ _ _ _ _)
        as [[[[[ok pos2] d] isd] st1] | | | | |] eqn:E;
        cbn [mbind outcome_bind] in H; try discriminate H.
      * destruct (ok && negb isd); cbn [assert mbind outcome_bind] in H;
          [| discriminate H].
        eapply IH; [| exact H].
        apply (proj1 (ParseStructUnion_files fuel w src)) in E. by eapply P_files.
      * by eapply (proj1 (ParseStructUnion_depth fuel w src)).
    + destruct (ParseEnum fuel _ _ _ _ _ _ _)
        as [[[[[ok pos2] d] isd] st1] | | | | |] eqn:E;
        cbn [mbind outcome_bind] in H; try discriminate H.
      * apply ParseEnum_files in E. cbn [snd] in E.
        destruct (negb ok || isd); [discriminate H |].
        eapply IH; [| exact H]. by eapply P_files.
      * by eapply ParseEnum_depth.
    + destruct (GetRestLine src pos1) as [[ok2 pos2] line].
      destruct ok2; cbn [assert mbind outcome_bind] in H; [| discriminate H].
      destruct (ParseAssignExpression (parser st) line) as [[ok3 p'] | | | | |] eqn:E;
        cbn [mbind outcome_bind] in H; try discriminate H.
      * eapply IH; [| exact H].
        apply ParseAssignExpression_files in E.
        eapply P_files; [| exact HP]. unfold same_files. cbn [parser]. by rewrite E.
      * by eapply ParseAssignExpression_depth.
Qed.
End ParseSource_invariant.

(** *** [ParseFile] *)

Lemma marks_kept_refl (st : State) : marks_kept st st.
Proof. by intros f. Qed.

Lemma marks_kept_trans (st1 st2 st3 : State) :
  marks_kept st1 st2 -> marks_kept st2 st3 -> marks_kept st1 st3.
Proof. intros H12 H23 f Hf. by apply H23, H12. Qed.

Lemma marks_kept_files (st0 st st' : State) :
  same_files st st' -> marks_kept st0 st -> marks_kept st0 st'.
Proof. unfold same_files, marks_kept. intros Hsame H f Hf. rewrite <- Hsame. by apply H. Qed.

Lemma mark_file_kept (file : string) (st : State) : marks_kept st (mark_file file st).
Proof.
  intros f Hf. unfold mark_file. cbn.
  destruct (decide (file = f)) as [-> | Hne].
  - apply lookup_insert_eq.
  - by rewrite lookup_insert_ne.
Qed.

Lemma mark_file_marked (file : string) (st : State) :
  header_files_ (parser (mark_file file st)) !! file = Some true.
Proof. unfold mark_file. cbn. apply lookup_insert_eq. Qed.

(** [ParseFile] keeps the marks, and leaves the file marked when it could
    be opened *)
Lemma ParseFile_marks (w : World) (depth : nat) :
  forall fuel file st st',
    ParseFile depth fuel w file st = Return st' ->
    marks_kept st st' /\
    (is_Some (files w !! file) -> header_files_ (parser st') !! file = Some true).
Proof.
  induction depth as [| depth IH]; intros fuel file st st' H; [discriminate H |].
  cbn [ParseFile] in H.
  case_bool_decide as Hmarked.
  - injection H as <-. split; [apply marks_kept_refl | done].
  - destruct (files w !! file) as [content |] eqn:Hfile.
    + fold (mark_file file st) in H.
      destruct (Preprocess content) as [src | | | | |];
        cbn [mbind outcome_bind] in H; try discriminate H.
      assert (Hkept : marks_kept (mark_file file st) st').
      { unfold ParseSource in H.
        eapply (ParseSource_loop_invariant w (ParseFile depth fuel w)
                  (marks_kept (mark_file file st))); [| | | exact H].
        - intros s s'. apply marks_kept_files.
        - intros f s s' Hs Hf. apply IH in Hf as [Hf _].
          by eapply marks_kept_trans.
        - apply marks_kept_refl. }
      split.
      * eapply marks_kept_trans; [apply mark_file_kept | exact Hkept].
      * intros _. apply Hkept, mark_file_marked.
    + injection H as <-. split; [apply marks_kept_refl |].
      intros [x Hx]. discriminate Hx.
Qed.

Lemma unmarked_kept (w : World) (st st' : State) :
  marks_kept st st' -> unmarked w st' ⊆ unmarked w st.
Proof.
  intros Hkept f Hin. unfold unmarked in *.
  apply elem_of_filter in Hin as [Hf Hdom].
  apply elem_of_filter. split; [| exact Hdom].
  intros Hm. by apply Hf, Hkept.
Qed.

Lemma unmarked_mark_file (w : World) (file : string) (st : State) :
  is_Some (files w !! file) ->
  header_files_ (parser st) !! file <> Some true ->
  (size (unmarked w (mark_file file st)) < size (unmarked w st))%nat.
Proof.
  intros Hfile Hmarked. apply subset_size. split.
  - apply unmarked_kept, mark_file_kept.
  - intros Hsub. specialize (Hsub file).
    unfold unmarked in Hsub.
    assert (Hin : file ∈ filter (fun f => header_files_ (parser st) !! f <> Some true)
                           (dom (files w))).
    { apply elem_of_filter. split; [exact Hmarked | by apply elem_of_dom]. }
    apply Hsub, elem_of_filter in Hin as [Hf _].
    apply Hf, mark_file_marked.
Qed.

(** the nesting of [ParseFile] stays within the number of files that can
    be opened and are not yet marked *)
Lemma ParseFile_depth_bound (w : World) (depth : nat) :
  forall fuel file st,
    (size (unmarked w st) < depth)%nat ->
    ParseFile depth fuel w file st <> OutOfDepth.
Proof.
  induction depth as [| depth IH]; intros fuel file st Hsize H; [lia |].
  cbn [ParseFile] in H.
  case_bool_decide as Hmarked; [discriminate H |].
  destruct (files w !! file) as [content |] eqn:Hfile; [| discriminate H].
  fold (mark_file file st) in H.
  pose proof (unmarked_mark_file w file st ltac:(by eexists) Hmarked) as Hless.
  destruct (Preprocess content) as [src | | | | |] eqn:Hpre;
    cbn [mbind outcome_bind] in H; try discriminate H;
    [| by eapply Preprocess_depth].
  unfold ParseSource in H.
  eapply (ParseSource_loop_depth w (ParseFile depth fuel w)
            (marks_kept (mark_file file st))); [| | | | exact H].
  - intros s s'. apply marks_kept_files.
  - intros f s s' Hs Hf. apply ParseFile_marks in Hf as [Hf _].
    by eapply marks_kept_trans.
  - intros f s Hs. apply IH.
    pose proof (subseteq_size _ _ (unmarked_kept w _ _ Hs)). lia.
  - apply marks_kept_refl.
Qed.



(** two headers that include each other are each parsed once: [a.h]
    includes [b.h], whose include of [a.h] returns at once *)
Example ParseFile_circular :
  (fun st => (header_files_ (parser st) !! "a.h", header_files_ (parser st) !! "b.h",
              const_defs_ (parser st) !! "A", const_defs_ (parser st) !! "B")) <$>
    ParseFile 3 100 circular_headers "a.h" (mkState Initialize 0)
  = Return (Some true, Some true, Some 1, Some 2).
Proof. vm_compute. reflexivity. Qed.

(** without the mark the second header would go back into the first: with
    a depth of 1 the include of [b.h] cannot be followed *)
Example ParseFile_circular_depth_1 :
  ParseFile 1 100 circular_headers "a.h" (mkState Initialize 0) = OutOfDepth.
Proof. vm_compute. reflexivity. Qed.

(** * Further properties of the code *)

(** ** Strings as lists of characters *)

Lemma chars_inj (a b : string) :
  list_ascii_of_string a = list_ascii_of_string b -> a = b.
Proof.
  intros H. rewrite <- (string_of_list_ascii_of_string a),
    <- (string_of_list_ascii_of_string b). by rewrite H.
Qed.

Lemma chars_length (s : string) : length (list_ascii_of_string s) = slen s.
Proof. unfold slen. induction s as [| c s IH]; simpl; [done | by rewrite IH]. Qed.

Lemma chars_append (a b : string) :
  list_ascii_of_string (a +:+ b) = list_ascii_of_string a ++ list_ascii_of_string b.
Proof.
  induction a as [| c a IH]; [reflexivity |].
  change (String c a +:+ b) with (String c (a +:+ b)). simpl. by rewrite IH.
Qed.

Lemma chars_substring (s : string) :
  forall n m, list_ascii_of_string (String.substring n m s)
              = take m (drop n (list_ascii_of_string s)).
Proof.
  induction s as [| c s IH]; intros n m.
  - destruct n, m; reflexivity.
  - destruct n as [| n]; simpl.
    + destruct m as [| m]; [reflexivity |]. simpl. f_equal. apply (IH O m).
    + apply IH.
Qed.

Lemma chars_substr_from (s : string) (pos : nat) :
  list_ascii_of_string (substr_from s pos) = drop pos (list_ascii_of_string s).
Proof.
  unfold substr_from. rewrite chars_substring. apply take_ge.
  rewrite length_drop, chars_length. lia.
Qed.

Lemma chars_substr (s : string) (pos n : nat) :
  list_ascii_of_string (substr s pos n) = take n (drop pos (list_ascii_of_string s)).
Proof.
  unfold substr. rewrite chars_substring.
  destruct (Nat.le_gt_cases n (slen s - pos)) as [Hle | Hgt].
  - by rewrite Nat.min_l.
  - rewrite Nat.min_r by lia.
    rewrite !take_ge; [done | |]; rewrite length_drop, chars_length; lia.
Qed.

Lemma char_at_lookup (s : string) (i : nat) (c : ascii) :
  list_ascii_of_string s !! i = Some c -> char_at s i = c.
Proof.
  unfold char_at. revert i. induction s as [| a s IH]; intros i H; [done |].
  destruct i as [| i]; simpl in *; [congruence | by apply IH].
Qed.

Lemma char_at_outside (s : string) (i : nat) :
  (slen s <= i)%nat -> char_at s i = Ascii.zero.
Proof.
  unfold char_at, slen. revert i. induction s as [| a s IH]; intros i H; [by destruct i |].
  destruct i as [| i]; simpl in *; [lia | apply IH; lia].
Qed.

Lemma is_empty_chars (s : string) : is_empty s = true <-> list_ascii_of_string s = [].
Proof. by destruct s. Qed.

Lemma is_empty_slen (s : string) : is_empty s = true <-> slen s = O.
Proof. by destruct s. Qed.

Lemma slen_append (a b : string) : slen (a +:+ b) = (slen a + slen b)%nat.
Proof. by rewrite <- !chars_length, chars_append, length_app. Qed.

Lemma slen_substr (s : string) (pos n : nat) :
  slen (substr s pos n) = Nat.min n (slen s - pos).
Proof. by rewrite <- !chars_length, chars_substr, length_take, length_drop. Qed.

(** *** Searches *)

Lemma find_char_aux_spec (c : ascii) (s : string) :
  forall i,
    match find_char_aux c s i with
    | Some j =>
      (i <= j)%nat /\ list_ascii_of_string s !! (j - i)%nat = Some c /\
      Forall (fun a => a <> c) (take (j - i) (list_ascii_of_string s))
    | None => Forall (fun a => a <> c) (list_ascii_of_string s)
    end.
Proof.
  induction s as [| a s IH]; intros i; cbn [find_char_aux]; [constructor |].
  destruct (Ascii.eqb_spec a c) as [-> | Hne].
  - rewrite Nat.sub_diag. by repeat split.
  - specialize (IH (S i)). destruct (find_char_aux c s (S i)) as [j |].
    + destruct IH as (Hle & Hj & Hbefore).
      replace (j - i)%nat with (S (j - S i)) by lia. simpl.
      repeat split; [lia | done | by constructor].
    + simpl. by constructor.
Qed.

Lemma find_char_spec (c : ascii) (s : string) (pos : nat) :
  match find_char c s pos with
  | Some j =>
    (pos <= j < slen s)%nat /\ list_ascii_of_string s !! j = Some c /\
    Forall (fun a => a <> c) (take (j - pos) (drop pos (list_ascii_of_string s)))
  | None => Forall (fun a => a <> c) (drop pos (list_ascii_of_string s))
  end.
Proof.
  unfold find_char. pose proof (find_char_aux_spec c (substr_from s pos) pos) as H.
  rewrite chars_substr_from in H.
  destruct (find_char_aux c (substr_from s pos) pos) as [j |]; [| exact H].
  destruct H as (Hle & Hj & Hbefore).
  rewrite lookup_drop in Hj. replace (pos + (j - pos))%nat with j in Hj by lia.
  repeat split; try done.
  apply lookup_lt_Some in Hj. by rewrite chars_length in Hj.
Qed.

Lemma mem_char_spec (c : ascii) (set : string) :
  mem_char c set = true <-> c ∈ list_ascii_of_string set.
Proof.
  induction set as [| a set IH]; simpl.
  - split; [discriminate | by intros ?%elem_of_nil].
  - rewrite elem_of_cons, orb_true_iff, IH.
    split; intros [H | H]; auto; left.
    + by apply Ascii.eqb_eq in H.
    + apply Ascii.eqb_eq. done.
Qed.

Lemma find_first_of_aux_spec (set : string) (s : string) :
  forall i,
    match find_first_of_aux set s i with
    | Some j =>
      (i <= j)%nat /\
      (exists c, list_ascii_of_string s !! (j - i)%nat = Some c /\ mem_char c set = true) /\
      Forall (fun a => mem_char a set = false) (take (j - i) (list_ascii_of_string s))
    | None => Forall (fun a => mem_char a set = false) (list_ascii_of_string s)
    end.
Proof.
  induction s as [| a s IH]; intros i; cbn [find_first_of_aux]; [constructor |].
  destruct (mem_char a set) eqn:E.
  - rewrite Nat.sub_diag. repeat split; [lia | by exists a | constructor].
  - specialize (IH (S i)). destruct (find_first_of_aux set s (S i)) as [j |].
    + destruct IH as (Hle & Hj & Hbefore).
      replace (j - i)%nat with (S (j - S i)) by lia. simpl.
      repeat split; [lia | done | by constructor].
    + simpl. by constructor.
Qed.

Lemma find_first_of_spec (set : string) (s : string) (pos : nat) :
  match find_first_of set s pos with
  | Some j =>
    (pos <= j < slen s)%nat /\
    (exists c, list_ascii_of_string s !! j = Some c /\ mem_char c set = true) /\
    Forall (fun a => mem_char a set = false)
      (take (j - pos) (drop pos (list_ascii_of_string s)))
  | None => Forall (fun a => mem_char a set = false) (drop pos (list_ascii_of_string s))
  end.
Proof.
  unfold find_first_of.
  pose proof (find_first_of_aux_spec set (substr_from s pos) pos) as H.
  rewrite chars_substr_from in H.
  destruct (find_first_of_aux set (substr_from s pos) pos) as [j |]; [| exact H].
  destruct H as (Hle & (c & Hj & Hc) & Hbefore).
  rewrite lookup_drop in Hj. replace (pos + (j - pos))%nat with j in Hj by lia.
  repeat split; try done; [| by exists c].
  apply lookup_lt_Some in Hj. by rewrite chars_length in Hj.
Qed.

Lemma all_chars_Forall (f : ascii -> bool) (s : string) :
  all_chars f s = true <-> Forall (fun c => f c = true) (list_ascii_of_string s).
Proof.
  unfold all_chars. rewrite forallb_forall, Forall_forall.
  split; intros H c Hc; apply H; by apply list_elem_of_In.
Qed.
(** ** Every change of the registry is one of its updates *)

Lemma registry_updates_refl (p : TypeParser) : registry_updates p p.
Proof. apply rtc_refl. Qed.

Lemma registry_updates_once (p p' : TypeParser) :
  registry_update p p' -> registry_updates p p'.
Proof. apply rtc_once. Qed.

Lemma registry_updates_trans (p1 p2 p3 : TypeParser) :
  registry_updates p1 p2 -> registry_updates p2 p3 -> registry_updates p1 p3.
Proof. apply rtc_trans. Qed.

Lemma StoreStructUnionDef_stored (is_struct : bool) (name : string)
    (members members' : list VariableDeclaration) (p p' : TypeParser) :
  StoreStructUnionDef is_struct name members p = Return (members', p') ->
  is_Some ((if is_struct then struct_defs_ p' else union_defs_ p') !! name) /\
  is_Some (type_sizes_ p' !! name).
Proof.
  unfold StoreStructUnionDef. intros H.
  destruct is_struct; outcome_inv H; cbn; rewrite !lookup_insert_eq; eauto.
Qed.

Lemma store_aggregate_updates (is_struct : bool) (name : string)
    (members members' : list VariableDeclaration) (st st' : State) :
  store_aggregate is_struct name members st = Return (members', st') ->
  registry_update (parser st) (parser st') /\
  is_Some ((if is_struct then struct_defs_ (parser st') else union_defs_ (parser st')) !! name) /\
  is_Some (type_sizes_ (parser st') !! name).
Proof.
  unfold store_aggregate. intros H.
  destruct (StoreStructUnionDef _ _ _ _) as [[m p] | | | | |] eqn:E;
    cbn [mbind outcome_bind] in H; try discriminate H.
  injection H as <- <-. cbn [parser].
  split; [by eapply update_aggregate | by eapply StoreStructUnionDef_stored].
Qed.

Lemma ParseEnum_tail_updates (fuel : nat) (w : World) (is_typedef : bool)
    (src : string) (pos : nat) (var_decl : VariableDeclaration)
    (type_name : string) (members : list (string * Z)) (st : State)
    (r : parsed) :
  ParseEnum_tail fuel w is_typedef src pos var_decl type_name members st = Return r ->
  registry_updates (parser st) (parser r.2).
Proof.
  unfold ParseEnum_tail. intros H.
  destruct (GetNextToken src pos true) as [[ok pos1] token].
  destruct ok; cbn [assert mbind outcome_bind] in H; [| discriminate H].
  destruct is_typedef.
  - destruct (GetNextToken src pos1 true) as [[ok2 pos2] next_token].
    destruct ok2; cbn [assert mbind outcome_bind] in H; [| discriminate H].
    destruct (at0 next_token) as [c | | | | |]; cbn [mbind outcome_bind] in H;
      try discriminate H.
    destruct (Ascii.eqb kSemicolon c); cbn [assert mbind outcome_bind] in H;
      [| discriminate H].
    injection H as <-. cbn [snd].
    destruct (negb (is_empty type_name) && negb (String.eqb token type_name));
      cbn [parser set_parser].
    + eapply registry_updates_trans; apply registry_updates_once, update_enum.
    + apply registry_updates_once, update_enum.
  - destruct (at0 token) as [c | | | | |]; cbn [mbind outcome_bind] in H;
      try discriminate H.
    destruct (Ascii.eqb kSemicolon c).
    + destruct (negb (is_empty type_name)); cbn [assert mbind outcome_bind] in H;
        [| discriminate H].
      injection H as <-. cbn [snd parser set_parser].
      apply registry_updates_once, update_enum.
    + match type of H with
      | mbind _ ?c = _ => destruct c as [[name calls] | | | | |]
      end; cbn [mbind outcome_bind] in H; try discriminate H.
      destruct (rest_or_next_line src pos1) as [[pos2 line] | | | | |];
        cbn [mbind outcome_bind] in H; try discriminate H.
      destruct (ParseDeclaration _ _ _) as [[ok2 vd] | | | | |];
        cbn [mbind outcome_bind] in H; try discriminate H.
      injection H as <-. cbn [snd parser].
      apply registry_updates_once, update_enum.
Qed.

Lemma ParseEnum_loop_updates (fuel : nat) (w : World) (is_typedef : bool) (src : string) :
  forall pos var_decl is_decl type_name members member last_value is_last_member st r,
    ParseEnum_loop fuel w is_typedef src pos var_decl is_decl type_name members
      member last_value is_last_member st = Return r ->
    registry_updates (parser st) (parser r.2).
Proof.
  induction fuel as [| fuel IH]; intros pos var_decl is_decl type_name members
    member last_value is_last_member st r H; [discriminate H |].
  cbn [ParseEnum_loop] in H.
  destruct (GetNextToken src pos true) as [[ok pos1] token].
  destruct ok; cbn [negb] in H; [| injection H as <-; apply registry_updates_refl].
  destruct (at0 token) as [c | | | | |]; cbn [mbind outcome_bind] in H;
    try discriminate H.
  destruct (Ascii.eqb kBlockEnd c); [by eapply ParseEnum_tail_updates |].
  destruct is_last_member; [injection H as <-; apply registry_updates_refl |].
  destruct (GetRestLine src pos1) as [[ok2 pos2] line].
  destruct (ParseEnumDeclaration _ _ _ _) as [[[[ok3 lv] mem] last] | | | | |];
    cbn [mbind outcome_bind] in H; try discriminate H.
  destruct ok3; cbn [negb] in H;
    [by eapply IH | injection H as <-; apply registry_updates_refl].
Qed.

Lemma ParseEnum_updates (fuel : nat) (w : World) (is_typedef : bool) (src : string)
    (pos : nat) (var_decl : VariableDeclaration) (is_decl : bool) (st : State)
    (r : parsed) :
  ParseEnum fuel w is_typedef src pos var_decl is_decl st = Return r ->
  registry_updates (parser st) (parser r.2).
Proof.
  unfold ParseEnum. intros H.
  destruct (assert _); cbn [mbind outcome_bind] in H; try discriminate H.
  destruct (rest_or_next_line src pos) as [[pos1 line] | | | | |];
    cbn [mbind outcome_bind] in H; try discriminate H.
  destruct (ParseDeclaration _ _ _) as [[ok vd] | | | | |];
    cbn [mbind outcome_bind] in H; try discriminate H.
  destruct ok; [injection H as <-; apply registry_updates_refl |].
  destruct (block_header src pos) as [[pos2 tn] | | | | |];
    cbn [mbind outcome_bind] in H; try discriminate H.
  by eapply ParseEnum_loop_updates.
Qed.

Lemma alias_update (is_struct : bool) (type_name type_alias : string)
    (members : list VariableDeclaration) (p : TypeParser) :
  is_Some ((if is_struct then struct_defs_ p else union_defs_ p) !! type_alias) ->
  is_Some (type_sizes_ p !! type_alias) ->
  registry_update p
    (let p1 := if is_struct
               then set_struct_defs (fun d => <[type_name := members]> d) p
               else set_union_defs (fun d => <[type_name := members]> d) p in
     set_type_sizes
       (fun s => <[type_name := default 0 (type_sizes_ p1 !! type_alias)]> s) p1).
Proof.
  intros Hdef [size Hsize]. cbv zeta.
  replace (default 0 (type_sizes_ _ !! type_alias)) with size.
  - by apply (update_alias is_struct type_name type_alias members size p).
  - destruct is_struct; cbn [type_sizes_ set_struct_defs set_union_defs];
      by rewrite Hsize.
Qed.

Lemma ParseStructUnion_tail_updates (fuel : nat) (w : World) (is_struct is_typedef : bool)
    (src : string) (pos : nat) (var_decl : VariableDeclaration)
    (type_name : string) (members : list VariableDeclaration) (st : State)
    (r : parsed) :
  ParseStructUnion_tail fuel w is_struct is_typedef src pos var_decl type_name
    members st = Return r ->
  registry_updates (parser st) (parser r.2).
Proof.
  unfold ParseStructUnion_tail. intros H.
  destruct (GetNextToken src pos true) as [[ok pos1] token].
  destruct ok; cbn [assert mbind outcome_bind] in H; [| discriminate H].
  destruct is_typedef.
  - destruct (GetNextToken src pos1 true) as [[ok2 pos2] next_token].
    destruct ok2; cbn [assert mbind outcome_bind] in H; [| discriminate H].
    destruct (at0 next_token) as [c | | | | |]; cbn [mbind outcome_bind] in H;
      try discriminate H.
    destruct (Ascii.eqb kSemicolon c); cbn [assert mbind outcome_bind] in H;
      [| discriminate H].
    destruct (store_aggregate is_struct token members st) as [[members' st1] | | | | |]
      eqn:E; cbn [mbind outcome_bind] in H; try discriminate H.
    apply store_aggregate_updates in E as (Hupdate & Hdef & Hsize).
    injection H as <-. cbn [snd].
    destruct (negb (is_empty type_name) && negb (String.eqb token type_name));
      [| by apply registry_updates_once].
    eapply registry_updates_trans; [by apply registry_updates_once |].
    apply registry_updates_once. cbn [parser].
    by apply (alias_update is_struct type_name token members' (parser st1)).
  - destruct (at0 token) as [c | | | | |]; cbn [mbind outcome_bind] in H;
      try discriminate H.
    destruct (Ascii.eqb kSemicolon c).
    + destruct (negb (is_empty type_name)); cbn [assert mbind outcome_bind] in H;
        [| discriminate H].
      destruct (store_aggregate is_struct type_name members st)
        as [[members' st1] | | | | |] eqn:E;
        cbn [mbind outcome_bind] in H; try discriminate H.
      apply store_aggregate_updates in E as (Hupdate & _).
      injection H as <-. by apply registry_updates_once.
    + match type of H with
      | mbind _ ?c = _ => destruct c as [[name calls] | | | | |]
      end; cbn [mbind outcome_bind] in H; try discriminate H.
      destruct (store_aggregate is_struct name members _)
        as [[members' st1] | | | | |] eqn:E;
        cbn [mbind outcome_bind] in H; try discriminate H.
      apply store_aggregate_updates in E as (Hupdate & _). cbn [parser] in Hupdate.
      destruct (rest_or_next_line src pos1) as [[pos2 line] | | | | |];
        cbn [mbind outcome_bind] in H; try discriminate H.
      destruct (ParseDeclaration _ _ _) as [[ok2 vd] | | | | |];
        cbn [mbind outcome_bind] in H; try discriminate H.
      injection H as <-. by apply registry_updates_once.
Qed.

Lemma ParseStructUnion_updates (fuel : nat) (w : World) (src : string) :
  (forall is_struct is_typedef pos var_decl is_decl st r,
      ParseStructUnion fuel w is_struct is_typedef src pos var_decl is_decl st
      = Return r ->
      registry_updates (parser st) (parser r.2)) /\
  (forall is_struct is_typedef pos var_decl is_decl type_name members member st r,
      ParseStructUnion_loop fuel w is_struct is_typedef src pos var_decl is_decl
        type_name members member st = Return r ->
      registry_updates (parser st) (parser r.2)).
Proof.
  induction fuel as [| fuel [IHp IHl]]; [split; intros; discriminate |].
  split.
  - intros is_struct is_typedef pos var_decl is_decl st r H.
    cbn [ParseStructUnion] in H.
    destruct (assert _); cbn [mbind outcome_bind] in H; try discriminate H.
    destruct (rest_or_next_line src pos) as [[pos1 line] | | | | |];
      cbn [mbind outcome_bind] in H; try discriminate H.
    destruct (ParseDeclaration _ _ _) as [[ok vd] | | | | |];
      cbn [mbind outcome_bind] in H; try discriminate H.
    destruct ok; [injection H as <-; apply registry_updates_refl |].
    destruct (block_header src pos) as [[pos2 tn] | | | | |];
      cbn [mbind outcome_bind] in H; try discriminate H.
    by eapply IHl.
  - intros is_struct is_typedef pos var_decl is_decl type_name members member st r H.
    cbn [ParseStructUnion_loop] in H.
    destruct (GetNextToken src pos true) as [[ok pos1] token].
    destruct ok; cbn [negb] in H; [| injection H as <-; apply registry_updates_refl].
    destruct (at0 token) as [c | | | | |]; cbn [mbind outcome_bind] in H;
      try discriminate H.
    destruct (Ascii.eqb "}" c); [by eapply ParseStructUnion_tail_updates |].
    destruct (GetTokenType (parser st) token);
      try (destruct (rest_or_next_line src pos1) as [[pos2 line] | | | | |];
           cbn [mbind outcome_bind] in H; try discriminate H;
           destruct (ParseDeclaration _ _ _) as [[ok vd] | | | | |];
           cbn [mbind outcome_bind] in H; try discriminate H;
           destruct ok; cbn [negb] in H;
           [by eapply IHl | injection H as <-; apply registry_updates_refl]).
    + destruct (ParseStructUnion fuel _ _ _ _ _ _ _ _)
        as [[[[[ok pos2] mem] isd] st1] | | | | |] eqn:E;
        cbn [mbind outcome_bind] in H; try discriminate H.
      apply IHp in E. cbn [snd] in E.
      destruct ok; cbn [negb] in H; [| by injection H as <-].
      destruct isd; cbn [assert mbind outcome_bind] in H; try discriminate H.
      apply IHl in H. by eapply registry_updates_trans.
    + destruct (ParseStructUnion fuel _ _ _ _ _ _ _ _)
        as [[[[[ok pos2] mem] isd] st1] | | | | |] eqn:E;
        cbn [mbind outcome_bind] in H; try discriminate H.
      apply IHp in E. cbn [snd] in E.
      destruct ok; cbn [negb] in H; [| by injection H as <-].
      destruct isd; cbn [assert mbind outcome_bind] in H; try discriminate H.
      apply IHl in H. by eapply registry_updates_trans.
    + destruct (ParseEnum fuel _ _ _ _ _ _ _)
        as [[[[[ok pos2] mem] isd] st1] | | | | |] eqn:E;
        cbn [mbind outcome_bind] in H; try discriminate H.
      apply ParseEnum_updates in E. cbn [snd] in E.
      destruct ok; cbn [negb] in H; [| by injection H as <-].
      destruct isd; cbn [assert mbind outcome_bind] in H; try discriminate H.
      apply IHl in H. by eapply registry_updates_trans.
Qed.

Lemma ParseAssignExpression_updates (p p' : TypeParser) (line : string) (ok : bool) :
  ParseAssignExpression p line = Return (ok, p') ->
  registry_updates p p'.
Proof.
  unfold ParseAssignExpression. intros H.
  outcome_inv H; try apply registry_updates_refl.
  apply registry_updates_once. by eapply update_const.
Qed.

Section ParseSource_updates.
Variable w : World.
Variable parse_file : string -> State -> outcome State.
Hypothesis parse_file_updates :
  forall f st st', parse_file f st = Return st' ->
                   registry_updates (parser st) (parser st').

Lemma ParsePreProcDirective_updates (src : string) (pos pos' : nat) (st st' : State) :
  ParsePreProcDirective parse_file src pos st = Return (pos', st') ->
  registry_updates (parser st) (parser st').
Proof.
  unfold ParsePreProcDirective. intros H.
  destruct (GetNextToken src pos true) as [[ok0 pos0] token0].
  destruct (String.eqb token0 "include").
  - destruct (GetNextToken src pos0 false) as [[ok1 pos1] token1].
    destruct ok1; cbn [assert mbind outcome_bind] in H; [| discriminate H].
    destruct (Ascii.eqb kQuotation (last_char token1)).
    + destruct (GetNextToken src pos1 false) as [[ok2 pos2] token2].
      destruct ok2; cbn [assert mbind outcome_bind] in H; [| discriminate H].
      destruct (parse_file token2 st) as [st1 | | | | |] eqn:E;
        cbn [mbind outcome_bind] in H; try discriminate H.
      injection H as _ <-. by eapply parse_file_updates.
    + injection H as _ <-. apply registry_updates_refl.
  - destruct (String.eqb token0 "define");
      [| injection H as _ <-; apply registry_updates_refl].
    destruct (GetNextToken src pos0 false) as [[ok1 pos1] token1].
    destruct ok1; cbn [assert mbind outcome_bind] in H; [| discriminate H].
    destruct (GetNextToken src pos1 false) as [[ok2 pos2] token2].
    destruct ok2; [| injection H as _ <-; apply registry_updates_refl].
    destruct (IsNumericToken (parser st) token2) as [numeric number] eqn:Hnum.
    destruct numeric; [| injection H as _ <-; apply registry_updates_refl].
    injection H as _ <-. apply registry_updates_once. by eapply update_const.
Qed.

Lemma ParseSource_loop_updates (fuel : nat) (src : string) :
  forall pos is_typedef decl is_decl st st',
    ParseSource_loop fuel w parse_file src pos is_typedef decl is_decl st = Return st' ->
    registry_updates (parser st) (parser st').
Proof.
  induction fuel as [| fuel IH]; intros pos is_typedef decl is_decl st st' H;
    [discriminate H |].
  cbn [ParseSource_loop] in H.
  destruct (GetNextToken src pos true) as [[ok pos1] token].
  destruct ok; cbn [negb] in H; [| injection H as <-; apply registry_updates_refl].
  destruct (slen token =? 1)%nat.
  - destruct (Ascii.eqb (char_at token 0) kPoundSign).
    + destruct (ParsePreProcDirective parse_file src pos1 st) as [[pos2 st1] | | | | |] eqn:E;
        cbn [mbind outcome_bind] in H; try discriminate H.
      apply ParsePreProcDirective_updates in E. apply IH in H.
      by eapply registry_updates_trans.
    + destruct (_ || _); by eapply IH.
  - destruct (GetTokenType (parser st) token); try (by eapply IH).
    + destruct (ParseStructUnion fuel _ _ _ _ _ _ _ _)
        as [[[[[ok pos2] d] isd] st1] | | | | |] eqn:E;
        cbn [mbind outcome_bind] in H; try discriminate H.
      destruct (ok && negb isd); cbn [assert mbind outcome_bind] in H;
        [| discriminate H].
      apply (proj1 (ParseStructUnion_updates fuel w src)) in E. apply IH in H.
      by eapply registry_updates_trans.
    + destruct (ParseStructUnion fuel _ _ _ _ _ _ _ _)
        as [[[[[ok pos2] d] isd] st1] | | | | |] eqn:E;
        cbn [mbind outcome_bind] in H; try discriminate H.
      destruct (ok && negb isd); cbn [assert mbind outcome_bind] in H;
        [| discriminate H].
      apply (proj1 (ParseStructUnion_updates fuel w src)) in E. apply IH in H.
      by eapply registry_updates_trans.
    + destruct (ParseEnum fuel _ _ _ _ _ _ _)
        as [[[[[ok pos2] d] isd] st1] | | | | |] eqn:E;
        cbn [mbind outcome_bind] in H; try discriminate H.
      apply ParseEnum_updates in E. cbn [snd] in E.
      destruct (negb ok || isd).
      * by injection H as <-.
      * apply IH in H. by eapply registry_updates_trans.
    + destruct (GetRestLine src pos1) as [[ok2 pos2] line].
      destruct ok2; cbn [assert mbind outcome_bind] in H; [| discriminate H].
      destruct (ParseAssignExpression (parser st) line) as [[ok3 p'] | | | | |] eqn:E;
        cbn [mbind outcome_bind] in H; try discriminate H.
      apply ParseAssignExpression_updates in E. apply IH in H.
      by eapply registry_updates_trans.
Qed.
End ParseSource_updates.

(** [ParseFile] changes the registry by a sequence of updates *)
Lemma ParseFile_updates (w : World) (depth : nat) :
  forall fuel file st st',
    ParseFile depth fuel w file st = Return st' ->
    registry_updates (parser st) (parser st').
Proof.
  induction depth as [| depth IH]; intros fuel file st st' H; [discriminate H |].
  cbn [ParseFile] in H.
  case_bool_decide as Hmarked; [injection H as <-; apply registry_updates_refl |].
  destruct (files w !! file) as [content |] eqn:Hfile;
    [| injection H as <-; apply registry_updates_refl].
  destruct (Preprocess content) as [src | | | | |];
    cbn [mbind outcome_bind] in H; try discriminate H.
  unfold ParseSource in H.
  apply (ParseSource_loop_updates w (ParseFile depth fuel w)) in H;
    [| intros f s s'; apply IH].
  eapply registry_updates_trans; [| exact H].
  apply registry_updates_once. cbn [parser set_parser]. apply update_mark.
Qed.

(** ** Invariants of the registry *)

Lemma registry_updates_ind_l (P : TypeParser -> Prop) :
  (forall p p', registry_update p p' -> P p -> P p') ->
  forall p p', registry_updates p p' -> P p -> P p'.
Proof.
  intros Hstep p p' H. induction H as [| p1 p2 p3 H12 _ IH]; [done |].
  intros HP. apply IH. by eapply Hstep.
Qed.

Lemma lookup_insert_is_Some_keep {V : Type} (m : gmap string V) (k k' : string) (v : V) :
  is_Some (m !! k') -> is_Some (<[k := v]> m !! k').
Proof.
  intros H. destruct (decide (k = k')) as [-> | Hne].
  - rewrite lookup_insert_eq. by eexists.
  - by rewrite lookup_insert_ne.
Qed.

Lemma map_insert_new_keep {V : Type} (m : gmap string V) (k k' : string) (v v' : V) :
  m !! k' = Some v' -> map_insert_new k v m !! k' = Some v'.
Proof.
  intros H. unfold map_insert_new.
  destruct (m !! k) eqn:E; [exact H |].
  rewrite lookup_insert_ne; [exact H |]. intros ->. congruence.
Qed.

Lemma StoreStructUnionDef_size_multiple (is_struct : bool) (name : string)
    (members members' : list VariableDeclaration) (p p' : TypeParser) :
  StoreStructUnionDef is_struct name members p = Return (members', p') ->
  exists size, type_sizes_ p' !! name = Some size /\ size mod kAlignment_ = 0.
Proof.
  unfold StoreStructUnionDef. intros H. destruct is_struct.
  - destruct (PadStructMembers members) as [[m size] | | | | |] eqn:E;
      cbn [mbind outcome_bind] in H; try discriminate H.
    injection H as _ <-. exists size. split; [apply lookup_insert_eq |].
    eapply PadStructMembers_loop_multiple; [exact E | reflexivity].
  - destruct (CalcUnionSize members) as [size | | | | |] eqn:E;
      cbn [mbind outcome_bind] in H; try discriminate H.
    injection H as _ <-. exists size. split; [apply lookup_insert_eq |].
    unfold CalcUnionSize in E.
    destruct (_ mod kAlignment_ =? 0) eqn:Hmod; cbn [negb] in E.
    + injection E as <-. by apply Z.eqb_eq.
    + by eapply align_up_double_multiple.
Qed.

Lemma StoreStructUnionDef_maps (is_struct : bool) (name : string)
    (members members' : list VariableDeclaration) (p p' : TypeParser) :
  StoreStructUnionDef is_struct name members p = Return (members', p') ->
  exists size,
    p' = set_type_sizes (fun s => <[name := size]> s)
           (if is_struct then set_struct_defs (fun d => <[name := members']> d) p
            else set_union_defs (fun d => <[name := members']> d) p).
Proof.
  unfold StoreStructUnionDef. intros H. destruct is_struct.
  - destruct (PadStructMembers members) as [[m size] | | | | |];
      cbn [mbind outcome_bind] in H; try discriminate H.
    injection H as <- <-. by exists size.
  - destruct (CalcUnionSize members) as [size | | | | |];
      cbn [mbind outcome_bind] in H; try discriminate H.
    injection H as <- <-. by exists size.
Qed.

Lemma registry_update_sized (p p' : TypeParser) :
  registry_update p p' -> sized_types p -> sized_types p'.
Proof.
  intros Hupdate HP.
  destruct Hupdate as [file p | name token number p Hnum | name members p
                      | is_struct name members members' p p' Hstore
                      | is_struct type_name type_alias members size p Halias Hsize].
  - exact HP.
  - exact HP.
  - intros name' H. unfold store_enum in *. cbn in *.
    destruct (decide (name = name')) as [-> | Hne].
    + rewrite lookup_insert_eq. exists sizeof_int. done.
    + rewrite lookup_insert_ne by done. rewrite lookup_insert_ne in H by done.
      by apply HP.
  - intros name' H.
    destruct (decide (name = name')) as [-> | Hne].
    + by eapply StoreStructUnionDef_size_multiple.
    + apply StoreStructUnionDef_maps in Hstore as [size ->].
      destruct is_struct; cbn in *; rewrite lookup_insert_ne by done;
        rewrite lookup_insert_ne in H by done; by apply HP.
  - intros name' H.
    destruct (decide (type_name = name')) as [-> | Hne].
    + destruct (HP type_alias) as (size' & Hsize' & Hmod).
      { destruct is_struct; auto. }
      exists size. destruct is_struct; cbn; rewrite lookup_insert_eq; split; congruence.
    + destruct is_struct; cbn in *; rewrite lookup_insert_ne by done;
        rewrite lookup_insert_ne in H by done; by apply HP.
Qed.

Lemma IsNumericToken_nonzero (p : TypeParser) (token : string) (number : Z) :
  constants_nonzero p ->
  IsNumericToken p token = (true, number) -> number <> 0.
Proof.
  unfold IsNumericToken. intros HP H.
  destruct (is_empty token); [discriminate H |].
  destruct (strtol token 0 =? 0) eqn:Hzero.
  - destruct (const_defs_ p !! token) as [n |] eqn:Hconst; [| discriminate H].
    injection H as <-. by eapply HP.
  - injection H as <-. by apply Z.eqb_neq.
Qed.

Lemma registry_update_nonzero (p p' : TypeParser) :
  registry_update p p' -> constants_nonzero p -> constants_nonzero p'.
Proof.
  intros Hupdate HP.
  destruct Hupdate as [file p | name token number p Hnum | name members p
                      | is_struct name members members' p p' Hstore
                      | is_struct type_name type_alias members size p Halias Hsize].
  - exact HP.
  - intros name' value. cbn. unfold map_insert_new.
    destruct (const_defs_ p !! name) eqn:E; [apply HP |].
    destruct (decide (name = name')) as [-> | Hne].
    + rewrite lookup_insert_eq. intros [= <-]. by eapply IsNumericToken_nonzero.
    + rewrite lookup_insert_ne by done. apply HP.
  - exact HP.
  - apply StoreStructUnionDef_maps in Hstore as [size ->].
    by destruct is_struct.
  - by destruct is_struct.
Qed.

Lemma definitions_kept_refl (p : TypeParser) : definitions_kept p p.
Proof. by repeat split. Qed.

Lemma registry_update_kept (p0 p p' : TypeParser) :
  registry_update p p' -> definitions_kept p0 p -> definitions_kept p0 p'.
Proof.
  intros Hupdate (Hc & Hs & Hu & He & Ht).
  destruct Hupdate as [file p | name token number p Hnum | name members p
                      | is_struct name members members' p p' Hstore
                      | is_struct type_name type_alias members size p Halias Hsize].
  - by repeat split.
  - repeat split; try done.
    intros name' value H. cbn. by apply map_insert_new_keep, Hc.
  - repeat split; try done; cbn.
    + intros name' H. by apply lookup_insert_is_Some_keep, He.
    + intros name' H. by apply lookup_insert_is_Some_keep, Ht.
  - apply StoreStructUnionDef_maps in Hstore as [size ->].
    destruct is_struct; repeat split; try done; cbn; intros name' H;
      apply lookup_insert_is_Some_keep; auto.
  - destruct is_struct; repeat split; try done; cbn; intros name' H;
      apply lookup_insert_is_Some_keep; auto.
Qed.

Lemma sized_types_Initialize : sized_types Initialize.
Proof.
  intros name [H | [H | H]]; cbn in H; rewrite lookup_empty in H;
    by destruct H.
Qed.

Lemma constants_nonzero_Initialize : constants_nonzero Initialize.
Proof. intros name value H. cbn in H. by rewrite lookup_empty in H. Qed.

Lemma to_int_multiple (z : Z) :
  z mod kAlignment_ = 0 -> to_int z mod kAlignment_ = 0 /\ to_int z <> -1.
Proof.
  unfold to_int, kAlignment_. intros H.
  assert (Hmod : ((z + 2 ^ 31) mod 2 ^ 32 - 2 ^ 31) mod 4 = 0).
  { apply Z.mod_divide; [lia |].
    apply Z.mod_divide in H as [k ->]; [| lia].
    exists (k - 2 ^ 30 * ((k * 4 + 2 ^ 31) / 2 ^ 32)).
    pose proof (Z.div_mod (k * 4 + 2 ^ 31) (2 ^ 32) ltac:(lia)). lia. }
  split; [exact Hmod |]. intros Heq. rewrite Heq in Hmod. discriminate Hmod.
Qed.

(** X1. When every struct, union and enum of the registry has a size in
    the type-size map that is a multiple of the alignment unit 4, as on
    a fresh parser, this still holds when [ParseFile] returns: the parser
    never records a struct, union or enum without a size, and
    [GetTypeSize] answers for each of them a multiple of 4, never the -1
    of an unknown type. *)
Theorem ParseFile_sized_types (w : World) (depth fuel : nat) (file : string)
    (st st' : State) :
  sized_types (parser st) ->
  ParseFile depth fuel w file st = Return st' ->
  sized_types (parser st') /\
  (forall name,
      is_Some (struct_defs_ (parser st') !! name)
        \/ is_Some (union_defs_ (parser st') !! name)
        \/ is_Some (enum_defs_ (parser st') !! name) ->
      GetTypeSize (parser st') name mod kAlignment_ = 0 /\
      GetTypeSize (parser st') name <> -1).
Proof.
  intros Hsized H.
  assert (Hsized' : sized_types (parser st')).
  { eapply registry_updates_ind_l; [apply registry_update_sized | | exact Hsized].
    by eapply ParseFile_updates. }
  split; [exact Hsized' |].
  intros name Hname. destruct (Hsized' name Hname) as (size & Hsize & Hmod).
  unfold GetTypeSize. rewrite Hsize. by apply to_int_multiple.
Qed.

Lemma ParseFile_sized_types_witness :
  exists st',
    ParseFile 1 1000
      (one_header (text ["struct S {"; "char a;"; "short b;"; "int c;"; "};";
                         "enum E {"; "A,"; "B"; "};"]))
      "header.h" (mkState Initialize 0) = Return st' /\
    sized_types (parser st').
Proof.
  assert (H : exists st',
             ParseFile 1 1000
               (one_header (text ["struct S {"; "char a;"; "short b;"; "int c;"; "};";
                                  "enum E {"; "A,"; "B"; "};"]))
               "header.h" (mkState Initialize 0) = Return st').
  { vm_compute. eexists. reflexivity. }
  destruct H as [st' H]. exists st'. split; [exact H |].
  exact (proj1 (ParseFile_sized_types _ _ _ _ (mkState Initialize 0) _
                  sized_types_Initialize H)).
Defined.

(** X2. [ParseFile] never removes a definition: a name that has a
    struct, a union, an enum or a size before the call has one when the
    call returns, and a constant that is recorded keeps its value, since
    a later [#define] or assignment of the same name goes through
    [map::insert], which leaves an existing entry alone. *)
Theorem ParseFile_definitions_kept (w : World) (depth fuel : nat) (file : string)
    (st st' : State) :
  ParseFile depth fuel w file st = Return st' ->
  definitions_kept (parser st) (parser st').
Proof.
  intros H.
  eapply (registry_updates_ind_l (definitions_kept (parser st)));
    [apply registry_update_kept | | apply definitions_kept_refl].
  by eapply ParseFile_updates.
Qed.

Lemma ParseFile_definitions_kept_witness :
  exists st',
    ParseFile 1 1000 (one_header (text ["#define A 2"; "#define B 3"])) "header.h"
      (mkState (set_const_defs (fun c => <["A" := 1]> c) Initialize) 0) = Return st' /\
    const_defs_ (parser st') !! "A" = Some 1.
Proof.
  assert (H : exists st',
             ParseFile 1 1000 (one_header (text ["#define A 2"; "#define B 3"])) "header.h"
               (mkState (set_const_defs (fun c => <["A" := 1]> c) Initialize) 0)
             = Return st').
  { vm_compute. eexists. reflexivity. }
  destruct H as [st' H]. exists st'. split; [exact H |].
  apply (proj1 (ParseFile_definitions_kept _ _ _ _ _ _ H)). reflexivity.
Defined.

(** X3. No constant with the value 0 is ever recorded: when the
    constants of the registry are all non-zero, as on a fresh parser,
    they are all non-zero when [ParseFile] returns. [IsNumericToken]
    takes the result 0 of [strtol] for a failed conversion, so a [#define]
    or an assignment of 0 is skipped, and a name can only stand for a
    constant that is itself non-zero. *)
Theorem ParseFile_constants_nonzero (w : World) (depth fuel : nat) (file : string)
    (st st' : State) :
  constants_nonzero (parser st) ->
  ParseFile depth fuel w file st = Return st' ->
  constants_nonzero (parser st').
Proof.
  intros Hnonzero H.
  eapply registry_updates_ind_l; [apply registry_update_nonzero | | exact Hnonzero].
  by eapply ParseFile_updates.
Qed.

Lemma ParseFile_constants_nonzero_witness :
  exists st',
    ParseFile 1 1000
      (one_header (text ["#define A 0"; "#define B 3"; "#define C B"; "int d = 0;"]))
      "header.h" (mkState Initialize 0) = Return st' /\
    constants_nonzero (parser st').
Proof.
  assert (H : exists st',
             ParseFile 1 1000
               (one_header (text ["#define A 0"; "#define B 3"; "#define C B"; "int d = 0;"]))
               "header.h" (mkState Initialize 0) = Return st').
  { vm_compute. eexists. reflexivity. }
  destruct H as [st' H]. exists st'. split; [exact H |].
  exact (ParseFile_constants_nonzero _ _ _ _ (mkState Initialize 0) _
            constants_nonzero_Initialize H).
Defined.

(** ** Preprocessing never aborts *)


Lemma is_empty_append_r (a b : string) : is_empty b = false -> is_empty (a +:+ b) = false.
Proof. destruct a; [done |]. reflexivity. Qed.

Lemma read_lines_nonempty (content : string) :
  forall line, nonempty_lines (read_lines content line).
Proof.
  induction content as [| c content IH]; intros line; cbn [read_lines].
  - destruct (is_empty (trim line)) eqn:E; [constructor |].
    constructor; [exact E | constructor].
  - destruct (Ascii.eqb c (ascii_of_nat 10)); [| apply IH].
    apply Forall_app. split; [| apply IH].
    destruct (is_empty (trim line)) eqn:E; [constructor |].
    constructor; [exact E | constructor].
Qed.

Lemma close_block_nonempty (lines : list string) (line : string) (after : list string) :
  close_block lines = Some (line, after) ->
  nonempty_lines lines -> nonempty_lines after.
Proof.
  induction lines as [| l lines IH]; cbn [close_block]; [discriminate |].
  intros H Hlines. apply Forall_cons in Hlines as [_ Hlines].
  destruct (find_str "*/" l 0); [by injection H as _ <- | by apply IH].
Qed.

Lemma StripComments_loop_nonempty (fuel : nat) :
  forall done rest,
    nonempty_lines done -> nonempty_lines rest ->
    nonempty_lines (StripComments_loop fuel done rest).
Proof.
  induction fuel as [| fuel IH]; intros done rest Hdone Hrest.
  - cbn [StripComments_loop]. apply Forall_app. split; [by apply Forall_rev | done].
  - destruct rest as [| l rest]; cbn [StripComments_loop]; [by apply Forall_rev |].
    apply Forall_cons in Hrest as [Hl Hrest].
    destruct (strip_line _ l _ _ _) as [[line is_changed] is_block].
    destruct is_changed; cbn [negb].
    + assert (Hdone' : nonempty_lines (if negb (is_empty line) then line :: done else done)).
      { destruct (is_empty line) eqn:E; cbn [negb]; [done | by constructor]. }
      destruct is_block; [| by apply IH].
      destruct (close_block rest) as [[line' after] |] eqn:Hclose.
      * apply IH; [done |].
        apply close_block_nonempty in Hclose; [| done].
        destruct (is_empty line') eqn:E; cbn [negb]; [done | by constructor].
      * apply Forall_app. split; [by apply Forall_rev | done].
    + apply IH; [by constructor | done].
Qed.

Lemma wrap_line_returns (rest : list string) :
  forall line,
    is_empty line = false -> nonempty_lines rest ->
    wrap_line line rest = Return None \/
    exists line' rest',
      wrap_line line rest = Return (Some (line', rest')) /\
      is_empty line' = false /\ nonempty_lines rest'.
Proof.
  induction rest as [| next rest IH]; intros line Hline Hrest; cbn [wrap_line];
    rewrite Hline.
  - destruct (Ascii.eqb _ _); [by left |]. right. by exists line, [].
  - destruct (Ascii.eqb _ _); [| right; by exists line, (next :: rest)].
    apply Forall_cons in Hrest as [Hnext Hrest].
    apply IH; [by apply is_empty_append_r | done].
Qed.

Lemma WrapLines_loop_returns (fuel : nat) :
  forall done rest,
    nonempty_lines done -> nonempty_lines rest ->
    exists lines, WrapLines_loop fuel done rest = Return lines /\ nonempty_lines lines.
Proof.
  induction fuel as [| fuel IH]; intros done rest Hdone Hrest.
  - cbn [WrapLines_loop]. eexists. split; [reflexivity |].
    apply Forall_app. split; [by apply Forall_rev | done].
  - destruct rest as [| line rest]; cbn [WrapLines_loop].
    + eexists. split; [reflexivity | by apply Forall_rev].
    + pose proof Hrest as Hall.
      apply Forall_cons in Hrest as [Hline Hrest].
      rewrite Hline. cbn [negb assert mbind outcome_bind].
      destruct (wrap_line_returns rest line Hline Hrest)
        as [-> | (line' & rest' & -> & Hline' & Hrest')];
        cbn [mbind outcome_bind].
      * eexists. split; [reflexivity |].
        apply Forall_app. split; [by apply Forall_rev | done].
      * apply IH; [by constructor | done].
Qed.

Lemma MergeAllLines_returns (lines : list string) :
  nonempty_lines lines -> exists src, MergeAllLines lines = Return src.
Proof.
  induction lines as [| line lines IH]; intros Hlines; cbn [MergeAllLines];
    [by eexists |].
  apply Forall_cons in Hlines as [Hline Hlines].
  rewrite Hline. cbn [negb assert mbind outcome_bind].
  destruct line as [| c line]; [discriminate Hline |].
  cbn [at0 mbind outcome_bind].
  destruct (IH Hlines) as [src ->]. cbn [mbind outcome_bind]. by eexists.
Qed.

(** X4. [Preprocess] returns on every file content: the lines it keeps
    are not empty, [StripComments] leaves no empty line behind, so the
    assertions of [WrapLines] and [MergeAllLines] on empty lines never
    fail, no line is indexed before its first character, and no
    exception is thrown. *)
Theorem Preprocess_returns (content : string) :
  exists src, Preprocess content = Return src.
Proof.
  unfold Preprocess, WrapLines, StripComments.
  destruct (WrapLines_loop_returns
              (length (StripComments_loop (length (read_lines content "")) []
                         (read_lines content "")))
              [] (StripComments_loop (length (read_lines content "")) []
                    (read_lines content "")))
    as (lines & -> & Hlines).
  - constructor.
  - apply StripComments_loop_nonempty; [constructor | apply read_lines_nonempty].
  - cbn [mbind outcome_bind]. by apply MergeAllLines_returns.
Qed.

(** ** The contract of the tokenizer *)

Lemma read_token_spec (src : string) (start pos' : nat) (token : string) :
  (start < slen src)%nat ->
  read_token src start = (pos', token) ->
  (start < pos' <= slen src)%nat /\
  token = substr src start (pos' - start) /\
  slen token = (pos' - start)%nat /\
  ((exists c, token = String c "" /\ is_delimiter c = true)
   \/ all_chars (fun c => negb (is_delimiter c)) token = true).
Proof.
  intros Hstart. unfold read_token.
  pose proof (find_first_of_spec kTokenDelimiters src start) as Hfind.
  destruct (find_first_of kTokenDelimiters src start) as [ptk |].
  - destruct Hfind as (Hbound & (c & Hc & Hdelim) & Hbefore).
    destruct (Nat.eqb_spec start ptk) as [<- | Hne]; intros [= <- <-].
    + assert (Htoken : String (char_at src start) "" = substr src start (S start - start)).
      { apply chars_inj. rewrite chars_substr.
        replace (S start - start)%nat with 1%nat by lia.
        rewrite (char_at_lookup _ _ _ Hc).
        apply (take_drop_middle _ _ _) in Hc. rewrite <- Hc at 1.
        rewrite drop_app_length'; [reflexivity |].
        rewrite length_take, chars_length. lia. }
      repeat split; try lia; [exact Htoken | simpl; lia |].
      left. exists c. by rewrite (char_at_lookup _ _ _ Hc).
    + repeat split; try lia.
      * rewrite slen_substr. lia.
      * right. apply all_chars_Forall. rewrite chars_substr.
        eapply Forall_impl; [exact Hbefore |]. intros a Ha. cbn beta.
        unfold is_delimiter. by rewrite Ha.
  - intros [= <- <-]. repeat split; try lia.
    + apply chars_inj. rewrite chars_substr, chars_substr_from.
      symmetry. apply take_ge. rewrite length_drop, chars_length. lia.
    + apply slen_substr_from.
    + right. apply all_chars_Forall. rewrite chars_substr_from.
      eapply Forall_impl; [exact Hfind |]. intros a Ha. cbn beta.
      unfold is_delimiter. by rewrite Ha.
Qed.

Lemma GetNextToken_from_contract (fuel : nat) (src : string) :
  forall pos ok pos' token,
    GetNextToken_from fuel src pos = (ok, pos', token) ->
    ok = negb (is_empty token) /\ (pos <= pos')%nat /\
    (ok = true ->
     IsIgnorable token = false /\ (pos < pos' <= slen src)%nat /\
     (pos + slen token <= pos')%nat /\
     substr src (pos' - slen token) (slen token) = token /\
     ((exists c, token = String c "" /\ is_delimiter c = true)
      \/ all_chars (fun c => negb (is_delimiter c)) token = true)).
Proof.
  induction fuel as [| fuel IH]; intros pos ok pos' token;
    rewrite GetNextToken_from_unfold; cbv zeta;
    pose proof (skip_blanks_ge src pos) as Hskip.
  - destruct (Nat.leb_spec (slen src) (skip_blanks src pos)) as [Hend | Hin];
      [intros [= <- <- <-]; split; [done | split; [done | discriminate]] |].
    pose proof (read_token_spec src (skip_blanks src pos)) as Hread.
    destruct (read_token src (skip_blanks src pos)) as [pos1 token1].
    destruct (Hread pos1 token1 Hin eq_refl) as (Hpos1 & Htoken1 & Hlen1 & Hshape).
    destruct (is_empty token1) eqn:Hempty; cbn [negb andb];
      [apply is_empty_slen in Hempty; lia |].
    destruct (IsIgnorable token1) eqn:Hign; intros [= <- <- <-].
    + split; [done | split; [lia | discriminate]].
    + rewrite Hempty. cbn [negb]. split; [done | split; [lia |]]. intros _.
      split; [exact Hign | split; [lia | split; [lia | split; [| exact Hshape]]]].
      rewrite Hlen1.
      replace (pos1 - (pos1 - skip_blanks src pos))%nat with (skip_blanks src pos) by lia.
      by rewrite <- Htoken1.
  - destruct (Nat.leb_spec (slen src) (skip_blanks src pos)) as [Hend | Hin];
      [intros [= <- <- <-]; split; [done | split; [done | discriminate]] |].
    pose proof (read_token_spec src (skip_blanks src pos)) as Hread.
    destruct (read_token src (skip_blanks src pos)) as [pos1 token1].
    destruct (Hread pos1 token1 Hin eq_refl) as (Hpos1 & Htoken1 & Hlen1 & Hshape).
    destruct (is_empty token1) eqn:Hempty; cbn [negb andb];
      [apply is_empty_slen in Hempty; lia |].
    destruct (IsIgnorable token1) eqn:Hign.
    + intros H. apply IH in H as (Hok & Hle & Htrue).
      split; [exact Hok | split; [lia |]]. intros Hk.
      destruct (Htrue Hk) as (? & ? & ? & ? & ?).
      split; [done | split; [lia | split; [lia | by split]]].
    + intros [= <- <- <-].
      rewrite Hempty. cbn [negb]. split; [done | split; [lia |]]. intros _.
      split; [exact Hign | split; [lia | split; [lia | split; [| exact Hshape]]]].
      rewrite Hlen1.
      replace (pos1 - (pos1 - skip_blanks src pos))%nat with (skip_blanks src pos) by lia.
      by rewrite <- Htoken1.
Qed.

Lemma substr_substr_prefix (s : string) (p a n : nat) :
  (a + n <= p)%nat -> substr (substr s 0 p) a n = substr s a n.
Proof.
  intros Hle. apply chars_inj. rewrite !chars_substr, drop_0.
  replace p with (a + (p - a))%nat at 1 by lia.
  rewrite <- take_drop_commute, take_take. f_equal. lia.
Qed.

(** X5. What [GetNextToken] guarantees. The flag returned tells whether
    the token is non-empty, and the position never moves back. A token
    that is returned is never a qualifier; it is the text in front of
    the new position, which lies within the text, and it starts at or
    after the old position; it is either one delimiter character or a
    run of characters with no delimiter. With [cross_line] false the new
    position does not go beyond the end-of-line mark that follows the
    old one. *)
Theorem GetNextToken_contract (src : string) (pos : nat) (cross_line ok : bool)
    (pos' : nat) (token : string) :
  GetNextToken src pos cross_line = (ok, pos', token) ->
  ok = negb (is_empty token) /\ (pos <= pos')%nat /\
  (ok = true ->
   IsIgnorable token = false /\ (pos < pos' <= slen src)%nat /\
   (pos + slen token <= pos')%nat /\
   substr src (pos' - slen token) (slen token) = token /\
   ((exists c, token = String c "" /\ is_delimiter c = true)
    \/ all_chars (fun c => negb (is_delimiter c)) token = true) /\
   (cross_line = false ->
    forall p, find_char EOL src pos = Some p -> (pos' <= p)%nat)).
Proof.
  unfold GetNextToken. intros H.
  apply GetNextToken_from_contract in H as (Hok & Hle & Htrue).
  split; [exact Hok | split; [exact Hle |]]. intros Hk.
  destruct (Htrue Hk) as (Hign & Hpos & Hstart & Htext & Hshape). clear Htrue.
  destruct cross_line;
    [split; [exact Hign | split; [exact Hpos | split; [exact Hstart | split;
       [exact Htext | split; [exact Hshape | discriminate]]]]] |].
  pose proof (find_char_spec EOL src pos) as Hfind.
  destruct (find_char EOL src pos) as [p |];
    [| split; [exact Hign | split; [exact Hpos | split; [exact Hstart | split;
         [exact Htext | split; [exact Hshape | discriminate]]]]]].
  destruct Hfind as (Hp & _ & _).
  rewrite slen_substr in Hpos.
  replace (Nat.min p (slen src - 0)) with p in Hpos by lia.
  split; [exact Hign | split; [lia | split; [exact Hstart | split;
    [| split; [exact Hshape |]]]]].
  - rewrite substr_substr_prefix in Htext; [exact Htext | lia].
  - intros _ p' [= <-]. lia.
Qed.

Lemma GetNextToken_contract_witness :
  GetNextToken "const int x;" 0 true = (true, 9%nat, "int") /\
  substr "const int x;" (9 - slen "int") (slen "int") = "int".
Proof.
  split; [vm_compute; reflexivity |].
  exact (proj1 (proj2 (proj2 (proj2
    (proj2 (proj2 (GetNextToken_contract "const int x;" 0 true true 9 "int"
                     ltac:(vm_compute; reflexivity))) eq_refl))))).
Defined.

Lemma SplitLineIntoTokens_loop_tokens (P : string -> Prop) (fuel : nat) (line : string) :
  (forall pos pos' token, GetNextToken line pos true = (true, pos', token) -> P token) ->
  forall start tokens,
    Forall P tokens ->
    Forall P (SplitLineIntoTokens_loop fuel line start tokens).
Proof.
  intros HP. induction fuel as [| fuel IH]; intros start tokens Htokens;
    cbn [SplitLineIntoTokens_loop]; [done |].
  destruct (GetNextToken line start true) as [[ok start'] token] eqn:Hnext.
  destruct ok; [| done].
  apply IH. apply Forall_app. split; [done |].
  constructor; [by eapply HP | constructor].
Qed.

Lemma SplitLineIntoTokens_loop_length (fuel : nat) (line : string) :
  forall start tokens,
    (length (SplitLineIntoTokens_loop fuel line start tokens)
     <= length tokens + (slen line - start))%nat.
Proof.
  induction fuel as [| fuel IH]; intros start tokens;
    cbn [SplitLineIntoTokens_loop]; [lia |].
  destruct (GetNextToken line start true) as [[ok start'] token] eqn:Hnext.
  destruct ok; [| lia].
  apply GetNextToken_progress in Hnext.
  specialize (IH start' (tokens ++ [token])). rewrite length_app in IH. simpl in IH. lia.
Qed.

(** X6. The tokens of a line. [SplitLineIntoTokens] gives tokens that
    are not empty and are no qualifiers, each either one delimiter
    character or a run of characters with no delimiter (no blank among
    them); there are no more tokens than characters in the line, and the
    loop ends by itself: the result is the same for every bound on the
    number of its turns above the length of the line. *)
Theorem SplitLineIntoTokens_tokens (line : string) :
  Forall (fun token =>
            is_empty token = false /\ IsIgnorable token = false /\
            ((exists c, token = String c "" /\ is_delimiter c = true)
             \/ all_chars (fun c => negb (is_delimiter c)) token = true))
    (SplitLineIntoTokens line) /\
  (length (SplitLineIntoTokens line) <= slen line)%nat /\
  (forall fuel, (slen line < fuel)%nat ->
                SplitLineIntoTokens_loop fuel line 0 [] = SplitLineIntoTokens line).
Proof.
  unfold SplitLineIntoTokens. split; [| split].
  - apply SplitLineIntoTokens_loop_tokens; [| constructor].
    intros pos pos' token H.
    apply GetNextToken_contract in H as (Hok & _ & Htrue).
    destruct (Htrue eq_refl) as (Hign & _ & _ & _ & Hshape & _).
    split; [| by split].
    destruct (is_empty token); [discriminate Hok | reflexivity].
  - pose proof (SplitLineIntoTokens_loop_length (S (slen line)) line 0 []) as H.
    cbn [length] in H. lia.
  - intros fuel Hfuel. apply SplitLineIntoTokens_loop_fuel; lia.
Qed.

(** ** Moving through the lines of the source *)

Lemma find_char_bounds (c : ascii) (s : string) (pos j : nat) :
  find_char c s pos = Some j -> (pos <= j < slen s)%nat.
Proof.
  intros H. pose proof (find_char_spec c s pos) as Hspec. rewrite H in Hspec.
  by destruct Hspec.
Qed.

Lemma GetRestLine_bounds (src : string) (pos : nat) (ok : bool) (pos' : nat)
    (line : string) :
  (pos <= slen src)%nat ->
  GetRestLine src pos = (ok, pos', line) ->
  (pos <= pos' <= slen src)%nat.
Proof.
  unfold GetRestLine. intros Hpos H.
  destruct (Ascii.eqb EOL (char_at src pos)); [injection H as _ <- _; lia |].
  destruct (find_char EOL src pos) as [p |] eqn:Hfind; injection H as _ <- _; [| lia].
  apply find_char_bounds in Hfind. lia.
Qed.

Lemma GetNextLine_bounds (src : string) (pos : nat) (ok : bool) (pos' : nat)
    (line : string) :
  (pos <= slen src)%nat ->
  GetNextLine src pos = Return (ok, pos', line) ->
  (pos <= pos' <= slen src)%nat.
Proof.
  unfold GetNextLine. intros Hpos H.
  destruct (find_char EOL src pos) as [start |] eqn:Hstart;
    [| injection H as _ <- _; lia].
  apply find_char_bounds in Hstart.
  destruct (find_char EOL src (S start)) as [e |] eqn:Hend.
  - apply find_char_bounds in Hend.
    destruct (negb (e =? S start)%nat); cbn [assert mbind outcome_bind] in H;
      [| discriminate H].
    destruct (negb (is_empty _)); cbn [assert mbind outcome_bind] in H;
      [| discriminate H].
    injection H as _ <- _. lia.
  - cbn [mbind outcome_bind] in H.
    destruct (negb (is_empty _)); cbn [assert mbind outcome_bind] in H;
      [| discriminate H].
    injection H as _ <- _. lia.
Qed.

Lemma rest_or_next_line_bounds (src : string) (pos pos' : nat) (line : string) :
  (pos <= slen src)%nat ->
  rest_or_next_line src pos = Return (pos', line) ->
  (pos <= pos' <= slen src)%nat.
Proof.
  unfold rest_or_next_line. intros Hpos H.
  destruct (GetRestLine src pos) as [[ok pos1] line1] eqn:Hrest.
  destruct ok.
  - injection H as <- <-. by eapply GetRestLine_bounds.
  - destruct (GetNextLine src pos) as [[[ok2 pos2] line2] | | | | |] eqn:Hnext;
      cbn [mbind outcome_bind] in H; try discriminate H.
    destruct ok2; cbn [assert mbind outcome_bind] in H; [| discriminate H].
    injection H as <- <-. by eapply GetNextLine_bounds.
Qed.

Lemma SkipCurrentLine_bounds (src : string) (pos : nat) :
  (pos < slen src)%nat ->
  (pos < fst (SkipCurrentLine src pos) <= slen src)%nat.
Proof.
  intros Hpos. unfold SkipCurrentLine.
  destruct (Nat.leb_spec (slen src) pos) as [Hle | _]; [lia |].
  destruct (find_char EOL src pos) as [e |] eqn:Hfind; [| simpl; lia].
  apply find_char_bounds in Hfind.
  destruct (Nat.eqb_spec e pos); simpl; lia.
Qed.

(** ** [tohex] and [strtol] *)

Lemma digit_value_hex_digit (n : nat) :
  (n < 16)%nat -> digit_value (hex_digit n) = Some (Z.of_nat n).
Proof.
  intros Hn.
  do 16 (destruct n as [| n]; [vm_compute; reflexivity |]). lia.
Qed.

Lemma strtol_digits_hex_byte (c : ascii) (s : string) (acc : Z) :
  strtol_digits 16 (hex_byte c +:+ s) acc
  = strtol_digits 16 s (acc * 256 + Z.of_nat (nat_of_ascii c)).
Proof.
  unfold hex_byte.
  change (String ?a (String ?b "") +:+ s) with (String a (String b s)).
  pose proof (nat_ascii_bounded c) as Hc.
  assert (Hhi : (nat_of_ascii c / 16 < 16)%nat).
  { apply Nat.Div0.div_lt_upper_bound. lia. }
  assert (Hlo : (nat_of_ascii c mod 16 < 16)%nat) by (apply Nat.mod_upper_bound; lia).
  cbn [strtol_digits].
  rewrite (digit_value_hex_digit _ Hhi), (digit_value_hex_digit _ Hlo).
  destruct (Z.ltb_spec (Z.of_nat (nat_of_ascii c / 16)) 16) as [_ | H]; [| lia].
  destruct (Z.ltb_spec (Z.of_nat (nat_of_ascii c mod 16)) 16) as [_ | H]; [| lia].
  f_equal.
  pose proof (Nat.div_mod_eq (nat_of_ascii c) 16). lia.
Qed.

Lemma strtol_digits_tohex_digits (data : string) :
  forall (s : string) (acc : Z),
    strtol_digits 16 (tohex_digits data +:+ s) acc
    = strtol_digits 16 s (acc * 256 ^ Z.of_nat (slen data) + le_value data).
Proof.
  induction data as [| c data IH]; intros s acc.
  - cbn [tohex_digits le_value slen String.length].
    change ("" +:+ s) with s. f_equal. lia.
  - cbn [tohex_digits le_value]. rewrite append_assoc, IH, strtol_digits_hex_byte.
    f_equal. unfold slen. cbn [String.length].
    rewrite Nat2Z.inj_succ, Z.pow_succ_r by lia. unfold slen. lia.
Qed.

Lemma le_value_bound (data : string) :
  0 <= le_value data < 256 ^ Z.of_nat (slen data).
Proof.
  unfold slen. induction data as [| c data IH]; cbn [le_value String.length]; [lia |].
  rewrite Nat2Z.inj_succ, Z.pow_succ_r by lia.
  pose proof (nat_ascii_bounded c). lia.
Qed.

Lemma slen_tohex_digits (data : string) :
  slen (tohex_digits data) = (2 * slen data)%nat.
Proof.
  induction data as [| c data IH]; [reflexivity |].
  cbn [tohex_digits]. rewrite slen_append, IH. unfold slen, hex_byte. simpl. lia.
Qed.

Lemma strtol_tohex (data : string) :
  strtol ("0x" +:+ tohex_digits (data)) 16
  = if is_empty data then 0 else Z.min LONG_MAX (le_value data).
Proof.
  change ("0x" +:+ ?d) with (String "0" (String "x" d)).
  destruct data as [| c data]; [vm_compute; reflexivity |].
  cbn [is_empty]. unfold strtol. cbn [ltrim isspace].
  change (isspace "0") with false. cbv iota.
  unfold strtol_magnitude. cbn [Z.eqb orb is_hex_prefix Ascii.eqb].
  change (Ascii.eqb "x" "x" || Ascii.eqb "x" "X") with true. cbv iota.
  replace (substr_from (String "0" (String "x" (tohex_digits (String c data)))) 2)
    with (tohex_digits (String c data) +:+ "").
  - rewrite strtol_digits_tohex_digits. cbn [strtol_digits]. f_equal.
  - rewrite append_nil_r. apply chars_inj. rewrite chars_substr_from. reflexivity.
Qed.

(** ** The decoder on a struct of scalar members *)

Lemma read_data_returns (r : DataReader) (len : Z) :
  0 < len -> 0 <= data_ptr_ r -> data_ptr_ r + len <= data_size_ r ->
  exists data,
    read_data r len = Return data /\ slen data = Z.to_nat len.
Proof.
  intros Hlen Hptr Hend. unfold read_data.
  destruct (Z.ltb_spec len 0); [lia |].
  destruct (Z.leb_spec 0 (data_ptr_ r)); [| lia].
  destruct (Z.leb_spec (data_ptr_ r + len) (data_size_ r)); [| lia].
  cbn [andb]. eexists. split; [reflexivity |].
  rewrite slen_substr. unfold data_size_ in Hend. lia.
Qed.

Lemma PrintVarValue_returns (var_decl : VariableDeclaration) (indent : Z)
    (is_union : bool) (r : DataReader) :
  let len := if String.eqb (data_type var_decl) "char" then 1
             else to_int (var_size var_decl) in
  0 < len -> 0 <= data_ptr_ r -> data_ptr_ r + len <= data_size_ r ->
  exists r', PrintVarValue var_decl indent is_union r = Return r'.
Proof.
  intros len Hlen Hptr Hend. unfold PrintVarValue. fold len.
  destruct (read_data_returns r len Hlen Hptr Hend) as (data & -> & Hdata).
  cbn [mbind outcome_bind]. unfold tohex.
  destruct data as [| c data]; [unfold slen in Hdata; simpl in Hdata; lia |].
  cbn [is_empty mbind outcome_bind type_parser_ put].
  destruct (negb is_union && bool_decide _); cbn [mbind outcome_bind].
  { destruct is_union; by eexists. }
  destruct (String.eqb_spec "char" (data_type var_decl)) as [Hchar | Hother];
    cbn [andb]; [| cbn [mbind outcome_bind]; destruct is_union; by eexists].
  assert (Hone : data = "").
  { subst len. rewrite <- Hchar in Hdata. change (String.eqb "char" "char") with true in Hdata.
    unfold slen in Hdata. destruct data; [done | simpl in Hdata; lia]. }
  subst data. cbn [tohex_digits]. change ("" +:+ hex_byte c) with (hex_byte c).
  rewrite decode_byte.
  pose proof (code_range c) as Hrange.
  destruct (negb (_ =? 0)); [| cbn [mbind outcome_bind]; destruct is_union; by eexists].
  unfold int_arith, INT_MIN, INT_MAX.
  destruct (Z.leb_spec (- 2 ^ 31) (Z.of_nat (nat_of_ascii c) - 65)); [| lia].
  destruct (Z.leb_spec (Z.of_nat (nat_of_ascii c) - 65) (2 ^ 31 - 1)); [| lia].
  cbn [andb mbind outcome_bind].
  destruct (Z.leb_spec (- 2 ^ 31) (65 + (Z.of_nat (nat_of_ascii c) - 65))); [| lia].
  destruct (Z.leb_spec (65 + (Z.of_nat (nat_of_ascii c) - 65)) (2 ^ 31 - 1)); [| lia].
  cbn [andb mbind outcome_bind]. destruct is_union; by eexists.
Qed.

Lemma members_step_cons (m : VariableDeclaration) (members : list VariableDeclaration) :
  members_step (m :: members) = member_step m + members_step members.
Proof. reflexivity. Qed.

Lemma PrintMemberData_loop_struct_scalars
    (prepare : string -> Z -> bool -> DataReader -> outcome DataReader)
    (members : list VariableDeclaration) (indent : Z) (union_addr : Z) :
  forall r,
    Forall (scalar_member (type_parser_ r)) members ->
    Forall (fun m => 0 < member_step m) members ->
    0 <= data_ptr_ r ->
    data_ptr_ r + members_step members <= data_size_ r ->
    exists r',
      PrintMemberData_loop prepare members indent false union_addr r = Return r' /\
      data_ptr_ r' = data_ptr_ r + members_step members /\
      type_parser_ r' = type_parser_ r /\
      data_buffer_ r' = data_buffer_ r.
Proof.
  induction members as [| m members IH]; intros r Hscalar Hpos Hptr Hend.
  - exists r. cbn. repeat split. lia.
  - apply Forall_cons in Hscalar as [Hm Hscalar].
    apply Forall_cons in Hpos as [Hstep Hpos].
    rewrite members_step_cons in *.
    assert (Hrest : 0 <= members_step members).
    { clear -Hpos. induction Hpos as [| x l Hx _ IHl]; [done |].
      rewrite members_step_cons. lia. }
    cbn [PrintMemberData_loop negb andb].
    unfold member_step in Hstep, Hend |- *.
    destruct (String.eqb_spec (var_name m) kPaddingFieldName) as [Hpad | Hname].
    + cbn [mbind outcome_bind].
      destruct (IH (set_data_ptr (data_ptr_ r + var_size m) r))
        as (r' & Hrun & Hptr' & Htp & Hbuf); try done.
      * cbn [data_ptr_ set_data_ptr]. lia.
      * unfold data_size_ in *. cbn [data_ptr_ set_data_ptr data_buffer_]. lia.
      * exists r'. split; [exact Hrun |].
        cbn [data_ptr_ set_data_ptr data_buffer_ type_parser_] in Hptr', Htp, Hbuf.
        repeat split; try done. lia.
    + destruct Hm as [Hpad | [Harray Htype]]; [done |].
      rewrite Harray. cbn [Z.eqb negb].
      set (r0 := put _ (FORMAT_OUTPUT indent r)).
      assert (Hvalue : exists r1,
                 PrintVarData prepare m indent false r0 = Return r1 /\
                 type_parser_ r1 = type_parser_ r /\
                 data_buffer_ r1 = data_buffer_ r /\
                 data_ptr_ r1 = data_ptr_ r
                   + (if String.eqb (data_type m) "char" then 1
                      else to_int (var_size m))).
      { unfold PrintVarData.
        assert (Hrun : exists r1, PrintVarValue m indent false r0 = Return r1).
        { apply PrintVarValue_returns; subst r0;
            cbn [data_ptr_ put FORMAT_OUTPUT]; try done.
          unfold data_size_ in *. cbn [data_ptr_ put FORMAT_OUTPUT data_buffer_]. lia. }
        destruct Hrun as [r1 Hrun]. exists r1.
        pose proof (PrintVarValue_cursor _ _ _ _ _ Hrun) as (Htp & Hbuf & Hp).
        split; [| by subst r0].
        subst r0. cbn [type_parser_ put FORMAT_OUTPUT].
        by destruct Htype as [-> | ->]. }
      destruct Hvalue as (r1 & -> & Htp1 & Hbuf1 & Hptr1).
      cbn [mbind outcome_bind].
      destruct (IH r1) as (r' & Hrun & Hptr' & Htp & Hbuf); try done.
      * by rewrite Htp1.
      * lia.
      * unfold data_size_ in *. rewrite Hbuf1. lia.
      * exists r'. split; [exact Hrun |].
        repeat split; try congruence. lia.
Qed.

(** X7. [tohex] and the integer read back from it. On data of one byte
    or more, [tohex] gives the prefix 0x and two digits per byte, and
    [strtol] in base 16 reads from it the value of the bytes taken as an
    unsigned little-endian number, cut to the largest [long]; on empty
    data the behaviour of [tohex] is undefined (it builds a string from
    the integer 0). *)
Theorem tohex_value (data : string) :
  match tohex data with
  | Return hex_value =>
    data <> "" /\
    hex_value = "0x" +:+ tohex_digits data /\
    slen hex_value = (2 + 2 * slen data)%nat /\
    strtol hex_value 16 = Z.min LONG_MAX (le_value data) /\
    0 <= le_value data < 256 ^ Z.of_nat (slen data)
  | Undefined => data = ""
  | _ => False
  end.
Proof.
  unfold tohex. destruct data as [| c data]; [reflexivity |].
  cbn [is_empty]. split; [discriminate | split; [reflexivity |]].
  split; [| split; [| apply le_value_bound]].
  - change ("0x" +:+ ?d) with (String "0" (String "x" d)).
    unfold slen at 1. cbn [String.length].
    fold (slen (tohex_digits (String c data))). rewrite slen_tohex_digits. lia.
  - by rewrite strtol_tohex.
Qed.

(** X8. A struct of scalar members is decoded in full and in order.
    When the members of a registered struct are padding fields and
    members that are no arrays and have a basic type or an enum as type,
    each taking one byte or more, and the buffer holds that many bytes
    from the read position on, [PrintTypeData] returns, the read
    position has advanced by the bytes of the members (the size of a
    padding field, one byte for [char], the field size otherwise), and
    the buffer is as before. *)
Theorem PrintTypeData_struct_scalars (fuel : nat) (type_name : string)
    (members : list VariableDeclaration) (r : DataReader) :
  struct_defs_ (type_parser_ r) !! type_name = Some members ->
  Forall (scalar_member (type_parser_ r)) members ->
  Forall (fun m => 0 < member_step m) members ->
  0 <= data_ptr_ r ->
  data_ptr_ r + members_step members <= data_size_ r ->
  exists r',
    PrintTypeData (S fuel) type_name false r = Return r' /\
    data_ptr_ r' = data_ptr_ r + members_step members /\
    data_buffer_ r' = data_buffer_ r.
Proof.
  intros Hdef Hscalar Hpos Hptr Hend.
  unfold PrintTypeData. cbn [PrepareTypeData andb]. rewrite Hdef.
  cbn [Z.eqb].
  set (r0 := if String.eqb _ _ then _ else _).
  assert (Hr0 : data_ptr_ r0 = data_ptr_ r /\ data_buffer_ r0 = data_buffer_ r /\
                forall t, GetTokenType (type_parser_ r0) t
                          = GetTokenType (type_parser_ r) t).
  { subst r0. by destruct (String.eqb _ _). }
  destruct Hr0 as (Hptr0 & Hbuf0 & Htype0).
  destruct (PrintMemberData_loop_struct_scalars (PrepareTypeData fuel) members
              (0 + 1) (data_ptr_ r0) r0) as (r' & Hrun & Hptr' & _ & Hbuf').
  - eapply Forall_impl; [exact Hscalar |]. intros m [Hm | [Ha Hm]]; [by left |].
    right. split; [exact Ha |]. by rewrite !Htype0.
  - exact Hpos.
  - lia.
  - unfold data_size_ in *. rewrite Hptr0, Hbuf0. exact Hend.
  - unfold PrintMemberData. rewrite Hrun. cbn [mbind outcome_bind].
    eexists. split; [reflexivity |].
    cbn [data_ptr_ data_buffer_ put FORMAT_OUTPUT]. split; congruence.
Qed.

Lemma PrintTypeData_struct_scalars_witness :
  exists r',
    PrintTypeData 1 "S" false sample_reader = Return r' /\
    data_ptr_ r' = 8.
Proof.
  destruct (PrintTypeData_struct_scalars 0 "S" sample_members sample_reader)
    as (r' & Hrun & Hptr & _).
  - reflexivity.
  - repeat (apply Forall_cons; split;
            [first [left; reflexivity
                   | right; split; [reflexivity | left; vm_compute; reflexivity]] |]).
    constructor.
  - repeat (apply Forall_cons; split; [vm_compute; reflexivity |]). constructor.
  - vm_compute. discriminate.
  - vm_compute. discriminate.
  - exists r'. split; [exact Hrun |]. rewrite Hptr. reflexivity.
Defined.

(** ** [PadStructMembers] only puts padding fields in *)

Lemma padded_refl (l : list VariableDeclaration) : padded l l.
Proof. induction l; by constructor. Qed.

Lemma padded_app (a a' b b' : list VariableDeclaration) :
  padded a a' -> padded b b' -> padded (a ++ b) (a' ++ b').
Proof.
  intros Ha Hb. induction Ha; cbn [app]; [done | by constructor | by constructor].
Qed.

Lemma padded_length (l l' : list VariableDeclaration) :
  padded l l' -> (length l <= length l')%nat.
Proof. induction 1; cbn [length]; lia. Qed.

Lemma padded_sublist (l l' : list VariableDeclaration) : padded l l' -> sublist l l'.
Proof. induction 1; by constructor. Qed.

Lemma align_up_double_small (n : Z) :
  1 <= n <= 3 -> align_up_double n = Return 4.
Proof.
  intros Hn. unfold align_up_double. rewrite double_of_Z_exact by lia.
  unfold kAlignment_, SIZE_MAX.
  replace ((n + (4 - 1)) / 4 * 4) with 4.
  - reflexivity.
  - assert ((n + (4 - 1)) / 4 = 1); [| lia].
    symmetry. apply Z.div_unique with (r := n - 1); lia.
Qed.

Lemma to_size_t_small (z : Z) : 0 <= z < 2 ^ 64 -> to_size_t z = z.
Proof. intros H. unfold to_size_t. by apply Z.mod_small. Qed.

Lemma PadStructMembers_loop_padded (rest : list VariableDeclaration) :
  forall before total last_size members' size done,
    PadStructMembers_loop rest before total last_size = Return (members', size) ->
    0 <= last_size <= 3 ->
    Forall (fun m => 0 <= var_size m) rest ->
    padded done (rev before) ->
    padded (done ++ rest) members'.
Proof.
  induction rest as [| m rest IH];
    intros before total last_size members' size done H Hlast Hsizes Hdone.
  - injection H as <- _. by rewrite app_nil_r.
  - apply Forall_cons in Hsizes as [Hm Hsizes].
    cbn [PadStructMembers_loop] in H.
    assert (Herr : padded (done ++ m :: rest) (rev before ++ m :: rest))
      by (apply padded_app; [done | apply padded_refl]).
    replace (done ++ m :: rest) with ((done ++ [m]) ++ rest)
      by (by rewrite <- app_assoc).
    assert (Hkeep : padded (done ++ [m]) (rev (m :: before))).
    { cbn [rev]. apply padded_app; [done | apply padded_refl]. }
    destruct (Z.eqb_spec (var_size m mod kAlignment_) 0) as [Haligned | Hnarrow].
    + destruct (Z.ltb_spec 0 last_size) as [Hpending | Hnone].
      * rewrite align_up_double_small in H by lia. cbn [mbind outcome_bind] in H.
        eapply IH; [exact H | lia | done |].
        cbn [rev]. rewrite <- app_assoc. cbn [app].
        apply padded_app; [done |].
        apply padded_pad; [| apply padded_refl].
        rewrite to_size_t_small; lia.
      * eapply IH; [exact H | lia | done | done].
    + unfold kAlignment_ in *.
      destruct (Z.leb_spec 4 (var_size m)) as [Hbig | Hsmall];
        [injection H as <- _; by rewrite <- app_assoc |].
      assert (Hsize : 1 <= var_size m <= 3).
      { destruct (Z.eq_dec (var_size m) 0) as [E | E]; [| lia].
        rewrite E in Hnarrow. done. }
      destruct (Z.eqb_spec last_size 0) as [Hzero | Hnonzero];
        [eapply IH; [exact H | lia | done | done] |].
      destruct (Z.eqb_spec ((var_size m + last_size) mod 4) 0) as [Hsum | Hnosum];
        [eapply IH; [exact H | lia | done | done] |].
      destruct (Z.eqb_spec last_size 1) as [Hone | Hnotone].
      * destruct (Z.eqb_spec (var_size m) 1) as [Hs1 | Hs1];
          [eapply IH; [exact H | lia | done | done] |].
        destruct (Z.eqb_spec (var_size m) 2) as [Hs2 | Hs2];
          [| injection H as <- _; by rewrite <- app_assoc].
        eapply IH; [exact H | lia | done |].
        cbn [rev]. rewrite <- app_assoc. cbn [app].
        apply padded_app; [done |].
        apply padded_pad; [lia | apply padded_refl].
      * destruct (Z.eqb_spec last_size 2) as [Htwo | Hnottwo];
          [| injection H as <- _; by rewrite <- app_assoc].
        destruct (Z.eqb_spec (var_size m) 1) as [Hs1 | Hs1];
          cbn [assert mbind outcome_bind] in H; [| discriminate H].
        eapply IH; [exact H | lia | done |].
        cbn [rev]. rewrite <- app_assoc. cbn [app].
        apply padded_app; [done |].
        apply padded_member, padded_pad; [lia | constructor].
Qed.

(** X10. [PadStructMembers] only puts padding fields in. When it
    returns on members whose sizes are not negative, the list it leaves
    has the members it was given, in their order and unchanged, and
    besides them only padding fields made by [MakePadField] of 1, 2 or 3
    bytes; on an alignment error, too, the members are all still there. *)
Theorem PadStructMembers_padded (members members' : list VariableDeclaration)
    (size : Z) :
  Forall (fun m => 0 <= var_size m) members ->
  PadStructMembers members = Return (members', size) ->
  padded members members' /\ sublist members members' /\
  (length members <= length members')%nat.
Proof.
  intros Hsizes H.
  assert (Hpadded : padded members members').
  { apply (PadStructMembers_loop_padded members [] 0 0 members' size []);
      [exact H | lia | exact Hsizes | constructor]. }
  split; [exact Hpadded | split];
    [by apply padded_sublist | by apply padded_length].
Qed.

Lemma PadStructMembers_padded_witness :
  padded [mkVar "char" "a" 0 false 1; mkVar "short" "b" 0 false 2]
         [mkVar "char" "a" 0 false 1; MakePadField 1; mkVar "short" "b" 0 false 2].
Proof.
  apply (PadStructMembers_padded
           [mkVar "char" "a" 0 false 1; mkVar "short" "b" 0 false 2] _ 4).
  - repeat (apply Forall_cons; split; [vm_compute; discriminate |]). constructor.
  - vm_compute. reflexivity.
Defined.

Lemma PadStructMembers_loop_returns (rest : list VariableDeclaration) :
  forall before total last_size,
    0 <= last_size <= 2 ->
    Forall (fun m => 0 <= var_size m /\ var_size m <> 3) rest ->
    exists members' size,
      PadStructMembers_loop rest before total last_size = Return (members', size).
Proof.
  induction rest as [| m rest IH]; intros before total last_size Hlast Hsizes.
  - cbn [PadStructMembers_loop]. by eexists _, _.
  - apply Forall_cons in Hsizes as [[Hm Hm3] Hsizes].
    cbn [PadStructMembers_loop].
    destruct (Z.eqb_spec (var_size m mod kAlignment_) 0) as [Haligned | Hnarrow].
    + destruct (Z.ltb_spec 0 last_size) as [Hpending | Hnone].
      * rewrite align_up_double_small by lia. cbn [mbind outcome_bind].
        apply IH; [lia | done].
      * apply IH; [lia | done].
    + unfold kAlignment_ in *.
      destruct (Z.leb_spec 4 (var_size m)) as [Hbig | Hsmall]; [by eexists _, _ |].
      assert (Hsize : var_size m = 1 \/ var_size m = 2).
      { destruct (Z.eq_dec (var_size m) 0) as [E | E]; [| lia].
        rewrite E in Hnarrow. done. }
      destruct (Z.eqb_spec last_size 0) as [Hzero | Hnonzero];
        [apply IH; [lia | done] |].
      destruct (Z.eqb_spec ((var_size m + last_size) mod 4) 0) as [Hsum | Hnosum];
        [apply IH; [lia | done] |].
      destruct (Z.eqb_spec last_size 1) as [Hone | Hnotone].
      * destruct (Z.eqb_spec (var_size m) 1) as [Hs1 | Hs1];
          [apply IH; [lia | done] |].
        destruct (Z.eqb_spec (var_size m) 2) as [Hs2 | Hs2];
          [apply IH; [lia | done] | by eexists _, _].
      * destruct (Z.eqb_spec last_size 2) as [Htwo | Hnottwo]; [| by eexists _, _].
        destruct (Z.eqb_spec (var_size m) 1) as [Hs1 | Hs1].
        -- cbn [assert mbind outcome_bind]. apply IH; [lia | done].
        -- exfalso. destruct Hsize as [E | E]; [done |].
           rewrite E, Htwo in Hnosum. done.
Qed.

(** X11. When [PadStructMembers] returns and when it stops. On members
    whose sizes are not negative and never 3, it returns (a size and the
    padded list); a member of 3 bytes that follows a member of 2 bytes
    at the start of a run, as in a [short] followed by [char x[3]], makes
    it stop on its assertion [1 == size]. *)
Theorem PadStructMembers_returns (members : list VariableDeclaration) :
  (Forall (fun m => 0 <= var_size m /\ var_size m <> 3) members ->
   exists members' size, PadStructMembers members = Return (members', size)) /\
  (forall a b, var_size a = 2 -> var_size b = 3 ->
               PadStructMembers (a :: b :: members) = AssertFail).
Proof.
  split.
  - intros Hsizes. apply PadStructMembers_loop_returns; [lia | exact Hsizes].
  - intros a b Ha Hb. unfold PadStructMembers. cbn [PadStructMembers_loop].
    rewrite Ha, Hb. reflexivity.
Qed.
